(** * Expense tracker: calendar utilities, recurring poster and ledger store

    A shallow embedding of [app.py] (Streamlit + SQLite expense tracker).

    - Python integers are [Z]; [//] and [%] by a positive divisor are
      [Z.div] and [Z.modulo] (both round towards minus infinity).
    - [datetime.date] is a record of year, month and day; its constructor
      raises outside years 1..9999, which [new_date] reports as [Raises].
    - The SQLite file is a record of its four tables, each a list of rows in
      rowid order.  TEXT is a string of bytes, the UTF-8 form of a Python
      string; LIKE reads it as the engine does, character by character up to
      the first NUL.  Date columns hold the ISO text of a date; the embedding
      keeps the date itself.  REAL amounts are the rationals they denote.
    - A function that may raise, or whose [while] loop is run with a step
      budget, returns an [outcome]. *)

From Stdlib Require Import ZArith Znumtheory QArith Lia Ascii String.
From stdpp Require Import base decidable option numbers list sorting strings pretty gmap.

Local Open Scope Z_scope.

(** ** Outcomes of a call *)

Inductive outcome (A : Type) : Type :=
| Returns (a : A)   (* normal return *)
| Raises            (* a Python exception propagates *)
| OutOfFuel.        (* the step budget of a loop ran out *)
Arguments Returns {A} a.
Arguments Raises {A}.
Arguments OutOfFuel {A}.

Global Instance outcome_ret : MRet outcome := fun A a => Returns a.

Global Instance outcome_bind : MBind outcome := fun A B k c =>
  match c with
  | Returns a => k a
  | Raises => Raises
  | OutOfFuel => OutOfFuel
  end.

(** ** Calendar dates ([datetime.date]) *)

Record date : Type := mkDate { year : Z; month : Z; day : Z }.

Definition MINYEAR : Z := 1.
Definition MAXYEAR : Z := 9999.

(** [datetime._is_leap] and [datetime._days_in_month]. *)
Definition is_leap (y : Z) : bool :=
  (y mod 4 =? 0) && (negb (y mod 100 =? 0) || (y mod 400 =? 0)).

Definition days_in_month (y m : Z) : Z :=
  if (m =? 2) && is_leap y then 29
  else nth (Z.to_nat m) [0; 31; 28; 31; 30; 31; 30; 31; 31; 30; 31; 30; 31] 0.

(** [dt.date(y, m, d)]: the constructor checks the three ranges. *)
Definition new_date (y m d : Z) : outcome date :=
  if (MINYEAR <=? y) && (y <=? MAXYEAR)
     && (1 <=? m) && (m <=? 12)
     && (1 <=? d) && (d <=? days_in_month y m)
  then Returns (mkDate y m d)
  else Raises.

(** What every [datetime.date] object satisfies. *)
Definition valid_date (d : date) : Prop :=
  MINYEAR <= year d <= MAXYEAR /\ 1 <= month d <= 12
  /\ 1 <= day d <= days_in_month (year d) (month d).

(** [d1 <= d2] and [d1 == d2] on dates compare (year, month, day). *)
Definition date_leb (d1 d2 : date) : bool :=
  (year d1 <? year d2)
  || ((year d1 =? year d2)
      && ((month d1 <? month d2)
          || ((month d1 =? month d2) && (day d1 <=? day d2)))).

Definition date_eqb (d1 d2 : date) : bool :=
  (year d1 =? year d2) && (month d1 =? month d2) && (day d1 =? day d2).

Definition date_le (d1 d2 : date) : Prop := date_leb d1 d2 = true.
Definition date_lt (d1 d2 : date) : Prop := date_leb d2 d1 = false.

(** ** Utility *)

(** [f"{n:0wd}"]: decimal digits, zero-filled after the sign up to [width]. *)
Fixpoint zeros (k : nat) : string :=
  match k with
  | O => ""
  | S k' => String "0"%char (zeros k')
  end.

Definition format_0d (width : nat) (n : Z) : string :=
  let sign := if n <? 0 then "-" else "" in
  let digits := pretty (Z.abs_N n) in
  sign +:+ zeros (width - String.length sign - String.length digits) +:+ digits.

(** [to_date] on a value that is a date already (the second [isinstance]
    branch); the date columns of the store are read through it. *)
Definition to_date (x : date) : date := x.

(** [month_key]: [f"{d.year:04d}-{d.month:02d}"]. *)
Definition month_key (d : date) : string :=
  format_0d 4 (year d) +:+ "-" +:+ format_0d 2 (month d).

(** [add_months]. *)
Definition add_months (d : date) (months : Z) : outcome date :=
  let y := year d + (month d - 1 + months) / 12 in
  let m := (month d - 1 + months) mod 12 + 1 in
  let day :=
    Z.min (day d)
      (nth (Z.to_nat (m - 1))
         [31; if (y mod 4 =? 0) && (negb (y mod 100 =? 0) || (y mod 400 =? 0))
              then 29 else 28;
          31; 30; 31; 30; 31; 31; 30; 31; 30; 31] 0) in
  new_date y m day.

(** ** The ledger store

    One record per table row, with the columns of [init_db]'s schema.  A
    nullable TEXT column is an [option]; [created_at], which SQLite fills
    from its own clock and nothing reads, is left out. *)

Inductive ttype : Type := Expense | Income.

Definition ttype_text (t : ttype) : string :=
  match t with Expense => "Expense" | Income => "Income" end.

Record transaction : Type := mkTransaction {
  t_id : Z;
  t_date : date;
  t_ttype : ttype;
  t_category : string;
  t_description : option string;
  t_amount : Q;
  t_account : option string
}.

Record budget : Type := mkBudget {
  b_id : Z;
  b_month : string;
  b_category : string;
  b_amount : Q
}.

Record recurring_rule : Type := mkRecurring {
  r_id : Z;
  r_ttype : ttype;
  r_category : string;
  r_description : option string;
  r_amount : Q;
  r_interval : string;
  r_next_date : date
}.

(** The [*_seq] fields are the [sqlite_sequence] entries of the three
    AUTOINCREMENT tables. *)
Record database : Type := mkDatabase {
  transactions : list transaction;
  transactions_seq : Z;
  categories : gset string;
  budgets : list budget;
  budgets_seq : Z;
  recurring : list recurring_rule;
  recurring_seq : Z
}.

(** AUTOINCREMENT: one more than the largest rowid the table ever held. *)
Definition next_rowid (seq : Z) (ids : list Z) : Z :=
  foldr Z.max seq ids + 1.

(** [init_db] on a fresh file: empty tables and the seeded categories. *)
Definition init_db : database :=
  {| transactions := []; transactions_seq := 0;
     categories :=
       list_to_set ["Food"; "Transport"; "Rent"; "Utilities"; "Shopping";
                    "Health"; "Entertainment"; "Salary"; "Other"];
     budgets := []; budgets_seq := 0;
     recurring := []; recurring_seq := 0 |}.

(** [INSERT INTO transactions(date, ttype, category, description, amount,
    account) VALUES(?,?,?,?,?,?)]. *)
Definition insert_transaction (d : date) (ty : ttype) (category : string)
    (description : option string) (amount : Q) (account : option string)
    (db : database) : database :=
  let id := next_rowid (transactions_seq db) (t_id <$> transactions db) in
  {| transactions :=
       transactions db
       ++ [mkTransaction id d ty category description amount account];
     transactions_seq := id;
     categories := categories db;
     budgets := budgets db; budgets_seq := budgets_seq db;
     recurring := recurring db; recurring_seq := recurring_seq db |}.

Definition set_next_date (d : date) (r : recurring_rule) : recurring_rule :=
  mkRecurring (r_id r) (r_ttype r) (r_category r) (r_description r)
    (r_amount r) (r_interval r) d.

(** [UPDATE recurring SET next_date=? WHERE id=?]. *)
Definition update_next_date (d : date) (id : Z) (db : database) : database :=
  {| transactions := transactions db; transactions_seq := transactions_seq db;
     categories := categories db;
     budgets := budgets db; budgets_seq := budgets_seq db;
     recurring :=
       (fun r => if r_id r =? id then set_next_date d r else r) <$> recurring db;
     recurring_seq := recurring_seq db |}.

(** ** Recurring processing *)

(** The [while next_date <= now] loop of [apply_recurring] for the row [r],
    run for at most [fuel] iterations. *)
Fixpoint while_due (fuel : nat) (now : date) (r : recurring_rule)
    (next_date : date) (db : database) (made : Z)
    : outcome (database * Z * date) :=
  if date_leb next_date now then
    match fuel with
    | O => OutOfFuel
    | S fuel' =>
      let db := insert_transaction next_date (r_ttype r) (r_category r)
                  (r_description r) (r_amount r) (Some "Recurring") db in
      let made := made + 1 in
      if String.eqb (r_interval r) "monthly" then
        next_date ← add_months next_date 1;
        while_due fuel' now r next_date db made
      else Returns (db, made, next_date)
    end
  else Returns (db, made, next_date).

(** The body of [for r in rows]. *)
Definition for_row (fuel : nat) (now : date) (r : recurring_rule)
    (st : database * Z) : outcome (database * Z) :=
  let next_date := to_date (r_next_date r) in
  '(db, made, next_date) ← while_due fuel now r next_date st.1 st.2;
  if negb (date_eqb next_date (to_date (r_next_date r)))
  then Returns (update_next_date next_date (r_id r) db, made)
  else Returns (db, made).

Fixpoint for_rows (fuel : nat) (now : date) (rows : list recurring_rule)
    (st : database * Z) : outcome (database * Z) :=
  match rows with
  | [] => Returns st
  | r :: rows' => st' ← for_row fuel now r st; for_rows fuel now rows' st'
  end.

(** [apply_recurring]: the rows are fetched once, the statements run on one
    connection and are committed at the end; an exception leaves the file as
    it was. *)
Definition apply_recurring (fuel : nat) (now : date) (db : database)
    : outcome (database * Z) :=
  let rows := recurring db in
  let made := 0 in
  for_rows fuel now rows (db, made).

(** ** Query helpers *)

(** *** SQLite's [LIKE]

    The engine reads a TEXT value as UTF-8 up to its first NUL byte.
    [utf8_chars] is the run of characters its reader ([sqlite3Utf8Read])
    yields: a byte below 0xC0 is a character by itself; a byte from 0xC0 on
    starts a character that takes in every continuation byte (10xxxxxx) that
    follows, six bits each in a 32-bit word; a result below 0x80, a
    surrogate, 0xFFFE and 0xFFFF are read as 0xFFFD.  [pending] is the
    character being read. *)
Definition byte_value (a : ascii) : Z := Z.of_N (N_of_ascii a).

Definition sqlite3Utf8Trans1 (b : Z) : Z :=
  if b <? 0xE0 then b - 0xC0
  else if b <? 0xF0 then b - 0xE0
  else if b <? 0xF8 then b - 0xF0
  else if b <? 0xFC then b - 0xF8
  else if b <? 0xFE then b - 0xFC
  else 0.

Definition utf8_fix (c : Z) : Z :=
  if (c <? 0x80)
     || (Z.land c 0xFFFFF800 =? 0xD800)
     || (Z.land c 0xFFFFFFFE =? 0xFFFE)
  then 0xFFFD else c.

Fixpoint utf8_chars (pending : option Z) (s : string) : list Z :=
  match s with
  | EmptyString => match pending with Some c => [utf8_fix c] | None => [] end
  | String a rest =>
    let b := byte_value a in
    let start :=
      if b =? 0 then []
      else if b <? 0xC0 then b :: utf8_chars None rest
      else utf8_chars (Some (sqlite3Utf8Trans1 b)) rest in
    match pending with
    | Some c =>
      if Z.land b 0xC0 =? 0x80
      then utf8_chars (Some ((Z.shiftl c 6 + Z.land 0x3F b) mod 2 ^ 32)) rest
      else utf8_fix c :: start
    | None => start
    end
  end.

(** The comparison of a pattern character with a text character: equal, or
    equal ASCII letters up to case ([sqlite3Tolower], on characters below
    0x80). *)
Definition sqlite3Tolower (c : Z) : Z :=
  if (65 <=? c) && (c <=? 90) then c + 32 else c.

Definition same_char (c c2 : Z) : bool :=
  (c =? c2)
  || ((sqlite3Tolower c =? sqlite3Tolower c2) && (c <? 0x80) && (c2 <? 0x80)).

(** [patternCompare] for LIKE without ESCAPE: [%] (37) matches any run of
    characters, [_] (95) any one character. *)
Fixpoint patternCompare (pattern : list Z) : list Z -> bool :=
  match pattern with
  | [] => fun s => match s with [] => true | _ => false end
  | c :: p =>
    if c =? 37 then
      fix any_run (s : list Z) : bool :=
        patternCompare p s || match s with
                              | [] => false
                              | _ :: s' => any_run s'
                              end
    else
      fun s => match s with
               | [] => false
               | c2 :: s' =>
                 (same_char c c2 || (c =? 95)) && patternCompare p s'
               end
  end.

(** [x LIKE pattern] ([likeFunc]): a pattern of more than 50000 bytes is
    refused with an error, whatever [x] is; [NULL LIKE p] is NULL, which a
    WHERE clause treats as false. *)
Definition SQLITE_MAX_LIKE_PATTERN_LENGTH : Z := 50000.

Definition like_null (pattern : string) (x : option string) : bool :=
  match x with
  | Some text =>
    patternCompare (utf8_chars None pattern) (utf8_chars None text)
  | None => false
  end.

Definition like (pattern : string) (x : option string) : outcome bool :=
  if SQLITE_MAX_LIKE_PATTERN_LENGTH <? Z.of_nat (String.length pattern)
  then Raises
  else Returns (like_null pattern x).

(** The [filters] dict: a missing key and [None] are the same to [.get]. *)
Record filters : Type := mkFilters {
  date_from : option date;
  date_to : option date;
  f_ttype : option string;
  f_category : option string;
  min_amt : option Q;
  max_amt : option Q;
  q : option string
}.

(** Truthiness of a string looked up with [.get]: present and not empty. *)
Definition truthy (x : option string) : option string :=
  match x with
  | Some s => if String.eqb s "" then None else Some s
  | None => None
  end.

(** A clause that cannot raise. *)
Definition pure_clause (keep : transaction -> bool)
    : transaction -> outcome bool :=
  fun t => Returns (keep t).

(** [(description LIKE ? OR account LIKE ?)], both with ['%' + q + '%']. *)
Definition q_clause (s : string) : transaction -> outcome bool :=
  fun t =>
    like ("%" +:+ s +:+ "%") (t_description t) ≫= fun in_description : bool =>
      like ("%" +:+ s +:+ "%") (t_account t) ≫= fun in_account : bool =>
        Returns (in_description || in_account).

(** The [where] list of [df_transactions], one row test per clause. *)
Definition where_clauses (f : filters) : list (transaction -> outcome bool) :=
  (match date_from f with
   | Some d => [pure_clause (fun t => date_leb d (t_date t))] | None => [] end)
  ++ (match date_to f with
      | Some d => [pure_clause (fun t => date_leb (t_date t) d)]
      | None => [] end)
  ++ (match truthy (f_ttype f) with
      | Some ty =>
        if negb (String.eqb ty "All")
        then [pure_clause (fun t => String.eqb (ttype_text (t_ttype t)) ty)]
        else []
      | None => [] end)
  ++ (match truthy (f_category f) with
      | Some c =>
        if negb (String.eqb c "All")
        then [pure_clause (fun t => String.eqb (t_category t) c)] else []
      | None => [] end)
  ++ (match min_amt f with
      | Some a => [pure_clause (fun t => Qle_bool a (t_amount t))]
      | None => [] end)
  ++ (match max_amt f with
      | Some a => [pure_clause (fun t => Qle_bool (t_amount t) a)]
      | None => [] end)
  ++ (match truthy (q f) with
      | Some s => [q_clause s]
      | None => [] end).

(** The clauses joined with AND, tested on a row from left to right up to
    the first that fails. *)
Fixpoint where_holds (clauses : list (transaction -> outcome bool))
    (t : transaction) : outcome bool :=
  match clauses with
  | [] => Returns true
  | clause :: clauses' =>
    clause t ≫= fun holds : bool =>
      if holds then where_holds clauses' t else Returns false
  end.

(** The scan of the table, in rowid order; an error on a row ends it. *)
Fixpoint select_rows (clauses : list (transaction -> outcome bool))
    (rows : list transaction) : outcome (list transaction) :=
  match rows with
  | [] => Returns []
  | t :: rows' =>
    where_holds clauses t ≫= fun keep : bool =>
      kept ← select_rows clauses rows';
      Returns (if keep then t :: kept else kept)
  end.

(** [ORDER BY date DESC, id DESC]. *)
Definition newest_first (t1 t2 : transaction) : Prop :=
  date_lt (t_date t2) (t_date t1)
  \/ (t_date t1 = t_date t2 /\ t_id t2 <= t_id t1).

Global Instance date_eq_dec : EqDecision date.
Proof. solve_decision. Defined.

Global Instance newest_first_dec t1 t2 : Decision (newest_first t1 t2).
Proof. unfold newest_first, date_lt. apply _. Defined.

(** [df_transactions]: the rows that pass the WHERE condition, sorted; the
    call raises when the engine refuses the pattern on some row. *)
Definition df_transactions (f : option filters) (db : database)
    : outcome (list transaction) :=
  let where_ := match f with Some f => where_clauses f | None => [] end in
  rows ← select_rows where_ (transactions db);
  Returns (merge_sort newest_first rows).

(** [upsert_category]: [INSERT OR IGNORE INTO categories(name)]. *)
Definition upsert_category (name : string) (db : database) : database :=
  {| transactions := transactions db; transactions_seq := transactions_seq db;
     categories := {[name]} ∪ categories db;
     budgets := budgets db; budgets_seq := budgets_seq db;
     recurring := recurring db; recurring_seq := recurring_seq db |}.

(** [delete_category]: [DELETE FROM categories WHERE name=?]. *)
Definition delete_category (name : string) (db : database) : database :=
  {| transactions := transactions db; transactions_seq := transactions_seq db;
     categories := categories db ∖ {[name]};
     budgets := budgets db; budgets_seq := budgets_seq db;
     recurring := recurring db; recurring_seq := recurring_seq db |}.

(** [set_budget]: [INSERT ... ON CONFLICT(month, category) DO UPDATE SET
    amount=excluded.amount].  The engine draws the new rowid before it meets
    the conflict, so the AUTOINCREMENT sequence of the table advances on
    either branch. *)
Definition same_budget_key (month category : string) (b : budget) : bool :=
  String.eqb (b_month b) month && String.eqb (b_category b) category.

Definition set_budget (month category : string) (amount : Q) (db : database)
    : database :=
  if existsb (same_budget_key month category) (budgets db) then
    {| transactions := transactions db; transactions_seq := transactions_seq db;
       categories := categories db;
       budgets :=
         (fun b => if same_budget_key month category b
                   then mkBudget (b_id b) (b_month b) (b_category b) amount
                   else b) <$> budgets db;
       budgets_seq := next_rowid (budgets_seq db) (b_id <$> budgets db);
       recurring := recurring db; recurring_seq := recurring_seq db |}
  else
    let id := next_rowid (budgets_seq db) (b_id <$> budgets db) in
    {| transactions := transactions db; transactions_seq := transactions_seq db;
       categories := categories db;
       budgets := budgets db ++ [mkBudget id month category amount];
       budgets_seq := id;
       recurring := recurring db; recurring_seq := recurring_seq db |}.

(** ** The rest of the store and its callers *)

(** [date.isoformat()]: ["%04d-%02d-%02d"], the text a date column holds. *)
Definition isoformat (d : date) : string :=
  format_0d 4 (year d) +:+ "-" +:+ format_0d 2 (month d)
  +:+ "-" +:+ format_0d 2 (day d).

(** [init_db] on a file that exists: the tables are kept as they are
    (CREATE TABLE IF NOT EXISTS), and the nine default categories are
    inserted when the categories table has no row. *)
Definition init_db_on (db : database) : database :=
  if bool_decide (size (categories db) = 0%nat) then
    {| transactions := transactions db; transactions_seq := transactions_seq db;
       categories :=
         list_to_set ["Food"; "Transport"; "Rent"; "Utilities"; "Shopping";
                      "Health"; "Entertainment"; "Salary"; "Other"]
         ∪ categories db;
       budgets := budgets db; budgets_seq := budgets_seq db;
       recurring := recurring db; recurring_seq := recurring_seq db |}
  else db.

(** [list_categories]: [SELECT name FROM categories ORDER BY name], names
    compared byte by byte. *)
Definition list_categories (db : database) : list string :=
  merge_sort String.le (elements (categories db)).

(** [get_budgets_df]: [SELECT * FROM budgets WHERE month = ? ORDER BY
    category]. *)
Definition by_category (b1 b2 : budget) : Prop :=
  String.le (b_category b1) (b_category b2).

Global Instance by_category_dec b1 b2 : Decision (by_category b1 b2).
Proof. unfold by_category. apply _. Defined.

Definition get_budgets_df (month : string) (db : database) : list budget :=
  merge_sort by_category
    (List.filter (fun b => String.eqb (b_month b) month) (budgets db)).

(** The first entry of the category select box of Quick Add. *)
Definition ADD_NEW : string := "+ Add new …".

Section QuickAdd.

(** [str.strip] of Python's library, which is not code of this repository:
    it is a parameter of the form, and what is said about the form holds for
    every function in its place. *)
Variable strip : string -> string.

(** The Quick Add form on submit.  With "+ Add new …" selected and a name
    typed, the stripped name goes through [upsert_category] and becomes the
    category.  Then the INSERT runs when the category is not empty and the
    amount is positive ([true]); otherwise an error is shown ([false]). *)
Definition add_txn (ty : ttype) (d : date) (category new_cat desc : string)
    (amount : Q) (account : string) (db : database) : database * bool :=
  let '(category, db) :=
    if String.eqb category ADD_NEW then
      if negb (String.eqb new_cat "")
      then (strip new_cat, upsert_category (strip new_cat) db)
      else (category, db)
    else (category, db) in
  if negb (String.eqb category "") && negb (Qle_bool amount 0)
  then (insert_transaction d ty category (Some desc) amount (Some account) db,
        true)
  else (db, false).

End QuickAdd.

(** [DELETE FROM transactions WHERE id=?], the Delete button of a row. *)
Definition delete_transaction (id : Z) (db : database) : database :=
  {| transactions := List.filter (fun t => negb (t_id t =? id)) (transactions db);
     transactions_seq := transactions_seq db;
     categories := categories db;
     budgets := budgets db; budgets_seq := budgets_seq db;
     recurring := recurring db; recurring_seq := recurring_seq db |}.

(** [INSERT INTO recurring(ttype, category, description, amount, interval,
    next_date) VALUES(?,?,?,?,?,?)]. *)
Definition insert_recurring (ty : ttype) (category : string)
    (description : option string) (amount : Q) (interval : string)
    (next_date : date) (db : database) : database :=
  let id := next_rowid (recurring_seq db) (r_id <$> recurring db) in
  {| transactions := transactions db; transactions_seq := transactions_seq db;
     categories := categories db;
     budgets := budgets db; budgets_seq := budgets_seq db;
     recurring :=
       recurring db
       ++ [mkRecurring id ty category description amount interval next_date];
     recurring_seq := id |}.

(** The Add Recurring form on submit: a positive amount is stored as a rule
    with interval "monthly"; otherwise an error is shown ([None]). *)
Definition add_recurring (ty : ttype) (category desc : string) (amount : Q)
    (next_date : date) (db : database) : option database :=
  if negb (Qle_bool amount 0)
  then Some (insert_recurring ty category (Some desc) amount "monthly"
               next_date db)
  else None.

(** [UPDATE transactions SET date=?, ttype=?, category=?, description=?,
    amount=?, account=? WHERE id=?], the Save button of a row; the amount
    field of that form has no lower bound. *)
Definition update_transaction (id : Z) (d : date) (ty : ttype)
    (category desc : string) (amount : Q) (account : string)
    (db : database) : database :=
  {| transactions :=
       (fun t => if t_id t =? id
                 then mkTransaction (t_id t) d ty category (Some desc) amount
                        (Some account)
                 else t) <$> transactions db;
     transactions_seq := transactions_seq db;
     categories := categories db;
     budgets := budgets db; budgets_seq := budgets_seq db;
     recurring := recurring db; recurring_seq := recurring_seq db |}.

(** [UPDATE recurring SET ttype=?, category=?, description=?, amount=?,
    next_date=? WHERE id=?], the Save button of a rule: the interval is not
    among the columns set. *)
Definition update_recurring (id : Z) (ty : ttype) (category desc : string)
    (amount : Q) (next_date : date) (db : database) : database :=
  {| transactions := transactions db; transactions_seq := transactions_seq db;
     categories := categories db;
     budgets := budgets db; budgets_seq := budgets_seq db;
     recurring :=
       (fun r => if r_id r =? id
                 then mkRecurring (r_id r) ty category (Some desc) amount
                        (r_interval r) next_date
                 else r) <$> recurring db;
     recurring_seq := recurring_seq db |}.

(** [DELETE FROM recurring WHERE id=?], the Delete button of a rule. *)
Definition delete_recurring (id : Z) (db : database) : database :=
  {| transactions := transactions db; transactions_seq := transactions_seq db;
     categories := categories db;
     budgets := budgets db; budgets_seq := budgets_seq db;
     recurring := List.filter (fun r => negb (r_id r =? id)) (recurring db);
     recurring_seq := recurring_seq db |}.

(** [today.replace(day=1)] and the month list of the budgets tab:
    [[month_key(add_months(today.replace(day=1), i)) for i in range(-6, 7)]]. *)
Definition replace_day (d : date) (new_day : Z) : outcome date :=
  new_date (year d) (month d) new_day.

Definition budget_months (today : date) : outcome (list string) :=
  first ← replace_day today 1;
  mapM (fun i => d ← add_months first i; Returns (month_key d)) (seqZ (-6) 13).

(** * Vocabulary of the properties

    Notions the statements below are written in, and the worked examples
    they are tried on.  None of them is part of [app.py]. *)

(** ** Calendar *)

(** Months counted from year 0: the position of a date's month on the
    calendar. *)
Definition month_index (d : date) : Z := 12 * year d + (month d - 1).

(** The length of a month as the calendar defines it: February has 29 days
    exactly in the years divisible by 4 and not by 100, or divisible by 400. *)
Definition leap_year (y : Z) : Prop :=
  ((4 | y) /\ ~ (100 | y)) \/ (400 | y).

(** Divisibility on [Z] is decidable. *)
Global Instance Z_divide_dec (a b : Z) : Decision (a | b).
Proof.
  destruct (decide (a = 0)) as [-> | Ha].
  - destruct (decide (b = 0)) as [-> | Hb].
    + left. apply Z.divide_0_r.
    + right. intros H. apply Z.divide_0_l in H. contradiction.
  - destruct (decide (b mod a = 0)) as [H | H].
    + left. apply Z.mod_divide; assumption.
    + right. intros Hd. apply H, Z.mod_divide; assumption.
Defined.

(** Thirty days have April, June, September and November. *)
Definition month_length (y m : Z) : Z :=
  if decide (m = 2) then (if decide (leap_year y) then 29 else 28)
  else if decide (m = 4 \/ m = 6 \/ m = 9 \/ m = 11) then 30
  else 31.

(** Case analysis on a month number known to lie in 1..12. *)
Ltac month_cases m :=
  let H := fresh in
  assert (H : m = 1 \/ m = 2 \/ m = 3 \/ m = 4 \/ m = 5 \/ m = 6 \/ m = 7
              \/ m = 8 \/ m = 9 \/ m = 10 \/ m = 11 \/ m = 12) by lia;
  repeat (destruct H as [H | H]); subst m.

(** [valid_date] of a date given by its three numbers. *)
Ltac valid_date_tac :=
  unfold valid_date, MINYEAR, MAXYEAR; cbn [year month day];
  repeat split; vm_compute; congruence.

(** ** Decimal numerals *)

(** The value of a digit character. *)
Definition digit_of (c : ascii) : N := (N_of_ascii c - 48)%N.

(** Reading a decimal numeral back, most significant digit first. *)
Fixpoint decimal_value (acc : N) (s : string) : N :=
  match s with
  | EmptyString => acc
  | String c s' => decimal_value (10 * acc + digit_of c)%N s'
  end.

(** The characters "0" to "9", and the strings made of them. *)
Definition is_digit (c : ascii) : bool :=
  ((48 <=? N_of_ascii c) && (N_of_ascii c <=? 57))%N.

Fixpoint all_digits (s : string) : bool :=
  match s with
  | EmptyString => true
  | String c s' => is_digit c && all_digits s'
  end.

(** ** Budgets *)

(** The rows of the budgets table for one (month, category) pair. *)
Definition budget_rows (month category : string) (l : list budget)
    : list budget :=
  List.filter (same_budget_key month category) l.

(** The table constraint [UNIQUE(month, category)]. *)
Definition budgets_unique (l : list budget) : Prop :=
  forall month category : string,
    (length (budget_rows month category l) <= 1)%nat.

(** A sequence of [set_budget] calls, first call first. *)
Definition set_budgets (calls : list (string * string * Q)) (db : database)
    : database :=
  foldl (fun db call => set_budget call.1.1 call.1.2 call.2 db) db calls.

(** Overwriting the amount of the rows of one pair: the rows of every pair
    stay the same rows, up to that amount. *)
Definition overwrite (month category : string) (amount : Q) (b : budget)
    : budget :=
  if same_budget_key month category b
  then mkBudget (b_id b) (b_month b) (b_category b) amount
  else b.

(** ** The recurring poster, rule by rule *)

(** The test [r["interval"] == "monthly"]. *)
Definition monthly (r : recurring_rule) : bool :=
  String.eqb (r_interval r) "monthly".

(** The dates at which the loop of [apply_recurring] posts, and the date it
    stops at: [while_due] without the store. *)
Fixpoint due_dates (fuel : nat) (now : date) (is_monthly : bool) (d : date)
    : outcome (list date * date) :=
  if date_leb d now then
    match fuel with
    | O => OutOfFuel
    | S fuel' =>
      if is_monthly then
        d' ← add_months d 1;
        '(ds, e) ← due_dates fuel' now is_monthly d';
        Returns (d :: ds, e)
      else Returns ([d], d)
    end
  else Returns ([], d).

(** The INSERT of the loop body for the date [d], and a run of them. *)
Definition post (r : recurring_rule) (db : database) (d : date) : database :=
  insert_transaction d (r_ttype r) (r_category r) (r_description r)
    (r_amount r) (Some "Recurring") db.

Definition post_all (r : recurring_rule) (ds : list date) (db : database)
    : database :=
  foldl (post r) db ds.

(** The loop of the row [r], started at its stored next_date. *)
Definition schedule (fuel : nat) (now : date) (r : recurring_rule)
    : outcome (list date * date) :=
  due_dates fuel now (monthly r) (r_next_date r).

(** The effect of one rule on the store: its postings, then the UPDATE when
    the loop moved the date. *)
Definition settle (r : recurring_rule) (s : list date * date) (db : database)
    : database :=
  if negb (date_eqb s.2 (r_next_date r))
  then update_next_date s.2 (r_id r) (post_all r s.1 db)
  else post_all r s.1 db.

(** The schedules of all rows, in table order. *)
Fixpoint plan (fuel : nat) (now : date) (rows : list recurring_rule)
    : outcome (list (list date * date)) :=
  match rows with
  | [] => Returns []
  | r :: rows' =>
    s ← schedule fuel now r; p ← plan fuel now rows'; Returns (s :: p)
  end.

(** The store after the rows had the effects of their schedules, in order. *)
Fixpoint replay (rows : list recurring_rule) (p : list (list date * date))
    (db : database) : database :=
  match rows, p with
  | r :: rows', s :: p' => replay rows' p' (settle r s db)
  | _, _ => db
  end.

(** The number of postings of a plan: the value of [made]. *)
Definition posted (p : list (list date * date)) : Z :=
  Z.of_nat (length (concat (fst <$> p))).

(** The six columns the INSERT of [apply_recurring] names. *)
Definition columns (t : transaction)
    : date * ttype * string * option string * Q * option string :=
  (t_date t, t_ttype t, t_category t, t_description t, t_amount t, t_account t).

(** What a rule posts for the occurrence at date [d]. *)
Definition posting (r : recurring_rule) (d : date)
    : date * ttype * string * option string * Q * option string :=
  (d, r_ttype r, r_category r, r_description r, r_amount r, Some "Recurring").

(** The primary key of the recurring table: no two rows share an id. *)
Definition unique_ids (rows : list recurring_rule) : Prop :=
  NoDup (r_id <$> rows).

(** The UPDATE on the rows of the recurring table. *)
Definition move (id : Z) (e : date) (rows : list recurring_rule)
    : list recurring_rule :=
  (fun r => if r_id r =? id then set_next_date e r else r) <$> rows.

(** A rule with its next_date set to the date its loop stopped at. *)
Definition advance (r : recurring_rule) (s : list date * date)
    : recurring_rule :=
  set_next_date s.2 r.

(** The scheduled occurrences of a monthly rule whose first one is [d]:
    [d], [add_months d 1], [add_months (add_months d 1) 1], ... *)
Fixpoint occurrence (d : date) (k : nat) : outcome date :=
  match k with
  | O => Returns d
  | S k' => d' ← occurrence d k'; add_months d' 1
  end.

(** December 9999, the last month a [datetime.date] can lie in. *)
Definition last_month : Z := 12 * MAXYEAR + 11.

(** Two rules, one monthly and one not, and a store to run the poster on. *)
Definition rent_rule : recurring_rule :=
  mkRecurring 1 Expense "Rent" (Some "Flat") 12000 "monthly" (mkDate 2024 1 15).

Definition gym_rule : recurring_rule :=
  mkRecurring 2 Expense "Health" None 900 "weekly" (mkDate 2024 3 1).

Definition store_with (rules : list recurring_rule) : database :=
  {| transactions := []; transactions_seq := 0;
     categories := ∅;
     budgets := []; budgets_seq := 0;
     recurring := rules; recurring_seq := 2 |}.

(** ** Search *)

(** Lower-casing of the ASCII letters of a text, byte by byte. *)
Definition to_lower (c : ascii) : ascii :=
  let n := nat_of_ascii c in
  if (65 <=? n)%nat && (n <=? 90)%nat then ascii_of_nat (n + 32) else c.

Fixpoint lower (s : string) : string :=
  match s with
  | EmptyString => EmptyString
  | String c s' => String (to_lower c) (lower s')
  end.

(** The characters of a text: the code points its bytes encode in UTF-8, as
    the standard has it (shortest form, no surrogate, at most U+10FFFF), and
    [None] for bytes that are no UTF-8 text.  A Python string is stored as
    bytes for which this is [Some]. *)
Definition continuation (b : Z) : bool := (128 <=? b) && (b <? 192).

Fixpoint code_points (s : string) : option (list Z) :=
  match s with
  | EmptyString => Some []
  | String a0 s1 =>
    let b0 := byte_value a0 in
    if b0 <? 128 then
      match code_points s1 with Some cs => Some (b0 :: cs) | None => None end
    else
      match s1 with
      | EmptyString => None
      | String a1 s2 =>
        let b1 := byte_value a1 in
        if b0 <? 224 then
          if (194 <=? b0) && continuation b1 then
            match code_points s2 with
            | Some cs => Some ((b0 - 192) * 64 + (b1 - 128) :: cs)
            | None => None
            end
          else None
        else
          match s2 with
          | EmptyString => None
          | String a2 s3 =>
            let b2 := byte_value a2 in
            if b0 <? 240 then
              let c := (b0 - 224) * 4096 + (b1 - 128) * 64 + (b2 - 128) in
              if continuation b1 && continuation b2 && (2048 <=? c)
                 && negb ((55296 <=? c) && (c <? 57344))
              then
                match code_points s3 with
                | Some cs => Some (c :: cs)
                | None => None
                end
              else None
            else
              match s3 with
              | EmptyString => None
              | String a3 s4 =>
                let b3 := byte_value a3 in
                let c := (b0 - 240) * 262144 + (b1 - 128) * 4096
                         + (b2 - 128) * 64 + (b3 - 128) in
                if continuation b1 && continuation b2 && continuation b3
                   && (65536 <=? c) && (c <? 1114112)
                then
                  match code_points s4 with
                  | Some cs => Some (c :: cs)
                  | None => None
                  end
                else None
              end
          end
      end
  end.

(** A character as the search compares it: an ASCII capital as its small
    letter, and U+FFFE and U+FFFF as U+FFFD. *)
Definition search_char (c : Z) : Z :=
  if (65 <=? c) && (c <=? 90) then c + 32
  else if (c =? 65534) || (c =? 65535) then 65533
  else c.

(** The characters before the first NUL. *)
Fixpoint before_nul (cs : list Z) : list Z :=
  match cs with
  | [] => []
  | c :: cs' => if c =? 0 then [] else c :: before_nul cs'
  end.

(** [x] is a text that, read up to its first NUL, has a run of characters
    equal to those of [s] as the search compares characters. *)
Definition contains_ci (s : string) (x : option string) : Prop :=
  exists (text : string) (cs qs pre post : list Z),
    x = Some text
    /\ code_points text = Some cs
    /\ code_points s = Some qs
    /\ search_char <$> before_nul cs = pre ++ (search_char <$> qs) ++ post.


(** The texts of a store are UTF-8, as every text written by Python is. *)
Definition utf8_text (x : option string) : Prop :=
  match x with Some text => is_Some (code_points text) | None => True end.

Definition utf8_store (db : database) : Prop :=
  Forall (fun t => utf8_text (t_description t) /\ utf8_text (t_account t))
    (transactions db).

(** [x] is a text with at least [n] characters before its first NUL. *)
Definition has_characters (n : nat) (x : option string) : Prop :=
  exists (text : string) (cs : list Z),
    x = Some text /\ code_points text = Some cs
    /\ (n <= length (before_nul cs))%nat.

(** A character as the engine reads it from UTF-8 text. *)
Definition as_read (c : Z) : Z :=
  if (c =? 65534) || (c =? 65535) then 65533 else c.

(** The [filters] dict without its "q" entry. *)
Definition without_q (f : filters) : filters :=
  mkFilters (date_from f) (date_to f) (f_ttype f) (f_category f)
    (min_amt f) (max_amt f) None.

(** Filters with only a search string, and with only the two amount bounds. *)
Definition search_only (s : string) : filters :=
  mkFilters None None None None None None (Some s).


(** A transaction and a store to query. *)
Definition lunch : transaction :=
  mkTransaction 1 (mkDate 2024 3 1) Expense "Food" (Some "lunch") 150
    (Some "Cash").

Definition ledger_with (rows : list transaction) : database :=
  {| transactions := rows; transactions_seq := 3;
     categories := ∅;
     budgets := []; budgets_seq := 0;
     recurring := []; recurring_seq := 0 |}.

(** A text of [n] copies of a character. *)
Fixpoint copies (n : nat) (c : ascii) : string :=
  match n with
  | O => EmptyString
  | S n' => String c (copies n' c)
  end.

(** Rows to search: one with a NUL in its description, one whose
    description is the character U+FFFD. *)
Definition nul_row : transaction :=
  mkTransaction 2 (mkDate 2024 3 2) Expense "Food"
    (Some ("xa" +:+ String "000" "by")) 20 None.

Definition fffd_row : transaction :=
  mkTransaction 3 (mkDate 2024 3 3) Expense "Food"
    (Some (String "239" (String "191" (String "189" "")))) 20 None.

(** ** Transaction ids *)

(** The largest rowid the transactions table ever held. *)
Definition top_id (db : database) : Z :=
  foldr Z.max (transactions_seq db) (t_id <$> transactions db).

(** ** Rules across a pass *)

(** Two rules that differ at most in their next_date. *)
Definition same_rule (r r' : recurring_rule) : Prop :=
  r_id r' = r_id r /\ r_ttype r' = r_ttype r /\ r_category r' = r_category r
  /\ r_description r' = r_description r /\ r_amount r' = r_amount r
  /\ r_interval r' = r_interval r.

(** ** Stores built by the app *)

(** What the forms, the buttons and the poster keep true of a store. *)
Definition store_ok (db : database) : Prop :=
  Forall (fun r => r_interval r = "monthly") (recurring db)
  /\ unique_ids (recurring db)
  /\ NoDup (t_id <$> transactions db)
  /\ budgets_unique (budgets db).

(** The stores reached from a fresh file by the operations above: adding
    transactions and rules through the forms, editing and deleting them,
    running the poster, saving budgets, managing categories, restarting.
    (CSV import and the upload of a database file are not among them.) *)
Inductive built : database -> Prop :=
| built_fresh : built init_db
| built_add_txn strip ty d category new_cat desc amount account db :
    built db ->
    built (add_txn strip ty d category new_cat desc amount account db).1
| built_add_recurring ty category desc amount next_date db db' :
    built db -> add_recurring ty category desc amount next_date db = Some db' ->
    built db'
| built_apply_recurring fuel now db db' made :
    built db -> apply_recurring fuel now db = Returns (db', made) -> built db'
| built_set_budget month category amount db :
    built db -> built (set_budget month category amount db)
| built_upsert_category name db : built db -> built (upsert_category name db)
| built_delete_category name db : built db -> built (delete_category name db)
| built_delete_transaction id db : built db -> built (delete_transaction id db)
| built_update_transaction id d ty category desc amount account db :
    built db ->
    built (update_transaction id d ty category desc amount account db)
| built_update_recurring id ty category desc amount next_date db :
    built db -> built (update_recurring id ty category desc amount next_date db)
| built_delete_recurring id db : built db -> built (delete_recurring id db)
| built_restart db : built db -> built (init_db_on db).

(** ** Months by position *)

(** The first day of the month at a position of the calendar. *)
Definition month_of_index (k : Z) : date := mkDate (k / 12) (k mod 12 + 1) 1.

(** * Properties *)

(** ** Calendar utilities *)

Example add_months_clamps_to_leap_february :
  add_months (mkDate 2024 1 31) 1 = Returns (mkDate 2024 2 29).
Proof. reflexivity. Qed.

Example add_months_clamps_to_february :
  add_months (mkDate 2023 1 31) 1 = Returns (mkDate 2023 2 28).
Proof. reflexivity. Qed.

Example add_months_backwards_over_new_year :
  add_months (mkDate 2024 1 31) (-2) = Returns (mkDate 2023 11 30).
Proof. reflexivity. Qed.

Example add_months_before_year_1 : add_months (mkDate 1 1 1) (-1) = Raises.
Proof. reflexivity. Qed.

Example month_key_pads_month : month_key (mkDate 2024 3 9) = "2024-03".
Proof. vm_compute. reflexivity. Qed.

Lemma is_leap_spec y : is_leap y = true <-> leap_year y.
Proof.
  unfold is_leap, leap_year.
  rewrite andb_true_iff, orb_true_iff, negb_true_iff, !Z.eqb_eq, Z.eqb_neq.
  rewrite <- !Z.mod_divide by lia.
  split.
  - intros [H4 [H | H]]; [left | right]; auto.
  - intros [[H4 H100] | H400]; [auto |].
    split; [| auto].
    apply Z.mod_divide in H400; [| lia]. destruct H400 as [k ->].
    replace (k * 400) with (k * 100 * 4) by lia. apply Z.mod_mul. lia.
Qed.

Lemma days_in_month_length y m :
  1 <= m <= 12 -> days_in_month y m = month_length y m.
Proof.
  intros Hm. unfold days_in_month, month_length.
  destruct (is_leap y) eqn:Hleap.
  - apply is_leap_spec in Hleap.
    month_cases m; simpl; repeat case_decide; try lia; try reflexivity; tauto.
  - assert (~ leap_year y) by (rewrite <- is_leap_spec; congruence).
    month_cases m; simpl; repeat case_decide; try lia; try reflexivity; tauto.
Qed.

(** The list literal indexed by [add_months] holds the month lengths. *)
Lemma add_months_table y m :
  1 <= m <= 12 ->
  nth (Z.to_nat (m - 1))
    [31; if (y mod 4 =? 0) && (negb (y mod 100 =? 0) || (y mod 400 =? 0))
         then 29 else 28;
     31; 30; 31; 30; 31; 31; 30; 31; 30; 31] 0
  = days_in_month y m.
Proof.
  intros Hm. unfold days_in_month, is_leap.
  month_cases m; reflexivity.
Qed.

Lemma days_in_month_pos y m : 1 <= m <= 12 -> 28 <= days_in_month y m <= 31.
Proof.
  intros Hm. unfold days_in_month.
  month_cases m; simpl; try lia.
  destruct (is_leap y); simpl; lia.
Qed.

Lemma new_date_valid y m d :
  valid_date (mkDate y m d) -> new_date y m d = Returns (mkDate y m d).
Proof.
  unfold valid_date, new_date; simpl. intros (Hy & Hm & Hd).
  destruct Hy, Hm, Hd.
  repeat (rewrite (proj2 (Z.leb_le _ _)) by assumption). reflexivity.
Qed.

Lemma new_date_returns y m d x :
  new_date y m d = Returns x -> x = mkDate y m d /\ valid_date x.
Proof.
  unfold new_date. destruct (_ && _) eqn:E; [| discriminate].
  intros [= <-]. split; [reflexivity |].
  rewrite !andb_true_iff, !Z.leb_le in E. unfold valid_date; simpl. lia.
Qed.

Lemma new_date_year_range y m d :
  ~ (MINYEAR <= y <= MAXYEAR) -> new_date y m d = Raises.
Proof.
  intros H. unfold new_date.
  destruct (_ && _) eqn:E; [| reflexivity].
  rewrite !andb_true_iff, !Z.leb_le in E. lia.
Qed.

(** [add_months] unfolded: the target year and month, and the clamped day. *)
Lemma add_months_eq d n :
  valid_date d ->
  let y := (month_index d + n) / 12 in
  let m := (month_index d + n) mod 12 + 1 in
  add_months d n = new_date y m (Z.min (day d) (days_in_month y m)).
Proof.
  intros Hd y m. unfold add_months.
  assert (Hy : year d + (month d - 1 + n) / 12 = y).
  { unfold y, month_index.
    replace (12 * year d + (month d - 1) + n)
      with (month d - 1 + n + year d * 12) by lia.
    rewrite Z.div_add by lia. lia. }
  assert (Hm : (month d - 1 + n) mod 12 + 1 = m).
  { unfold m, month_index.
    replace (12 * year d + (month d - 1) + n)
      with (month d - 1 + n + year d * 12) by lia.
    rewrite Z.mod_add by lia. reflexivity. }
  rewrite Hy, Hm.
  rewrite add_months_table; [reflexivity |].
  unfold m. pose proof (Z.mod_pos_bound (month_index d + n) 12). lia.
Qed.

Lemma add_months_returns d n :
  valid_date d ->
  MINYEAR <= (month_index d + n) / 12 <= MAXYEAR ->
  let y := (month_index d + n) / 12 in
  let m := (month_index d + n) mod 12 + 1 in
  add_months d n = Returns (mkDate y m (Z.min (day d) (days_in_month y m))).
Proof.
  intros Hd Hy y m. rewrite add_months_eq by assumption.
  apply new_date_valid. unfold valid_date; simpl. fold y m.
  assert (1 <= m <= 12).
  { unfold m. pose proof (Z.mod_pos_bound (month_index d + n) 12). lia. }
  pose proof (days_in_month_pos y m). destruct Hd as (_ & _ & Hday).
  repeat split; try lia.
Qed.

Lemma add_months_inv d n d' :
  valid_date d -> add_months d n = Returns d' ->
  valid_date d' /\ month_index d' = month_index d + n
  /\ day d' = Z.min (day d) (days_in_month (year d') (month d')).
Proof.
  intros Hd H. rewrite add_months_eq in H by assumption.
  apply new_date_returns in H as [-> Hv]. split; [assumption |].
  unfold month_index at 1; simpl. split; [| reflexivity].
  pose proof (Z.div_mod (month_index d + n) 12). lia.
Qed.

(** C5 (amended).  For every date [d] and every integer [n], negative ones
    included, whose target month lies in the years 1..9999, [add_months d n]
    returns the date [n] months after [d]: a valid date in the month at
    distance [n] from [d]'s, with [d]'s day of month when that month is long
    enough and the last day of that month otherwise, February counting 29
    days exactly in leap years.  When the target year is outside 1..9999 the
    call raises. *)
Theorem add_months_correct (d : date) (n : Z) :
  valid_date d ->
  (MINYEAR <= (month_index d + n) / 12 <= MAXYEAR ->
   exists d',
     add_months d n = Returns d' /\ valid_date d'
     /\ month_index d' = month_index d + n
     /\ day d' = (if decide (day d <= month_length (year d') (month d'))
                  then day d
                  else month_length (year d') (month d')))
  /\ (~ (MINYEAR <= (month_index d + n) / 12 <= MAXYEAR) ->
      add_months d n = Raises).
Proof.
  intros Hd. split.
  - intros Hy. pose proof (add_months_returns d n Hd Hy) as Hret.
    cbv zeta in Hret. eexists. split; [exact Hret |].
    destruct (add_months_inv _ _ _ Hd Hret) as (Hv & Hidx & Hday).
    split; [assumption |]. split; [assumption |].
    rewrite Hday. destruct Hv as (_ & Hm & _).
    rewrite days_in_month_length by assumption.
    case_decide; lia.
  - intros Hy. rewrite add_months_eq by assumption.
    apply new_date_year_range. assumption.
Qed.

Lemma add_months_correct_witness :
  exists d',
    add_months (mkDate 2023 1 31) (-11) = Returns d' /\ valid_date d'
    /\ month_index d' = month_index (mkDate 2023 1 31) + -11
    /\ day d' = (if decide (31 <= month_length (year d') (month d'))
                 then 31
                 else month_length (year d') (month d')).
Proof.
  apply (add_months_correct (mkDate 2023 1 31) (-11)).
  - valid_date_tac.
  - vm_compute. split; congruence.
Defined.

(** C5 as stated fails: the month after December 9999 is not a date. *)
Lemma add_months_december_9999 :
  valid_date (mkDate 9999 12 15)
  /\ ~ exists d', add_months (mkDate 9999 12 15) 1 = Returns d'.
Proof.
  split; [valid_date_tac |].
  intros [d' H]. vm_compute in H. discriminate.
Qed.

(** C6.  Adding [n] months and then [-n] months gives the date back whenever
    the first call kept the day of month (the second one then keeps it too);
    when a call clamps the day the round trip can fail. *)
Theorem add_months_round_trip :
  (forall (d d1 : date) (n : Z),
      valid_date d ->
      add_months d n = Returns d1 ->
      day d1 = day d ->
      add_months d1 (- n) = Returns d)
  /\ (exists (d d1 d2 : date) (n : Z),
         valid_date d /\ add_months d n = Returns d1
         /\ add_months d1 (- n) = Returns d2
         /\ day d1 <> day d /\ d2 <> d).
Proof.
  split.
  - intros d d1 n Hd H1 Hday.
    destruct (add_months_inv _ _ _ Hd H1) as (Hv1 & Hidx & _).
    assert (Hback : month_index d1 + - n = month_index d) by lia.
    assert (Hy : (month_index d1 + - n) / 12 = year d).
    { rewrite Hback. unfold month_index. destruct Hd as (_ & Hm & _).
      replace (12 * year d + (month d - 1)) with (month d - 1 + year d * 12)
        by lia.
      rewrite Z.div_add by lia. rewrite Z.div_small by lia. lia. }
    assert (Hm : (month_index d1 + - n) mod 12 + 1 = month d).
    { rewrite Hback. unfold month_index. destruct Hd as (_ & Hm & _).
      replace (12 * year d + (month d - 1)) with (month d - 1 + year d * 12)
        by lia.
      rewrite Z.mod_add by lia. rewrite Z.mod_small by lia. lia. }
    rewrite add_months_eq by assumption. cbv zeta. rewrite Hy, Hm, Hday.
    destruct Hd as (Hyr & Hmo & Hdy).
    rewrite Z.min_l by lia.
    rewrite new_date_valid; [destruct d; reflexivity |].
    unfold valid_date; simpl. lia.
  - exists (mkDate 2024 1 31), (mkDate 2024 2 29), (mkDate 2024 1 29), 1.
    split; [valid_date_tac |].
    repeat split; try reflexivity; intros H; discriminate H.
Qed.

Lemma add_months_round_trip_witness :
  add_months (mkDate 2024 3 15) (- (-14)) = Returns (mkDate 2025 5 15).
Proof.
  apply (proj1 add_months_round_trip (mkDate 2025 5 15) (mkDate 2024 3 15) (-14)).
  - valid_date_tac.
  - reflexivity.
  - reflexivity.
Defined.

(** ** [month_key] *)

Lemma pretty_N_char_digit x : is_digit (pretty_N_char x) = true.
Proof. unfold pretty_N_char. repeat case_match; reflexivity. Qed.

Lemma digit_of_pretty_N_char x : (x < 10)%N -> digit_of (pretty_N_char x) = x.
Proof.
  intros Hx.
  assert (H : (x = 0 \/ x = 1 \/ x = 2 \/ x = 3 \/ x = 4 \/ x = 5 \/ x = 6
               \/ x = 7 \/ x = 8 \/ x = 9)%N) by lia.
  repeat (destruct H as [H | H]); subst x; reflexivity.
Qed.

Lemma all_digits_app s1 s2 :
  all_digits (s1 +:+ s2) = all_digits s1 && all_digits s2.
Proof.
  induction s1 as [| c s1 IH]; simpl; [reflexivity |].
  rewrite IH, andb_assoc. reflexivity.
Qed.

Lemma all_digits_zeros k : all_digits (zeros k) = true.
Proof. induction k; simpl; auto. Qed.

Lemma all_digits_pretty_N_go x s :
  all_digits s = true -> all_digits (pretty_N_go x s) = true.
Proof.
  revert s. induction (N.lt_wf_0 x) as [x _ IH]. intros s Hs.
  destruct (decide (x = 0)%N) as [-> | Hx]; [assumption |].
  rewrite pretty_N_go_step by lia.
  apply IH; [apply N.div_lt; lia |].
  simpl. rewrite pretty_N_char_digit. assumption.
Qed.

Lemma all_digits_pretty_N (x : N) : all_digits (pretty x) = true.
Proof.
  unfold pretty, pretty_N. case_decide; [reflexivity |].
  apply all_digits_pretty_N_go. reflexivity.
Qed.

Lemma decimal_value_pretty_N_go x s :
  decimal_value 0 (pretty_N_go x s) = decimal_value x s.
Proof.
  revert s. induction (N.lt_wf_0 x) as [x _ IH]. intros s.
  destruct (decide (x = 0)%N) as [-> | Hx]; [reflexivity |].
  rewrite pretty_N_go_step by lia.
  rewrite IH by (apply N.div_lt; lia). simpl.
  rewrite digit_of_pretty_N_char by (apply N.mod_lt; lia).
  f_equal. pose proof (N.div_mod x 10). lia.
Qed.

Lemma decimal_value_pretty_N (x : N) : decimal_value 0 (pretty x) = x.
Proof.
  unfold pretty, pretty_N. case_decide; [subst; reflexivity |].
  apply decimal_value_pretty_N_go.
Qed.

Lemma decimal_value_zeros k s :
  decimal_value 0 (zeros k +:+ s) = decimal_value 0 s.
Proof. induction k; simpl; auto. Qed.

(** On a number that is not negative, [format_0d] writes digits only, and
    they read back as the number. *)
Lemma format_0d_digits width n : 0 <= n -> all_digits (format_0d width n) = true.
Proof.
  intros Hn. unfold format_0d.
  destruct (Z.ltb_spec n 0); [lia |].
  rewrite !all_digits_app, all_digits_zeros, all_digits_pretty_N. reflexivity.
Qed.

Lemma format_0d_value width n :
  0 <= n -> decimal_value 0 (format_0d width n) = Z.to_N n.
Proof.
  intros Hn. unfold format_0d.
  destruct (Z.ltb_spec n 0); [lia |].
  change ("" +:+ ?s) with s.
  rewrite decimal_value_zeros, decimal_value_pretty_N. lia.
Qed.

Lemma format_0d_inj w1 w2 n1 n2 :
  0 <= n1 -> 0 <= n2 -> format_0d w1 n1 = format_0d w2 n2 -> n1 = n2.
Proof.
  intros H1 H2 E. apply (f_equal (decimal_value 0)) in E.
  rewrite !format_0d_value in E by assumption. lia.
Qed.

(** Two numerals followed by a dash agree when the whole strings do. *)
Lemma split_at_dash a1 a2 b1 b2 :
  all_digits a1 = true -> all_digits a2 = true ->
  a1 +:+ String "-" b1 = a2 +:+ String "-" b2 -> a1 = a2 /\ b1 = b2.
Proof.
  revert a2. induction a1 as [| c a1 IH]; intros [| c2 a2] H1 H2 E; simpl in *.
  - injection E as ->. auto.
  - injection E as <- _. discriminate H2.
  - injection E as -> _. discriminate H1.
  - injection E as -> E.
    apply andb_true_iff in H1 as [_ H1]. apply andb_true_iff in H2 as [_ H2].
    destruct (IH a2 H1 H2 E) as [-> ->]. auto.
Qed.

(** C7.  Two dates have the same month key exactly when they lie in the same
    calendar month (same year and same month): the key is the same for all
    days of a month and differs between any two months. *)
Theorem month_key_same_month (d1 d2 : date) :
  valid_date d1 -> valid_date d2 ->
  (year d1 = year d2 /\ month d1 = month d2 -> month_key d1 = month_key d2)
  /\ (~ (year d1 = year d2 /\ month d1 = month d2) ->
      month_key d1 <> month_key d2).
Proof.
  intros (Hy1 & Hm1 & _) (Hy2 & Hm2 & _). unfold MINYEAR in *. split.
  - intros [Hy Hm]. unfold month_key. rewrite Hy, Hm. reflexivity.
  - intros Hne E. apply Hne. unfold month_key in E.
    apply split_at_dash in E as [Ey Em];
      [| apply format_0d_digits; lia | apply format_0d_digits; lia].
    split; eapply format_0d_inj; try eassumption; lia.
Qed.

Lemma month_key_same_month_witness :
  month_key (mkDate 2024 3 1) = month_key (mkDate 2024 3 31)
  /\ month_key (mkDate 2024 3 31) <> month_key (mkDate 2024 4 1).
Proof.
  split.
  - apply (month_key_same_month (mkDate 2024 3 1) (mkDate 2024 3 31));
      [valid_date_tac | valid_date_tac | split; reflexivity].
  - apply (month_key_same_month (mkDate 2024 3 31) (mkDate 2024 4 1));
      [valid_date_tac | valid_date_tac |].
    simpl. intros [_ H]. discriminate H.
Defined.

(** ** Categories and budgets *)

(** C9.  [delete_category c] takes the label [c], and nothing else, out of
    the category set; the transactions table, with every row whose category
    text is [c], and the other tables are exactly as before. *)
Theorem delete_category_keeps_transactions (c : string) (db : database) :
  transactions (delete_category c db) = transactions db
  /\ (c ∉ categories (delete_category c db))
  /\ (forall x : string,
         x <> c ->
         ((x ∈ categories (delete_category c db)) <-> (x ∈ categories db)))
  /\ transactions_seq (delete_category c db) = transactions_seq db
  /\ budgets (delete_category c db) = budgets db
  /\ recurring (delete_category c db) = recurring db.
Proof.
  unfold delete_category; simpl.
  split; [reflexivity |]. split.
  { rewrite elem_of_difference, elem_of_singleton. tauto. }
  split; [| auto].
  intros x Hx. rewrite elem_of_difference, elem_of_singleton. tauto.
Qed.

Lemma same_budget_key_eq month category b :
  same_budget_key month category b = true
  <-> b_month b = month /\ b_category b = category.
Proof.
  unfold same_budget_key. rewrite andb_true_iff, !String.eqb_eq. reflexivity.
Qed.

Lemma budget_rows_app month category l1 l2 :
  budget_rows month category (l1 ++ l2)
  = budget_rows month category l1 ++ budget_rows month category l2.
Proof. apply List.filter_app. Qed.

Lemma budget_rows_none month category l :
  existsb (same_budget_key month category) l = false ->
  budget_rows month category l = [].
Proof.
  induction l as [| b l IH]; simpl; [reflexivity |].
  intros H. apply orb_false_iff in H as [Hb Hl].
  rewrite Hb. auto.
Qed.

Lemma budget_rows_some month category l :
  existsb (same_budget_key month category) l = true ->
  budget_rows month category l <> [].
Proof.
  induction l as [| b l IH]; simpl; [discriminate |].
  destruct (same_budget_key month category b); [discriminate | auto].
Qed.

Lemma same_budget_key_overwrite m c m' c' a b :
  same_budget_key m' c' (overwrite m c a b) = same_budget_key m' c' b.
Proof. unfold overwrite. destruct (same_budget_key m c b); reflexivity. Qed.

Lemma budget_rows_overwrite m c m' c' a l :
  budget_rows m' c' (overwrite m c a <$> l)
  = overwrite m c a <$> budget_rows m' c' l.
Proof.
  unfold budget_rows.
  induction l as [| b l IH]; [reflexivity |].
  rewrite fmap_cons. cbn [List.filter].
  rewrite same_budget_key_overwrite.
  destruct (same_budget_key m' c' b); rewrite IH; reflexivity.
Qed.

Lemma set_budget_budgets m c a db :
  budgets (set_budget m c a db)
  = if existsb (same_budget_key m c) (budgets db)
    then overwrite m c a <$> budgets db
    else budgets db
         ++ [mkBudget (next_rowid (budgets_seq db) (b_id <$> budgets db)) m c a].
Proof.
  unfold set_budget. destruct (existsb _ _); reflexivity.
Qed.

Lemma set_budget_unique m c a db :
  budgets_unique (budgets db) -> budgets_unique (budgets (set_budget m c a db)).
Proof.
  intros Hu m' c'. rewrite set_budget_budgets.
  destruct (existsb _ _) eqn:E.
  - rewrite budget_rows_overwrite, length_fmap. apply Hu.
  - rewrite budget_rows_app. rewrite length_app. simpl.
    destruct (same_budget_key m' c' _) eqn:K; simpl.
    + apply same_budget_key_eq in K as [<- <-]; simpl.
      rewrite (budget_rows_none _ _ _ E). simpl. lia.
    + specialize (Hu m' c'). lia.
Qed.

Lemma set_budget_present m c a db :
  existsb (same_budget_key m c) (budgets (set_budget m c a db)) = true.
Proof.
  rewrite set_budget_budgets.
  destruct (existsb (same_budget_key m c) (budgets db)) eqn:E.
  - apply existsb_exists in E as (b & Hin & Hb).
    apply existsb_exists. exists (overwrite m c a b). split.
    + apply in_map_iff. eauto.
    + rewrite same_budget_key_overwrite. assumption.
  - rewrite existsb_app. simpl.
    unfold same_budget_key at 2; simpl. rewrite !String.eqb_refl.
    simpl. apply orb_true_r.
Qed.

(** C10.  Starting from a budgets table that meets its UNIQUE constraint
    (the empty table of a fresh file does), after any sequence of
    [set_budget] calls there is at most one row per (month, category) pair;
    and two calls for the same pair, with amounts [a1] then [a2], leave
    exactly one row for it, which holds [a2]. *)
Theorem set_budget_one_row_per_key (db : database) :
  budgets_unique (budgets db) ->
  (forall calls : list (string * string * Q),
      budgets_unique (budgets (set_budgets calls db)))
  /\ (forall (month category : string) (a1 a2 : Q),
         exists b : budget,
           budget_rows month category
             (budgets (set_budget month category a2
                         (set_budget month category a1 db))) = [b]
           /\ b_month b = month /\ b_category b = category
           /\ b_amount b = a2).
Proof.
  intros Hu. split.
  - intros calls. revert db Hu. unfold set_budgets.
    induction calls as [| call calls IH]; intros db Hu; simpl; [assumption |].
    apply IH, set_budget_unique, Hu.
  - intros m c a1 a2.
    set (db1 := set_budget m c a1 db).
    assert (Hu1 : budgets_unique (budgets db1))
      by (apply set_budget_unique, Hu).
    rewrite set_budget_budgets. unfold db1 at 1.
    rewrite set_budget_present. rewrite budget_rows_overwrite.
    pose proof (budget_rows_some m c _ (set_budget_present m c a1 db)) as Hne.
    fold db1 in Hne. specialize (Hu1 m c).
    destruct (budget_rows m c (budgets db1)) as [| b [| b' l]] eqn:E;
      [contradiction | | simpl in Hu1; lia].
    assert (Hb : same_budget_key m c b = true).
    { assert (Hin : In b (budget_rows m c (budgets db1)))
        by (rewrite E; left; reflexivity).
      apply List.filter_In in Hin. tauto. }
    exists (overwrite m c a2 b). split; [reflexivity |].
    unfold overwrite. rewrite Hb. simpl.
    apply same_budget_key_eq in Hb. tauto.
Qed.

Lemma set_budget_one_row_per_key_witness :
  exists b : budget,
    budget_rows "2024-03" "Food"
      (budgets (set_budget "2024-03" "Food" 1200
                  (set_budget "2024-03" "Food" 1000 init_db))) = [b]
    /\ b_month b = "2024-03" /\ b_category b = "Food" /\ b_amount b = 1200%Q.
Proof.
  apply (set_budget_one_row_per_key init_db).
  intros month category. simpl. lia.
Defined.

(** ** Recurring poster *)

(** *** Order on dates *)

Lemma date_leb_spec d1 d2 :
  date_leb d1 d2 = true
  <-> year d1 < year d2
      \/ (year d1 = year d2
          /\ (month d1 < month d2 \/ (month d1 = month d2 /\ day d1 <= day d2))).
Proof.
  unfold date_leb.
  rewrite !orb_true_iff, !andb_true_iff, !orb_true_iff, !andb_true_iff.
  rewrite !Z.ltb_lt, !Z.eqb_eq, Z.leb_le. reflexivity.
Qed.

Lemma date_leb_false d1 d2 :
  date_leb d1 d2 = false
  <-> year d2 < year d1
      \/ (year d1 = year d2
          /\ (month d2 < month d1 \/ (month d1 = month d2 /\ day d2 < day d1))).
Proof.
  rewrite <- not_true_iff_false, date_leb_spec. lia.
Qed.

Lemma date_eqb_eq d1 d2 : date_eqb d1 d2 = true <-> d1 = d2.
Proof.
  unfold date_eqb. rewrite !andb_true_iff, !Z.eqb_eq.
  destruct d1, d2; simpl. split; [intros [[-> ->] ->]; reflexivity |].
  intros [= -> -> ->]. auto.
Qed.

Lemma date_eqb_refl d : date_eqb d d = true.
Proof. apply date_eqb_eq. reflexivity. Qed.

(** A date in an earlier month is an earlier date, and a date that is not
    later lies in a month that is not later. *)
Lemma month_index_lt_date_lt d1 d2 :
  valid_date d1 -> valid_date d2 ->
  month_index d1 < month_index d2 -> date_lt d1 d2.
Proof.
  intros (_ & H1 & _) (_ & H2 & _) H. unfold date_lt, month_index in *.
  apply date_leb_false. lia.
Qed.

Lemma date_le_month_index d1 d2 :
  valid_date d1 -> valid_date d2 ->
  date_le d1 d2 -> month_index d1 <= month_index d2.
Proof.
  intros (_ & H1 & _) (_ & H2 & _) H. unfold date_le, month_index in *.
  apply date_leb_spec in H. lia.
Qed.

(** *** The schedule of one rule *)

Lemma while_due_trace fuel now r d db made :
  while_due fuel now r d db made
  = '(ds, e) ← due_dates fuel now (monthly r) d;
    Returns (post_all r ds db, made + Z.of_nat (length ds), e).
Proof.
  revert d db made. induction fuel as [| fuel IH]; intros d db made; simpl.
  - destruct (date_leb d now); simpl; [reflexivity |].
    rewrite Z.add_0_r. reflexivity.
  - destruct (date_leb d now); simpl; [| rewrite Z.add_0_r; reflexivity].
    fold (monthly r). destruct (monthly r); simpl; [| reflexivity].
    destruct (add_months d 1) as [d' | |]; simpl; try reflexivity.
    rewrite IH. fold (post r db d).
    destruct (due_dates fuel now true d') as [[ds e] | |]; simpl;
      try reflexivity.
    do 3 f_equal. lia.
Qed.

Lemma for_row_schedule fuel now r db made :
  for_row fuel now r (db, made)
  = s ← schedule fuel now r;
    Returns (settle r s db, made + Z.of_nat (length s.1)).
Proof.
  unfold for_row, schedule, settle, to_date. simpl. rewrite while_due_trace.
  destruct (due_dates fuel now (monthly r) (r_next_date r)) as [[ds e] | |];
    simpl; try reflexivity.
  destruct (negb (date_eqb e (r_next_date r))); reflexivity.
Qed.

Lemma posted_cons s p : posted (s :: p) = Z.of_nat (length s.1) + posted p.
Proof.
  unfold posted. rewrite fmap_cons. cbn [concat]. rewrite length_app. lia.
Qed.

Lemma for_rows_plan fuel now rows db made :
  for_rows fuel now rows (db, made)
  = p ← plan fuel now rows; Returns (replay rows p db, made + posted p).
Proof.
  revert db made. induction rows as [| r rows IH]; intros db made; simpl.
  - unfold posted; simpl. rewrite Z.add_0_r. reflexivity.
  - rewrite for_row_schedule.
    destruct (schedule fuel now r) as [s | |]; simpl; try reflexivity.
    rewrite IH.
    destruct (plan fuel now rows) as [p | |]; simpl; try reflexivity.
    rewrite posted_cons. do 2 f_equal. lia.
Qed.

Lemma apply_recurring_plan fuel now db :
  apply_recurring fuel now db
  = p ← plan fuel now (recurring db);
    Returns (replay (recurring db) p db, posted p).
Proof. unfold apply_recurring. rewrite for_rows_plan. reflexivity. Qed.

Lemma plan_length fuel now rows p :
  plan fuel now rows = Returns p -> length p = length rows.
Proof.
  revert p. induction rows as [| r rows IH]; intros p; simpl.
  - intros [= <-]. reflexivity.
  - destruct (schedule fuel now r) as [s | |]; simpl; try discriminate.
    destruct (plan fuel now rows) as [p' | |]; simpl; try discriminate.
    intros [= <-]. simpl. f_equal. apply IH. reflexivity.
Qed.

Lemma plan_lookup fuel now rows p i r :
  plan fuel now rows = Returns p -> rows !! i = Some r ->
  exists s, p !! i = Some s /\ schedule fuel now r = Returns s.
Proof.
  revert p i. induction rows as [| r0 rows IH]; intros p i; simpl.
  - intros _ H. discriminate H.
  - destruct (schedule fuel now r0) as [s0 | |] eqn:E0; simpl; try discriminate.
    destruct (plan fuel now rows) as [p' | |]; simpl; try discriminate.
    intros [= <-]. destruct i as [| i]; simpl.
    + intros [= <-]. eauto.
    + intros H. apply (IH p' i); [reflexivity | assumption].
Qed.

Lemma plan_returns fuel now rows :
  (forall r, In r rows -> exists s, schedule fuel now r = Returns s) ->
  exists p, plan fuel now rows = Returns p.
Proof.
  induction rows as [| r rows IH]; intros H; simpl; [eauto |].
  destruct (H r) as [s ->]; [left; reflexivity |]. simpl.
  destruct IH as [p ->]; [intros; apply H; right; assumption |].
  simpl. eauto.
Qed.

(** *** The rows a pass adds to the transactions table *)

Lemma post_all_transactions r ds db :
  exists block,
    transactions (post_all r ds db) = transactions db ++ block
    /\ columns <$> block = posting r <$> ds.
Proof.
  revert db. induction ds as [| d ds IH]; intros db; simpl.
  - exists []. rewrite app_nil_r. auto.
  - destruct (IH (post r db d)) as (block & Ht & Hc).
    eexists (_ :: block). split.
    + rewrite Ht. unfold post, insert_transaction. cbn [transactions].
      rewrite <- app_assoc. reflexivity.
    + rewrite !fmap_cons, Hc. reflexivity.
Qed.

Lemma post_all_recurring r ds db :
  recurring (post_all r ds db) = recurring db.
Proof.
  revert db. induction ds as [| d ds IH]; intros db; simpl; [reflexivity |].
  rewrite IH. reflexivity.
Qed.

Lemma settle_transactions r s db :
  transactions (settle r s db) = transactions (post_all r s.1 db).
Proof. unfold settle. destruct (negb _); reflexivity. Qed.

Lemma replay_transactions rows p db :
  exists blocks,
    transactions (replay rows p db) = transactions db ++ concat blocks
    /\ Forall2 (fun rs block => columns <$> block = posting rs.1 <$> rs.2.1)
         (zip rows p) blocks.
Proof.
  revert p db. induction rows as [| r rows IH]; intros p db.
  - exists []. simpl. rewrite app_nil_r. split; [reflexivity | constructor].
  - destruct p as [| s p].
    + exists []. simpl. rewrite app_nil_r. split; [reflexivity | constructor].
    + simpl. destruct (IH p (settle r s db)) as (blocks & Ht & Hb).
      destruct (post_all_transactions r s.1 db) as (block & Hpost & Hc).
      exists (block :: blocks). split.
      * rewrite Ht, settle_transactions, Hpost. simpl.
        rewrite <- app_assoc. reflexivity.
      * constructor; assumption.
Qed.

(** *** The recurring table after a pass *)

Lemma move_other id e rows : id ∉ r_id <$> rows -> move id e rows = rows.
Proof.
  induction rows as [| r rows IH]; intros H; [reflexivity |].
  unfold move in *. rewrite fmap_cons in *.
  apply not_elem_of_cons in H as [Hr Hrows].
  destruct (Z.eqb_spec (r_id r) id); [congruence |].
  rewrite IH by assumption. reflexivity.
Qed.

Lemma set_next_date_same r : set_next_date (r_next_date r) r = r.
Proof. destruct r; reflexivity. Qed.

Lemma move_unique pre r rest e :
  unique_ids (pre ++ r :: rest) ->
  move (r_id r) e (pre ++ r :: rest) = pre ++ set_next_date e r :: rest.
Proof.
  unfold unique_ids. rewrite fmap_app, fmap_cons.
  intros H. apply NoDup_app in H as (_ & Hpre & Hr).
  apply NoDup_cons in Hr as [Hrest _].
  unfold move. rewrite fmap_app, fmap_cons.
  fold (move (r_id r) e pre) (move (r_id r) e rest).
  rewrite Z.eqb_refl, !move_other; [reflexivity | assumption |].
  intros Hin. apply (Hpre _ Hin). left.
Qed.

Lemma settle_recurring pre r rest s db :
  recurring db = pre ++ r :: rest ->
  unique_ids (pre ++ r :: rest) ->
  recurring (settle r s db) = pre ++ set_next_date s.2 r :: rest.
Proof.
  intros Hdb Hu. unfold settle.
  destruct (date_eqb s.2 (r_next_date r)) eqn:E; simpl.
  - apply date_eqb_eq in E. rewrite E, set_next_date_same.
    rewrite post_all_recurring. assumption.
  - rewrite post_all_recurring, Hdb. apply (move_unique pre r rest s.2 Hu).
Qed.

Lemma replay_recurring rows p pre db :
  length p = length rows ->
  recurring db = pre ++ rows ->
  unique_ids (pre ++ rows) ->
  recurring (replay rows p db) = pre ++ zip_with advance rows p.
Proof.
  revert p pre db. induction rows as [| r rows IH]; intros p pre db Hlen Hdb Hu.
  - destruct p; simpl; assumption.
  - destruct p as [| s p]; [discriminate Hlen |]. simpl.
    pose proof (settle_recurring pre r rows s db Hdb Hu) as Hs.
    replace (pre ++ advance r s :: zip_with advance rows p)
      with ((pre ++ [advance r s]) ++ zip_with advance rows p)
      by (rewrite <- app_assoc; reflexivity).
    apply IH.
    + simpl in Hlen. lia.
    + rewrite Hs, <- app_assoc. reflexivity.
    + unfold unique_ids in *. rewrite <- app_assoc. simpl.
      rewrite fmap_app, fmap_cons in *. exact Hu.
Qed.

(** *** The occurrences of a monthly rule *)

Lemma occurrence_shift d k :
  occurrence d (S k) = d' ← add_months d 1; occurrence d' k.
Proof.
  induction k as [| k IH].
  - simpl. destruct (add_months d 1); reflexivity.
  - change (occurrence d (S (S k)))
      with (d' ← occurrence d (S k); add_months d' 1).
    rewrite IH. destruct (add_months d 1) as [d' | |]; reflexivity.
Qed.

Lemma occurrence_month_index d k dk :
  valid_date d -> occurrence d k = Returns dk ->
  valid_date dk /\ month_index dk = month_index d + Z.of_nat k.
Proof.
  intros Hd. revert dk. induction k as [| k IH]; intros dk; simpl.
  - intros [= <-]. split; [assumption | lia].
  - destruct (occurrence d k) as [d' | |]; simpl; try discriminate.
    destruct (IH d' eq_refl) as [Hv Hi]. intros H.
    destruct (add_months_inv _ _ _ Hv H) as (Hv' & Hi' & _).
    split; [assumption | lia].
Qed.

Lemma due_dates_not_due fuel now is_monthly d :
  date_leb d now = false -> due_dates fuel now is_monthly d = Returns ([], d).
Proof. intros H. destruct fuel; simpl; rewrite H; reflexivity. Qed.


Lemma add_months_next d :
  valid_date d -> month_index d < last_month ->
  exists d', add_months d 1 = Returns d'.
Proof.
  intros Hd Hlast. eexists. apply add_months_returns; [assumption |].
  destruct Hd as (Hy & Hm & _).
  unfold last_month, MINYEAR, MAXYEAR in *.
  pose proof (Z.div_mod (month_index d + 1) 12).
  pose proof (Z.mod_pos_bound (month_index d + 1) 12).
  unfold month_index in *. lia.
Qed.

(** Before December 9999 the loop of a monthly rule returns, given one unit
    of fuel per month from the rule's date to [now]. *)
Lemma due_dates_monthly_returns fuel now d :
  valid_date d -> valid_date now -> month_index now < last_month ->
  month_index now - month_index d + 1 <= Z.of_nat fuel ->
  exists s, due_dates fuel now true d = Returns s.
Proof.
  intros Hd Hnow Hlast. revert d Hd.
  induction fuel as [| fuel IH]; intros d Hd Hfuel.
  - simpl. destruct (date_leb d now) eqn:E; [| eauto].
    apply (date_le_month_index d now Hd Hnow) in E. lia.
  - simpl. destruct (date_leb d now) eqn:E; [| eauto].
    apply (date_le_month_index d now Hd Hnow) in E.
    destruct (add_months_next d Hd) as [d' Hd']; [lia |].
    rewrite Hd'. simpl.
    destruct (add_months_inv _ _ _ Hd Hd') as (Hv' & Hi' & _).
    destruct (IH d' Hv') as [[ds e] ->]; [lia |]. simpl. eauto.
Qed.

(** What the loop of a monthly rule returns: the posted dates are the first
    occurrences, all on or before [now], and the date it stops at is the
    next occurrence, after [now]. *)
Lemma due_dates_monthly_spec fuel now d ds e :
  due_dates fuel now true d = Returns (ds, e) ->
  (forall k dk, ds !! k = Some dk ->
                occurrence d k = Returns dk /\ date_le dk now)
  /\ occurrence d (length ds) = Returns e
  /\ date_lt now e.
Proof.
  revert d ds e. induction fuel as [| fuel IH]; intros d ds e; simpl.
  - destruct (date_leb d now) eqn:E; [discriminate |].
    intros [= <- <-]. split; [intros k dk H; discriminate H |]. auto.
  - destruct (date_leb d now) eqn:E.
    + destruct (add_months d 1) as [d' | |] eqn:Hd'; simpl; try discriminate.
      destruct (due_dates fuel now true d') as [[ds' e'] | |] eqn:Hs; simpl;
        try discriminate.
      intros [= <- <-]. destruct (IH _ _ _ Hs) as (Hds & He & Hlt).
      split; [| split; [| assumption]].
      * intros [| k] dk H; simpl in H.
        -- injection H as <-. auto.
        -- destruct (Hds k dk H) as [Hocc Hle].
           split; [| assumption].
           rewrite occurrence_shift, Hd'. exact Hocc.
      * cbn [length]. rewrite occurrence_shift, Hd'. exact He.
    + intros [= <- <-]. split; [intros k dk H; discriminate H |]. auto.
Qed.

(** Every occurrence on or before [now] is among the posted ones. *)
Lemma due_dates_monthly_complete fuel now d ds e k dk :
  valid_date d -> valid_date now ->
  due_dates fuel now true d = Returns (ds, e) ->
  occurrence d k = Returns dk -> date_le dk now -> (k < length ds)%nat.
Proof.
  intros Hd Hnow Hs Hk Hle.
  destruct (due_dates_monthly_spec _ _ _ _ _ Hs) as (_ & He & Hlt).
  destruct (occurrence_month_index _ _ _ Hd Hk) as [Hvk Hik].
  destruct (occurrence_month_index _ _ _ Hd He) as [Hve Hie].
  destruct (Nat.lt_ge_cases k (length ds)) as [| Hge]; [assumption |].
  exfalso. destruct (Nat.eq_dec k (length ds)) as [-> | Hne].
  - rewrite He in Hk. injection Hk as ->.
    unfold date_lt, date_le in *. congruence.
  - assert (Hmi : month_index now < month_index dk).
    { unfold date_lt in Hlt. apply date_leb_false in Hlt.
      destruct Hnow as (_ & Hm1 & _), Hve as (_ & Hm2 & _).
      unfold month_index in *. lia. }
    apply (month_index_lt_date_lt now dk Hnow Hvk) in Hmi.
    unfold date_lt, date_le in *. congruence.
Qed.

(** *** One pass of [apply_recurring] *)

Lemma monthly_true r : monthly r = true <-> r_interval r = "monthly".
Proof. unfold monthly. apply String.eqb_eq. Qed.

Lemma blocks_posted rows p blocks :
  length p = length rows ->
  Forall2 (fun rs block => columns <$> block = posting rs.1 <$> rs.2.1)
    (zip rows p) blocks ->
  Z.of_nat (length (concat blocks)) = posted p /\ length blocks = length rows.
Proof.
  revert p blocks. induction rows as [| r rows IH]; intros p blocks Hlen H.
  - destruct p; [| discriminate Hlen]. inversion H; subst. auto.
  - destruct p as [| s p]; [discriminate Hlen |].
    simpl in H. inversion H as [| rs block zs blocks' Hb Hrest]; subst.
    destruct (IH p blocks') as [Hp Hl]; [simpl in Hlen; lia | assumption |].
    rewrite posted_cons, <- Hp. cbn [concat length].
    rewrite length_app. apply (f_equal length) in Hb.
    rewrite !length_fmap in Hb. simpl in Hb. lia.
Qed.

(** A pass that returns ran every row's loop to its end; it added the rows'
    postings to the transactions table, block by block in table order, and
    left each rule at the date its loop stopped at. *)
Lemma apply_recurring_returns fuel now db db' made :
  unique_ids (recurring db) ->
  apply_recurring fuel now db = Returns (db', made) ->
  exists p blocks,
    plan fuel now (recurring db) = Returns p
    /\ made = Z.of_nat (length (concat blocks))
    /\ length blocks = length (recurring db)
    /\ transactions db' = transactions db ++ concat blocks
    /\ Forall2 (fun rs block => columns <$> block = posting rs.1 <$> rs.2.1)
         (zip (recurring db) p) blocks
    /\ recurring db' = zip_with advance (recurring db) p.
Proof.
  intros Hu H. rewrite apply_recurring_plan in H.
  destruct (plan fuel now (recurring db)) as [p | |] eqn:Hp; simpl in H;
    try discriminate.
  injection H as <- <-.
  pose proof (plan_length _ _ _ _ Hp) as Hlen.
  destruct (replay_transactions (recurring db) p db) as (blocks & Ht & Hb).
  destruct (blocks_posted _ _ _ Hlen Hb) as [Hposted Hblocks].
  exists p, blocks. repeat split; auto.
  apply (replay_recurring (recurring db) p [] db); auto.
Qed.

Lemma schedule_returns fuel now r :
  valid_date (r_next_date r) -> valid_date now ->
  month_index now < last_month -> month_index now <= Z.of_nat fuel ->
  exists s, schedule fuel now r = Returns s.
Proof.
  intros Hd Hnow Hlast Hfuel. unfold schedule.
  destruct (monthly r).
  - apply due_dates_monthly_returns; try assumption.
    destruct Hd as (Hy & Hm & _). unfold month_index, MINYEAR in *. lia.
  - destruct fuel as [| fuel].
    + destruct Hnow as (Hy & Hm & _). unfold month_index, MINYEAR in *. lia.
    + simpl. destruct (date_leb (r_next_date r) now); eauto.
Qed.

(** The block of the rule at position [i], and the rule's row afterwards. *)
Lemma block_lookup (rows : list recurring_rule) (p : list (list date * date))
    (blocks : list (list transaction)) i r s :
  Forall2 (fun rs block => columns <$> block = posting rs.1 <$> rs.2.1)
    (zip rows p) blocks ->
  rows !! i = Some r -> p !! i = Some s ->
  exists block, blocks !! i = Some block
                /\ columns <$> block = posting r <$> s.1.
Proof.
  intros Hb Hr Hs.
  assert (Hz : zip rows p !! i = Some (r, s)).
  { rewrite lookup_zip_with, Hr, Hs. reflexivity. }
  destruct (Forall2_lookup_l _ _ _ _ _ Hb Hz) as (block & Hblock & Hc).
  eauto.
Qed.

Lemma advance_lookup (rows : list recurring_rule)
    (p : list (list date * date)) i r s :
  rows !! i = Some r -> p !! i = Some s ->
  zip_with advance rows p !! i = Some (set_next_date s.2 r).
Proof. intros Hr Hs. rewrite lookup_zip_with, Hr, Hs. reflexivity. Qed.

Lemma block_row r (ds : list date) (block : list transaction) k t :
  columns <$> block = posting r <$> ds -> block !! k = Some t ->
  exists d, ds !! k = Some d /\ columns t = posting r d.
Proof.
  intros Hc Ht.
  assert (H : (columns <$> block) !! k = Some (columns t))
    by (rewrite list_lookup_fmap, Ht; reflexivity).
  rewrite Hc, list_lookup_fmap in H.
  destruct (ds !! k) as [d |]; [| discriminate].
  simpl in H. exists d. split; [reflexivity | congruence].
Qed.

(** *** Catch-up, a second run, and other intervals *)

(** C1 (amended).  Let [now] be any date before December 9999, and run
    [apply_recurring now] on a store whose rules have distinct ids, with one
    unit of fuel per month up to [now].  The pass returns the number of rows
    it added to the transactions table; the rows come in one block per rule,
    in table order.  For every rule with interval "monthly" the block holds
    exactly one transaction per scheduled occurrence on or before [now]
    (the occurrences being next_date, add_months(next_date, 1), ...; the
    boundary is inclusive), each with the rule's type, category, description
    and amount and with account "Recurring"; and afterwards the row of the
    rule holds as next_date the first occurrence after [now], its other
    columns being as they were. *)
Theorem apply_recurring_monthly (fuel : nat) (now : date) (db : database) :
  valid_date now ->
  month_index now < last_month ->
  unique_ids (recurring db) ->
  Forall (fun r => valid_date (r_next_date r)) (recurring db) ->
  month_index now <= Z.of_nat fuel ->
  exists (db' : database) (blocks : list (list transaction)),
    apply_recurring fuel now db
    = Returns (db', Z.of_nat (length (concat blocks)))
    /\ transactions db' = transactions db ++ concat blocks
    /\ length blocks = length (recurring db)
    /\ forall (i : nat) (r : recurring_rule),
        recurring db !! i = Some r ->
        r_interval r = "monthly" ->
        exists (block : list transaction) (e : date),
          blocks !! i = Some block
          /\ (forall (k : nat) (t : transaction),
                 block !! k = Some t ->
                 exists dk : date,
                   occurrence (r_next_date r) k = Returns dk
                   /\ date_le dk now
                   /\ columns t = posting r dk)
          /\ (forall (k : nat) (dk : date),
                 occurrence (r_next_date r) k = Returns dk ->
                 date_le dk now -> (k < length block)%nat)
          /\ occurrence (r_next_date r) (length block) = Returns e
          /\ date_lt now e
          /\ exists r' : recurring_rule,
              recurring db' !! i = Some r'
              /\ r_next_date r' = e
              /\ same_rule r r'.
Proof.
  intros Hnow Hlast Hu Hvalid Hfuel.
  destruct (plan_returns fuel now (recurring db)) as [p Hp].
  { intros r Hr. apply schedule_returns; try assumption.
    rewrite Forall_forall in Hvalid. apply Hvalid.
    apply list_elem_of_In. assumption. }
  pose proof (apply_recurring_plan fuel now db) as Hrun.
  rewrite Hp in Hrun. simpl in Hrun.
  destruct (apply_recurring_returns _ _ _ _ _ Hu Hrun)
    as (p' & blocks & Hp' & Hmade & Hlen & Ht & Hb & Hrec).
  rewrite Hp in Hp'. injection Hp' as <-.
  exists (replay (recurring db) p db), blocks.
  split; [rewrite Hrun, Hmade; reflexivity |].
  split; [assumption |]. split; [assumption |].
  intros i r Hr Hmonthly.
  destruct (plan_lookup _ _ _ _ _ _ Hp Hr) as ([ds e] & Hs & Hsched).
  destruct (block_lookup _ _ _ _ _ _ Hb Hr Hs) as (block & Hblock & Hc).
  unfold schedule in Hsched.
  rewrite (proj2 (monthly_true r) Hmonthly) in Hsched.
  destruct (due_dates_monthly_spec _ _ _ _ _ Hsched) as (Hds & He & Hlt).
  assert (Hsize : length block = length ds).
  { apply (f_equal length) in Hc. rewrite !length_fmap in Hc. exact Hc. }
  assert (Hd : valid_date (r_next_date r)).
  { rewrite Forall_forall in Hvalid. apply Hvalid.
    apply list_elem_of_lookup_2 in Hr. assumption. }
  exists block, e. split; [assumption |]. split; [| split; [| split; [| split]]].
  - intros k t Hk.
    destruct (block_row _ _ _ _ _ Hc Hk) as (dk & Hdk & Hcols).
    destruct (Hds k dk Hdk) as [Hocc Hle]. eauto.
  - intros k dk Hocc Hle. rewrite Hsize.
    apply (due_dates_monthly_complete fuel now (r_next_date r) ds e k dk);
      assumption.
  - rewrite Hsize. assumption.
  - assumption.
  - exists (set_next_date e r). split; [| split].
    + rewrite Hrec. apply (advance_lookup _ _ _ _ _ Hr Hs).
    + reflexivity.
    + repeat split.
Qed.

Lemma apply_recurring_monthly_witness :
  exists (db' : database) (blocks : list (list transaction))
         (r' : recurring_rule),
    apply_recurring (Z.to_nat 30000) (mkDate 2024 4 10)
      (store_with [rent_rule; gym_rule])
    = Returns (db', Z.of_nat (length (concat blocks)))
    /\ recurring db' !! 0%nat = Some r'
    /\ date_lt (mkDate 2024 4 10) (r_next_date r')
    /\ r_id r' = r_id rent_rule.
Proof.
  destruct (apply_recurring_monthly (Z.to_nat 30000) (mkDate 2024 4 10)
              (store_with [rent_rule; gym_rule]))
    as (db' & blocks & Hrun & _ & _ & Hrule).
  - valid_date_tac.
  - vm_compute. reflexivity.
  - unfold unique_ids. simpl. apply NoDup_cons. split.
    + intros H. apply list_elem_of_singleton in H. discriminate H.
    + apply NoDup_singleton.
  - repeat constructor; valid_date_tac.
  - rewrite Z2Nat.id by lia. vm_compute. congruence.
  - destruct (Hrule 0%nat rent_rule eq_refl eq_refl)
      as (block & e & _ & _ & _ & _ & Hlt & r' & Hrow & He & Hsame & _).
    exists db', blocks, r'. rewrite He. auto.
Defined.

(** C1 as stated fails in December 9999: the occurrence of 15 December is
    due on the 31st, but the month after it is not a date, so the pass
    raises, posts nothing and leaves the rule where it was. *)
Lemma apply_recurring_december_9999 :
  valid_date (mkDate 9999 12 31)
  /\ valid_date (mkDate 9999 12 15)
  /\ date_le (mkDate 9999 12 15) (mkDate 9999 12 31)
  /\ forall fuel : nat,
      apply_recurring (S fuel) (mkDate 9999 12 31)
        (store_with
           [mkRecurring 1 Expense "Rent" None 12000 "monthly"
              (mkDate 9999 12 15)])
      = Raises.
Proof.
  split; [valid_date_tac |]. split; [valid_date_tac |].
  split; [reflexivity |]. intros fuel. reflexivity.
Qed.

Lemma due_dates_step fuel now d d' :
  date_leb d now = true -> add_months d 1 = Returns d' ->
  due_dates (S fuel) now true d
  = '(ds, e) ← due_dates fuel now true d'; Returns (d :: ds, e).
Proof. intros Hdue Hnext. simpl. rewrite Hdue, Hnext. reflexivity. Qed.

(** C2.  A store whose only rule is monthly with next_date 2024-01-15, run
    at now = 2024-04-10 with fuel for three iterations or more: the pass
    returns 3, appends three transactions dated 2024-01-15, 2024-02-15 and
    2024-03-15 that carry the rule's fields and account "Recurring", and
    the rule table afterwards is the one row of the rule with next_date
    2024-04-15 and its other columns as they were. *)
Theorem apply_recurring_catch_up (fuel : nat) (db : database)
    (r : recurring_rule) :
  recurring db = [r] ->
  r_interval r = "monthly" ->
  r_next_date r = mkDate 2024 1 15 ->
  (3 <= fuel)%nat ->
  exists (db' : database) (t1 t2 t3 : transaction),
    apply_recurring fuel (mkDate 2024 4 10) db = Returns (db', 3)
    /\ transactions db' = transactions db ++ [t1; t2; t3]
    /\ columns t1 = posting r (mkDate 2024 1 15)
    /\ columns t2 = posting r (mkDate 2024 2 15)
    /\ columns t3 = posting r (mkDate 2024 3 15)
    /\ exists r' : recurring_rule,
        recurring db' = [r']
        /\ r_next_date r' = mkDate 2024 4 15
        /\ same_rule r r'.
Proof.
  intros Hrows Hmonthly Hnext Hfuel.
  destruct fuel as [| [| [| fuel]]]; try lia.
  assert (Hs : schedule (S (S (S fuel))) (mkDate 2024 4 10) r
               = Returns ([mkDate 2024 1 15; mkDate 2024 2 15; mkDate 2024 3 15],
                          mkDate 2024 4 15)).
  { unfold schedule. rewrite (proj2 (monthly_true r) Hmonthly), Hnext.
    rewrite (due_dates_step _ _ _ (mkDate 2024 2 15)) by reflexivity.
    rewrite (due_dates_step _ _ _ (mkDate 2024 3 15)) by reflexivity.
    rewrite (due_dates_step _ _ _ (mkDate 2024 4 15)) by reflexivity.
    rewrite due_dates_not_due by reflexivity. reflexivity. }
  rewrite apply_recurring_plan, Hrows. simpl. rewrite Hs. simpl.
  eexists _, _, _, _. split; [reflexivity |].
  unfold settle. rewrite Hnext. simpl.
  rewrite Hrows. simpl. rewrite Z.eqb_refl.
  rewrite <- !app_assoc. simpl.
  split; [reflexivity |]. split; [reflexivity |].
  split; [reflexivity |]. split; [reflexivity |].
  exists (set_next_date (mkDate 2024 4 15) r).
  split; [reflexivity |]. split; [reflexivity |]. repeat split.
Qed.

Lemma apply_recurring_catch_up_witness :
  exists (db' : database) (t1 t2 t3 : transaction),
    apply_recurring 5 (mkDate 2024 4 10) (store_with [rent_rule])
    = Returns (db', 3)
    /\ transactions db' = [t1; t2; t3]
    /\ t_date t1 = mkDate 2024 1 15
    /\ t_date t2 = mkDate 2024 2 15
    /\ t_date t3 = mkDate 2024 3 15
    /\ exists r' : recurring_rule,
        recurring db' = [r'] /\ r_next_date r' = mkDate 2024 4 15.
Proof.
  destruct (apply_recurring_catch_up 5 (store_with [rent_rule]) rent_rule)
    as (db' & t1 & t2 & t3 & Hrun & Ht & H1 & H2 & H3 & r' & Hrec & Hnext & _);
    [reflexivity | reflexivity | reflexivity | lia |].
  exists db', t1, t2, t3.
  injection H1 as H1 _. injection H2 as H2 _. injection H3 as H3 _.
  eauto 12.
Defined.

(** A loop that returns stops after [now] when the rule is monthly, and
    stays where it was when the rule is not due. *)
Lemma schedule_stops fuel now r s :
  schedule fuel now r = Returns s ->
  r_interval r = "monthly" \/ date_lt now (r_next_date r) ->
  date_lt now s.2.
Proof.
  unfold schedule. intros Hs [Hmonthly | Hlater].
  - rewrite (proj2 (monthly_true r) Hmonthly) in Hs. destruct s as [ds e].
    apply due_dates_monthly_spec in Hs. tauto.
  - rewrite due_dates_not_due in Hs by exact Hlater.
    injection Hs as <-. exact Hlater.
Qed.

(** Rows that are not due leave the store and the count as they are. *)
Lemma for_rows_idle fuel now rows st :
  Forall (fun r => date_lt now (r_next_date r)) rows ->
  for_rows fuel now rows st = Returns st.
Proof.
  induction 1 as [| r rows Hr _ IH]; simpl; [reflexivity |].
  destruct st as [db made]. rewrite for_row_schedule.
  unfold schedule. rewrite due_dates_not_due by exact Hr. simpl.
  unfold settle. simpl. rewrite date_eqb_refl. simpl.
  rewrite Z.add_0_r. exact IH.
Qed.

(** C3 (amended).  On a rule table with distinct ids in which every rule is
    monthly or not yet due, a second [apply_recurring now] run right after a
    first one that returned posts nothing: it returns count 0 and the store
    the first run left.  (A due rule with another interval is posted again
    by every run.) *)
Theorem apply_recurring_second_run (fuel fuel' : nat) (now : date)
    (db db1 : database) (made : Z) :
  unique_ids (recurring db) ->
  Forall (fun r => r_interval r = "monthly" \/ date_lt now (r_next_date r))
    (recurring db) ->
  apply_recurring fuel now db = Returns (db1, made) ->
  apply_recurring fuel' now db1 = Returns (db1, 0).
Proof.
  intros Hu Hrules Hrun.
  destruct (apply_recurring_returns _ _ _ _ _ Hu Hrun)
    as (p & blocks & Hp & _ & _ & _ & _ & Hrec).
  unfold apply_recurring. apply for_rows_idle.
  rewrite Hrec. apply Forall_lookup. intros i r' Hi.
  apply lookup_zip_with_Some in Hi as (r & s & -> & Hr & Hs).
  destruct (plan_lookup _ _ _ _ _ _ Hp Hr) as (s' & Hs' & Hsched).
  assert (s' = s) as -> by congruence.
  unfold advance, set_next_date. cbn [r_next_date].
  apply (schedule_stops fuel now r s Hsched).
  rewrite Forall_lookup in Hrules. apply (Hrules i r Hr).
Qed.

Lemma apply_recurring_second_run_witness :
  exists db1 : database,
    apply_recurring 5 (mkDate 2024 4 10) (store_with [rent_rule])
    = Returns (db1, 3)
    /\ apply_recurring 0 (mkDate 2024 4 10) db1 = Returns (db1, 0).
Proof.
  eexists. split; [reflexivity |].
  eapply (apply_recurring_second_run 5 0 (mkDate 2024 4 10)
            (store_with [rent_rule])).
  - unfold unique_ids. simpl. apply NoDup_singleton.
  - repeat constructor.
  - reflexivity.
Defined.

(** C3 as stated fails for a due rule whose interval is not "monthly": each
    run posts it once more. *)
Lemma apply_recurring_weekly_twice :
  exists db1 db2 : database,
    apply_recurring 5 (mkDate 2024 4 10) (store_with [gym_rule])
    = Returns (db1, 1)
    /\ apply_recurring 5 (mkDate 2024 4 10) db1 = Returns (db2, 1)
    /\ length (transactions db1) = 1%nat
    /\ length (transactions db2) = 2%nat.
Proof.
  eexists _, _. split; [reflexivity |]. split; [reflexivity |].
  split; reflexivity.
Qed.




(** ** Reading UTF-8 *)

Lemma byte_value_range a : 0 <= byte_value a < 256.
Proof. unfold byte_value. pose proof (N_ascii_bounded a). lia. Qed.

Lemma continuation_bits a :
  (Z.land (byte_value a) 0xC0 =? 0x80) = continuation (byte_value a).
Proof. destruct a as [[] [] [] [] [] [] [] []]; reflexivity. Qed.

Lemma continuation_low_bits a :
  continuation (byte_value a) = true ->
  Z.land 0x3F (byte_value a) = byte_value a - 128.
Proof.
  destruct a as [[] [] [] [] [] [] [] []]; intros H;
    solve [reflexivity | discriminate H].
Qed.

Lemma continuation_range b : continuation b = true <-> 128 <= b < 192.
Proof. unfold continuation. lia. Qed.

(** Clearing the low [k] bits of a 32-bit word with a mask. *)
Lemma land_high_mask (c k : Z) :
  0 <= c < 2 ^ 32 -> 0 <= k <= 32 ->
  Z.land c (Z.shiftl (Z.ones (32 - k)) k) = 2 ^ k * (c / 2 ^ k).
Proof.
  intros Hc Hk.
  rewrite <- Z.shiftr_div_pow2, Z.mul_comm, <- Z.shiftl_mul_pow2 by lia.
  apply Z.bits_inj'. intros n Hn.
  rewrite Z.land_spec, !Z.shiftl_spec by lia.
  destruct (Z.ltb_spec n k) as [Hlt | Hge].
  - rewrite !(Z.testbit_neg_r _ (n - k)) by lia. apply andb_false_r.
  - rewrite Z.shiftr_spec, Z.testbit_ones by lia.
    replace (n - k + k) with n by lia.
    destruct (Z.ltb_spec (n - k) (32 - k)) as [Hin | Hout].
    + replace (0 <=? n - k) with true by (symmetry; apply Z.leb_le; lia).
      apply andb_true_r.
    + rewrite andb_false_r, andb_false_r. symmetry.
      destruct (Z.eq_dec c 0) as [-> | Hc0]; [apply Z.bits_0 |].
      apply Z.bits_above_log2; [lia |].
      apply Z.log2_lt_pow2; [lia |].
      apply Z.lt_le_trans with (2 ^ 32); [lia |].
      apply Z.pow_le_mono_r; lia.
Qed.

Lemma utf8_fix_spec (c : Z) :
  0 <= c < 2 ^ 32 ->
  utf8_fix c
  = if (c <? 128) || ((55296 <=? c) && (c <? 57344))
       || (c =? 65534) || (c =? 65535)
    then 65533 else c.
Proof.
  intros Hc. unfold utf8_fix.
  change 0xFFFFF800 with (Z.shiftl (Z.ones (32 - 11)) 11).
  change 0xFFFFFFFE with (Z.shiftl (Z.ones (32 - 1)) 1).
  rewrite !land_high_mask by lia.
  change (2 ^ 11) with 2048. change (2 ^ 1) with 2.
  pose proof (Z.div_mod c 2048 ltac:(lia)) as H1.
  pose proof (Z.mod_pos_bound c 2048 ltac:(lia)) as H2.
  pose proof (Z.div_mod c 2 ltac:(lia)) as H3.
  pose proof (Z.mod_pos_bound c 2 ltac:(lia)) as H4.
  destruct (c <? 128) eqn:E1; [reflexivity |].
  destruct (2048 * (c / 2048) =? 55296) eqn:E2;
    destruct ((55296 <=? c) && (c <? 57344)) eqn:E3; simpl; try lia;
    try reflexivity.
  destruct (2 * (c / 2) =? 65534) eqn:E4;
    destruct (c =? 65534) eqn:E5; destruct (c =? 65535) eqn:E6; simpl;
    try lia; reflexivity.
Qed.

Lemma utf8_fix_code_point (c : Z) :
  128 <= c < 1114112 -> ~ 55296 <= c < 57344 -> utf8_fix c = as_read c.
Proof.
  intros Hc Hs. rewrite utf8_fix_spec by lia. unfold as_read.
  destruct (c <? 128) eqn:E1; [lia |].
  destruct ((55296 <=? c) && (c <? 57344)) eqn:E2; [lia |]. reflexivity.
Qed.

(** What the reader makes of some texts, and what [_] and [%] match. *)
Example utf8_chars_two_bytes : utf8_chars None "é" = [233].
Proof. reflexivity. Qed.

Example utf8_chars_three_bytes : utf8_chars None "€" = [8364].
Proof. reflexivity. Qed.

Example utf8_chars_up_to_nul :
  utf8_chars None ("xa" +:+ String "000" "by") = [120; 97].
Proof. reflexivity. Qed.

Example utf8_chars_noncharacter :
  utf8_chars None (String "239" (String "191" (String "191" ""))) = [65533].
Proof. reflexivity. Qed.

Example underscore_is_one_character :
  like_null "_" (Some "é") = true /\ like_null "__" (Some "é") = false
  /\ like_null "%__" (Some "€") = false.
Proof. repeat split. Qed.

Example letters_up_to_ascii_case :
  like_null "%A%" (Some "a") = true /\ like_null "%É%" (Some "é") = false.
Proof. repeat split. Qed.

(** The steps of the reader. *)
Lemma utf8_chars_nul a rest :
  byte_value a = 0 -> utf8_chars None (String a rest) = [].
Proof. intros H. simpl. rewrite H. reflexivity. Qed.

Lemma utf8_chars_single a rest :
  byte_value a <> 0 -> byte_value a < 192 ->
  utf8_chars None (String a rest) = byte_value a :: utf8_chars None rest.
Proof.
  intros H0 H. simpl.
  destruct (Z.eqb_spec (byte_value a) 0); [contradiction |].
  destruct (Z.ltb_spec (byte_value a) 192); [reflexivity | lia].
Qed.

Lemma utf8_chars_lead a rest :
  192 <= byte_value a ->
  utf8_chars None (String a rest)
  = utf8_chars (Some (sqlite3Utf8Trans1 (byte_value a))) rest.
Proof.
  intros H. simpl.
  destruct (Z.eqb_spec (byte_value a) 0); [lia |].
  destruct (Z.ltb_spec (byte_value a) 192); [lia | reflexivity].
Qed.

Lemma utf8_chars_continue c a rest :
  continuation (byte_value a) = true ->
  utf8_chars (Some c) (String a rest)
  = utf8_chars (Some ((c * 64 + (byte_value a - 128)) mod 2 ^ 32)) rest.
Proof.
  intros H. simpl. rewrite continuation_bits, H.
  rewrite Z.shiftl_mul_pow2, (continuation_low_bits a H) by lia.
  reflexivity.
Qed.

Lemma utf8_chars_flush c s :
  match s with
  | EmptyString => True
  | String a _ => continuation (byte_value a) = false
  end ->
  utf8_chars (Some c) s = utf8_fix c :: utf8_chars None s.
Proof.
  destruct s as [| a rest]; [reflexivity |]. intros H.
  simpl. rewrite continuation_bits, H. reflexivity.
Qed.

(** Induction over the characters of a UTF-8 text. *)
Lemma code_points_ind (P : string -> list Z -> Prop) :
  P "" [] ->
  (forall a0 s cs,
      byte_value a0 < 128 -> code_points s = Some cs -> P s cs ->
      P (String a0 s) (byte_value a0 :: cs)) ->
  (forall a0 a1 s cs,
      194 <= byte_value a0 < 224 -> continuation (byte_value a1) = true ->
      code_points s = Some cs -> P s cs ->
      P (String a0 (String a1 s))
        ((byte_value a0 - 192) * 64 + (byte_value a1 - 128) :: cs)) ->
  (forall a0 a1 a2 s cs c,
      c = (byte_value a0 - 224) * 4096 + (byte_value a1 - 128) * 64
          + (byte_value a2 - 128) ->
      224 <= byte_value a0 < 240 ->
      continuation (byte_value a1) = true ->
      continuation (byte_value a2) = true ->
      2048 <= c -> ~ 55296 <= c < 57344 ->
      code_points s = Some cs -> P s cs ->
      P (String a0 (String a1 (String a2 s))) (c :: cs)) ->
  (forall a0 a1 a2 a3 s cs c,
      c = (byte_value a0 - 240) * 262144 + (byte_value a1 - 128) * 4096
          + (byte_value a2 - 128) * 64 + (byte_value a3 - 128) ->
      240 <= byte_value a0 ->
      continuation (byte_value a1) = true ->
      continuation (byte_value a2) = true ->
      continuation (byte_value a3) = true ->
      65536 <= c < 1114112 ->
      code_points s = Some cs -> P s cs ->
      P (String a0 (String a1 (String a2 (String a3 s)))) (c :: cs)) ->
  forall s cs, code_points s = Some cs -> P s cs.
Proof.
  intros H0 H1 H2 H3 H4 s.
  assert (Hall : forall n s, (String.length s <= n)%nat ->
                             forall cs, code_points s = Some cs -> P s cs).
  { clear s. induction n as [| n IH]; intros s Hlen cs Hs.
    - destruct s; [| simpl in Hlen; lia]. injection Hs as <-. exact H0.
    - destruct s as [| a0 s1]; [injection Hs as <-; exact H0 |].
      simpl in Hlen. cbn [code_points] in Hs. cbv zeta in Hs.
      destruct (Z.ltb_spec (byte_value a0) 128) as [Hb0 | Hb0].
      { destruct (code_points s1) as [cs1 |] eqn:E1; [| discriminate].
        injection Hs as <-. apply H1; [assumption | assumption |].
        apply IH; [lia | assumption]. }
      destruct s1 as [| a1 s2]; [discriminate |]. simpl in Hlen.
      destruct (Z.ltb_spec (byte_value a0) 224) as [Hb1 | Hb1].
      { destruct (Z.leb_spec 194 (byte_value a0)) as [Hlo | Hlo];
          [| discriminate].
        destruct (continuation (byte_value a1)) eqn:Hc1; [| discriminate].
        simpl in Hs.
        destruct (code_points s2) as [cs2 |] eqn:E2; [| discriminate].
        injection Hs as <-. apply H2; try assumption; [lia |].
        apply IH; [lia | assumption]. }
      destruct s2 as [| a2 s3]; [discriminate |]. simpl in Hlen.
      destruct (Z.ltb_spec (byte_value a0) 240) as [Hb2 | Hb2].
      { destruct (continuation (byte_value a1)) eqn:Hc1; [| discriminate].
        destruct (continuation (byte_value a2)) eqn:Hc2; [| discriminate].
        cbn [andb] in Hs.
        match type of Hs with
        | (if (2048 <=? ?c) && _ then _ else _) = _ =>
            remember c as c3 eqn:Hc3
        end.
        destruct (Z.leb_spec 2048 c3) as [Hmin | Hmin]; [| discriminate].
        destruct ((55296 <=? c3) && (c3 <? 57344)) eqn:Hsur; [discriminate |].
        cbn [andb negb] in Hs.
        destruct (code_points s3) as [cs3 |] eqn:E3; [| discriminate].
        injection Hs as <-.
        apply (H3 a0 a1 a2 s3 cs3 c3); try assumption; [lia | lia |].
        apply IH; [lia | assumption]. }
      destruct s3 as [| a3 s4]; [discriminate |]. simpl in Hlen.
      destruct (continuation (byte_value a1)) eqn:Hc1; [| discriminate].
      destruct (continuation (byte_value a2)) eqn:Hc2; [| discriminate].
      destruct (continuation (byte_value a3)) eqn:Hc3; [| discriminate].
      cbn [andb] in Hs.
      match type of Hs with
      | (if (65536 <=? ?c) && _ then _ else _) = _ =>
          remember c as c4 eqn:Hc4
      end.
      destruct (Z.leb_spec 65536 c4) as [Hmin | Hmin]; [| discriminate].
      destruct (Z.ltb_spec c4 1114112) as [Hmax | Hmax]; [| discriminate].
      cbn [andb] in Hs.
      destruct (code_points s4) as [cs4 |] eqn:E4; [| discriminate].
      injection Hs as <-.
      apply (H4 a0 a1 a2 a3 s4 cs4 c4); try assumption; [lia |].
      apply IH; [lia | assumption]. }
  intros cs. apply (Hall (String.length s) s). lia.
Qed.

Lemma code_points_starts s cs :
  code_points s = Some cs ->
  match s with
  | EmptyString => True
  | String a _ => continuation (byte_value a) = false
  end.
Proof.
  intros H. pattern s, cs. revert s cs H. apply code_points_ind; auto;
    intros; unfold continuation; lia.
Qed.

(** The engine reads UTF-8 text as its characters up to the first NUL, with
    U+FFFE and U+FFFF read as U+FFFD. *)
Lemma utf8_chars_code_points s cs :
  code_points s = Some cs ->
  utf8_chars None s = as_read <$> before_nul cs.
Proof.
  intros H. pattern s, cs. revert s cs H. apply code_points_ind.
  - reflexivity.
  - intros a0 s cs Hb Hs IH. cbn [before_nul].
    destruct (Z.eqb_spec (byte_value a0) 0) as [H0 | H0].
    + apply utf8_chars_nul. assumption.
    + rewrite utf8_chars_single by lia. rewrite IH, fmap_cons. f_equal.
      unfold as_read.
      destruct (Z.eqb_spec (byte_value a0) 65534); [lia |].
      destruct (Z.eqb_spec (byte_value a0) 65535); [lia | reflexivity].
  - intros a0 a1 s cs Hb0 Hc1 Hs IH.
    pose proof (proj1 (continuation_range _) Hc1) as Hb1.
    rewrite utf8_chars_lead by lia.
    rewrite utf8_chars_continue by assumption.
    rewrite utf8_chars_flush by (apply (code_points_starts s cs Hs)).
    unfold sqlite3Utf8Trans1.
    destruct (Z.ltb_spec (byte_value a0) 224); [| lia].
    rewrite Z.mod_small by lia.
    set (c := (byte_value a0 - 192) * 64 + (byte_value a1 - 128)).
    assert (Hc : 128 <= c < 2048) by (unfold c; lia).
    cbn [before_nul]. destruct (Z.eqb_spec c 0); [lia |].
    rewrite fmap_cons, IH, utf8_fix_code_point by lia. reflexivity.
  - intros a0 a1 a2 s cs c Hc Hb0 Hc1 Hc2 Hmin Hsur Hs IH.
    pose proof (proj1 (continuation_range _) Hc1) as Hb1.
    pose proof (proj1 (continuation_range _) Hc2) as Hb2.
    rewrite utf8_chars_lead by lia.
    rewrite !utf8_chars_continue by assumption.
    rewrite utf8_chars_flush by (apply (code_points_starts s cs Hs)).
    unfold sqlite3Utf8Trans1.
    destruct (Z.ltb_spec (byte_value a0) 224); [lia |].
    destruct (Z.ltb_spec (byte_value a0) 240); [| lia].
    rewrite (Z.mod_small ((byte_value a0 - 224) * 64 + _)) by lia.
    rewrite Z.mod_small by lia.
    replace (((byte_value a0 - 224) * 64 + (byte_value a1 - 128)) * 64
             + (byte_value a2 - 128)) with c by lia.
    assert (Hmax : c < 65536) by lia.
    cbn [before_nul]. destruct (Z.eqb_spec c 0); [lia |].
    rewrite fmap_cons, IH, utf8_fix_code_point by lia. reflexivity.
  - intros a0 a1 a2 a3 s cs c Hc Hb0 Hc1 Hc2 Hc3 Hrange Hs IH.
    pose proof (proj1 (continuation_range _) Hc1) as Hb1.
    pose proof (proj1 (continuation_range _) Hc2) as Hb2.
    pose proof (proj1 (continuation_range _) Hc3) as Hb3.
    pose proof (byte_value_range a0) as Hr0.
    assert (Hb0' : byte_value a0 < 245) by lia.
    rewrite utf8_chars_lead by lia.
    rewrite !utf8_chars_continue by assumption.
    rewrite utf8_chars_flush by (apply (code_points_starts s cs Hs)).
    unfold sqlite3Utf8Trans1.
    destruct (Z.ltb_spec (byte_value a0) 224); [lia |].
    destruct (Z.ltb_spec (byte_value a0) 240); [lia |].
    destruct (Z.ltb_spec (byte_value a0) 248); [| lia].
    rewrite (Z.mod_small ((byte_value a0 - 240) * 64 + _)) by lia.
    rewrite (Z.mod_small (((byte_value a0 - 240) * 64 + _) * 64 + _)) by lia.
    rewrite Z.mod_small by lia.
    replace ((((byte_value a0 - 240) * 64 + (byte_value a1 - 128)) * 64
              + (byte_value a2 - 128)) * 64 + (byte_value a3 - 128))
      with c by lia.
    cbn [before_nul]. destruct (Z.eqb_spec c 0); [lia |].
    rewrite fmap_cons, IH, utf8_fix_code_point by lia. reflexivity.
Qed.


Lemma code_points_app s1 s2 cs1 cs2 :
  code_points s1 = Some cs1 -> code_points s2 = Some cs2 ->
  code_points (s1 +:+ s2) = Some (cs1 ++ cs2).
Proof.
  intros H1 H2. revert s1 cs1 H1.
  apply (code_points_ind
           (fun s1 cs1 => code_points (s1 +:+ s2) = Some (cs1 ++ cs2))).
  - exact H2.
  - intros a0 s cs Hb Hs IH.
    change (String a0 s +:+ s2) with (String a0 (s +:+ s2)).
    cbn [code_points]. cbv zeta.
    destruct (Z.ltb_spec (byte_value a0) 128); [| lia].
    rewrite IH. reflexivity.
  - intros a0 a1 s cs Hb0 Hc1 Hs IH.
    change (String a0 (String a1 s) +:+ s2)
      with (String a0 (String a1 (s +:+ s2))).
    cbn [code_points]. cbv zeta.
    destruct (Z.ltb_spec (byte_value a0) 128); [lia |].
    destruct (Z.ltb_spec (byte_value a0) 224); [| lia].
    destruct (Z.leb_spec 194 (byte_value a0)); [| lia].
    rewrite Hc1, IH. reflexivity.
  - intros a0 a1 a2 s cs c Hc Hb0 Hc1 Hc2 Hmin Hsur Hs IH.
    change (String a0 (String a1 (String a2 s)) +:+ s2)
      with (String a0 (String a1 (String a2 (s +:+ s2)))).
    cbn [code_points]. cbv zeta.
    destruct (Z.ltb_spec (byte_value a0) 128); [lia |].
    destruct (Z.ltb_spec (byte_value a0) 224); [lia |].
    destruct (Z.ltb_spec (byte_value a0) 240); [| lia].
    rewrite Hc1, Hc2, <- Hc, IH.
    destruct (Z.leb_spec 2048 c); [| lia].
    destruct ((55296 <=? c) && (c <? 57344)) eqn:E; [lia |]. reflexivity.
  - intros a0 a1 a2 a3 s cs c Hc Hb0 Hc1 Hc2 Hc3 Hrange Hs IH.
    change (String a0 (String a1 (String a2 (String a3 s))) +:+ s2)
      with (String a0 (String a1 (String a2 (String a3 (s +:+ s2))))).
    cbn [code_points]. cbv zeta.
    destruct (Z.ltb_spec (byte_value a0) 128); [lia |].
    destruct (Z.ltb_spec (byte_value a0) 224); [lia |].
    destruct (Z.ltb_spec (byte_value a0) 240); [lia |].
    rewrite Hc1, Hc2, Hc3, <- Hc, IH.
    destruct (Z.leb_spec 65536 c); [| lia].
    destruct (Z.ltb_spec c 1114112); [| lia]. reflexivity.
Qed.

Lemma code_points_length s cs :
  code_points s = Some cs -> (String.length s <= 4 * length cs)%nat.
Proof.
  intros H. pattern s, cs. revert s cs H. apply code_points_ind; simpl;
    intros; lia.
Qed.

(** ** Filtered query *)

Lemma append_cons c s t : String c s +:+ t = String c (s +:+ t).
Proof. reflexivity. Qed.

Lemma string_length_app s1 s2 :
  String.length (s1 +:+ s2) = (String.length s1 + String.length s2)%nat.
Proof.
  induction s1 as [| c s1 IH]; [reflexivity |].
  rewrite append_cons. simpl. rewrite IH. reflexivity.
Qed.

Lemma patternCompare_percent p s :
  patternCompare (37 :: p) s
  = patternCompare p s || match s with
                          | [] => false
                          | _ :: s' => patternCompare (37 :: p) s'
                          end.
Proof. destruct s; reflexivity. Qed.

Lemma patternCompare_char c p s :
  c <> 37 ->
  patternCompare (c :: p) s
  = match s with
    | [] => false
    | c2 :: s' => (same_char c c2 || (c =? 95)) && patternCompare p s'
    end.
Proof.
  intros H. simpl. destruct (Z.eqb_spec c 37); [contradiction | reflexivity].
Qed.

Lemma patternCompare_percent_iff p s :
  patternCompare (37 :: p) s = true
  <-> exists pre post, s = pre ++ post /\ patternCompare p post = true.
Proof.
  induction s as [| x s IH]; rewrite patternCompare_percent, orb_true_iff.
  - split.
    + intros [H | H]; [| discriminate]. exists [], []. auto.
    + intros (pre & post & Hs & Hp). left.
      symmetry in Hs. apply app_eq_nil in Hs as [_ ->]. assumption.
  - rewrite IH. split.
    + intros [H | (pre & post & -> & Hp)].
      * exists [], (x :: s). auto.
      * exists (x :: pre), post. auto.
    + intros (pre & post & Hs & Hp). destruct pre as [| y pre]; simpl in Hs.
      * subst post. auto.
      * injection Hs as -> ->. right. eauto.
Qed.

Lemma patternCompare_any s : patternCompare [37] s = true.
Proof.
  apply patternCompare_percent_iff. exists s, [].
  rewrite app_nil_r. auto.
Qed.

Lemma same_char_spec c c2 :
  same_char c c2 = true <-> sqlite3Tolower c = sqlite3Tolower c2.
Proof.
  unfold same_char, sqlite3Tolower.
  destruct ((65 <=? c) && (c <=? 90)) eqn:E1;
    destruct ((65 <=? c2) && (c2 <=? 90)) eqn:E2; lia.
Qed.


(** Any pattern matches the texts that spell it out up to case, wildcard
    characters included, followed by a match of the rest. *)
Lemma patternCompare_spelled_out (qs mid p post : list Z) :
  sqlite3Tolower <$> mid = sqlite3Tolower <$> qs ->
  patternCompare p post = true ->
  patternCompare (qs ++ p) (mid ++ post) = true.
Proof.
  revert mid. induction qs as [| c qs IH]; intros mid Hm Hp.
  - apply fmap_nil_inv in Hm. subst mid. assumption.
  - destruct mid as [| x mid]; [discriminate Hm |].
    rewrite !fmap_cons in Hm. injection Hm as Hc Hm.
    specialize (IH mid Hm Hp). rewrite <- !app_comm_cons.
    destruct (Z.eqb_spec c 37) as [-> | H37].
    + apply patternCompare_percent_iff. exists [x], (mid ++ post). auto.
    + rewrite patternCompare_char by assumption.
      rewrite IH, andb_true_r. apply orb_true_iff. left.
      apply same_char_spec. congruence.
Qed.

Lemma search_char_read c : search_char c = sqlite3Tolower (as_read c).
Proof.
  unfold search_char, sqlite3Tolower, as_read.
  destruct ((65 <=? c) && (c <=? 90)) eqn:E1.
  - destruct ((c =? 65534) || (c =? 65535)) eqn:E2; [lia |].
    rewrite E1. reflexivity.
  - destruct ((c =? 65534) || (c =? 65535)) eqn:E2; [reflexivity |].
    rewrite E1. reflexivity.
Qed.

Lemma search_chars_read (cs : list Z) :
  search_char <$> cs = sqlite3Tolower <$> (as_read <$> cs).
Proof.
  rewrite <- list_fmap_compose. apply list_fmap_ext.
  intros i c _. apply search_char_read.
Qed.


Lemma before_nul_no_nul (cs : list Z) :
  Forall (fun c => c <> 0) (before_nul cs).
Proof.
  induction cs as [| c cs IH]; simpl; [constructor |].
  destruct (Z.eqb_spec c 0); [constructor | constructor; assumption].
Qed.

Lemma before_nul_app_nul_free (qs rest : list Z) :
  Forall (fun c => c <> 0) qs ->
  before_nul (qs ++ rest) = qs ++ before_nul rest.
Proof.
  induction 1 as [| c qs H0 _ IH]; [reflexivity |].
  simpl. destruct (Z.eqb_spec c 0); [contradiction |]. rewrite IH.
  reflexivity.
Qed.

Lemma search_char_nul c : search_char c = 0 -> c = 0.
Proof.
  unfold search_char.
  destruct ((65 <=? c) && (c <=? 90)) eqn:E1; [lia |].
  destruct ((c =? 65534) || (c =? 65535)); lia.
Qed.

(** The characters of the pattern ['%' + s + '%'] for a text [s] without
    NUL. *)
Lemma pattern_chars s qs :
  code_points s = Some qs -> Forall (fun c => c <> 0) qs ->
  utf8_chars None ("%" +:+ s +:+ "%") = 37 :: (as_read <$> qs) ++ [37].
Proof.
  intros Hs H0.
  assert (Hp : code_points ("%" +:+ s +:+ "%") = Some ([37] ++ qs ++ [37])).
  { apply (code_points_app "%" (s +:+ "%") [37]); [reflexivity |].
    apply code_points_app; [assumption | reflexivity]. }
  rewrite (utf8_chars_code_points _ _ Hp).
  change ([37] ++ qs ++ [37]) with (37 :: qs ++ [37]).
  cbn [before_nul]. change (37 =? 0) with false. cbv iota.
  rewrite before_nul_app_nul_free by assumption.
  rewrite fmap_cons, fmap_app. reflexivity.
Qed.

Lemma like_short pattern x :
  Z.of_nat (String.length pattern) <= 50000 ->
  like pattern x = Returns (like_null pattern x).
Proof.
  intros H. unfold like, SQLITE_MAX_LIKE_PATTERN_LENGTH.
  destruct (Z.ltb_spec 50000 (Z.of_nat (String.length pattern))); [lia |].
  reflexivity.
Qed.

Lemma pattern_length s :
  String.length ("%" +:+ s +:+ "%") = (String.length s + 2)%nat.
Proof. rewrite !string_length_app. simpl. lia. Qed.

(** What the two sides of a search have in common, character by character. *)
Lemma contains_read (cs qs : list Z) :
  (exists pre mid post,
      as_read <$> cs = pre ++ mid ++ post
      /\ sqlite3Tolower <$> mid = sqlite3Tolower <$> (as_read <$> qs))
  <-> exists pre post,
        search_char <$> cs = pre ++ (search_char <$> qs) ++ post.
Proof.
  rewrite !search_chars_read. split.
  - intros (pre & mid & post & Hc & Hm).
    exists (sqlite3Tolower <$> pre), (sqlite3Tolower <$> post).
    rewrite Hc, !fmap_app, Hm. reflexivity.
  - intros (pre & post & H).
    apply fmap_app_inv in H as (l1 & l23 & -> & H23 & Hc).
    symmetry in H23. apply fmap_app_inv in H23 as (l2 & l3 & Hm & -> & ->).
    exists l1, l2, l3. split; [assumption | congruence].
Qed.


(** The search never misses a text that contains the string, wildcard
    characters or not. *)
Lemma like_contains_complete s x :
  Z.of_nat (String.length s) <= 49998 ->
  contains_ci s x -> like ("%" +:+ s +:+ "%") x = Returns true.
Proof.
  intros Hlen (text & cs & qs & pre & post & -> & Hcs & Hqs & Hc).
  rewrite like_short by (rewrite pattern_length; lia). f_equal.
  unfold like_null.
  assert (H0 : Forall (fun c => c <> 0) qs).
  { apply Forall_forall. intros c Hin Hc0. subst c.
    assert (Hin' : 0 ∈ search_char <$> before_nul cs).
    { rewrite Hc. apply elem_of_app. right. apply elem_of_app. left.
      apply (list_elem_of_fmap_2 search_char) in Hin. exact Hin. }
    apply list_elem_of_fmap in Hin' as (c & Hc0 & Hin').
    symmetry in Hc0. apply search_char_nul in Hc0. subst c.
    pose proof (before_nul_no_nul cs) as Hn.
    rewrite Forall_forall in Hn. apply (Hn 0 Hin'). reflexivity. }
  rewrite (pattern_chars s qs Hqs H0), (utf8_chars_code_points _ _ Hcs).
  destruct (proj2 (contains_read (before_nul cs) qs))
    as (pre' & mid & post' & Ht & Hm); [eauto |].
  apply patternCompare_percent_iff. exists pre', (mid ++ post').
  split; [assumption |].
  apply patternCompare_spelled_out; [assumption | apply patternCompare_any].
Qed.

(** The WHERE condition and the scan. *)
Lemma where_holds_app clauses1 clauses2 t :
  where_holds (clauses1 ++ clauses2) t
  = where_holds clauses1 t ≫= fun holds : bool =>
      if holds then where_holds clauses2 t else Returns false.
Proof.
  induction clauses1 as [| c clauses1 IH]; simpl; [reflexivity |].
  destruct (c t) as [[|] | |]; simpl; [exact IH | reflexivity ..].
Qed.

Lemma where_holds_pure clauses :
  Forall (fun c => exists keep, c = pure_clause keep) clauses ->
  exists keep : transaction -> bool,
    forall t, where_holds clauses t = Returns (keep t).
Proof.
  induction 1 as [| c clauses [k ->] _ (keep & IH)].
  - exists (fun _ => true). reflexivity.
  - exists (fun t => k t && keep t). intros t. simpl. unfold pure_clause.
    simpl. destruct (k t); [apply IH | reflexivity].
Qed.

Lemma without_q_pure f :
  Forall (fun c => exists keep, c = pure_clause keep)
    (where_clauses (without_q f)).
Proof.
  unfold where_clauses. cbn [without_q date_from date_to f_ttype f_category
    min_amt max_amt q truthy].
  repeat apply Forall_app_2;
    repeat match goal with
           | |- context [match ?x with _ => _ end] => destruct x
           end;
    repeat constructor; eexists; reflexivity.
Qed.

Lemma truthy_Some s : s <> "" -> truthy (Some s) = Some s.
Proof.
  intros Hs. unfold truthy.
  destruct (String.eqb_spec s ""); [contradiction | reflexivity].
Qed.

(** The "q" clause is one more conjunct of the WHERE condition. *)
Lemma where_clauses_q f s :
  q f = Some s -> s <> "" ->
  where_clauses f = where_clauses (without_q f) ++ [q_clause s].
Proof.
  intros Hq Hs. unfold where_clauses. cbn [without_q date_from date_to f_ttype
    f_category min_amt max_amt q truthy].
  rewrite Hq, (truthy_Some s Hs), app_nil_r, <- !app_assoc. reflexivity.
Qed.

Lemma q_clause_short s t :
  Z.of_nat (String.length s) <= 49998 ->
  q_clause s t
  = Returns (like_null ("%" +:+ s +:+ "%") (t_description t)
             || like_null ("%" +:+ s +:+ "%") (t_account t)).
Proof.
  intros H. unfold q_clause.
  rewrite !like_short by (rewrite pattern_length; lia). reflexivity.
Qed.

Lemma select_rows_filter clauses (keep : transaction -> bool) rows :
  (forall t, t ∈ rows -> where_holds clauses t = Returns (keep t)) ->
  select_rows clauses rows = Returns (List.filter keep rows).
Proof.
  induction rows as [| t rows IH]; intros H; [reflexivity |].
  simpl. rewrite (H t) by apply list_elem_of_here. simpl.
  rewrite IH by (intros t' Ht'; apply H, list_elem_of_further, Ht').
  simpl. destruct (keep t); reflexivity.
Qed.

Lemma select_rows_returns clauses rows kept :
  select_rows clauses rows = Returns kept ->
  kept `sublist_of` rows
  /\ forall t, t ∈ kept
               <-> t ∈ rows /\ where_holds clauses t = Returns true.
Proof.
  revert kept. induction rows as [| t rows IH]; intros kept; simpl.
  - intros [= <-]. split; [constructor |].
    intros t. split; [intros H; inversion H | intros [H _]; inversion H].
  - destruct (where_holds clauses t) as [keep | |] eqn:Ht; simpl;
      try discriminate.
    destruct (select_rows clauses rows) as [kept' | |]; simpl;
      try discriminate.
    intros [= <-]. destruct (IH kept' eq_refl) as [Hsub Hin].
    destruct keep.
    + split; [apply sublist_skip; assumption |]. intros t'.
      rewrite !elem_of_cons, Hin. split.
      * intros [-> | [H1 H2]]; auto.
      * intros [[-> | H1] H2]; auto.
    + split; [apply sublist_cons; assumption |]. intros t'.
      rewrite elem_of_cons, Hin. split.
      * intros [H1 H2]; auto.
      * intros [[-> | H1] H2]; [congruence | auto].
Qed.

Lemma df_transactions_select f db :
  df_transactions f db
  = rows ← select_rows
             (match f with Some f => where_clauses f | None => [] end)
             (transactions db);
    Returns (merge_sort newest_first rows).
Proof. reflexivity. Qed.

Lemma elem_of_df_transactions f db rows :
  df_transactions f db = Returns rows ->
  forall t, t ∈ rows
            <-> t ∈ transactions db
                /\ where_holds
                     (match f with Some f => where_clauses f | None => [] end)
                     t = Returns true.
Proof.
  rewrite df_transactions_select.
  destruct (select_rows _ _) as [kept | |] eqn:E; simpl; try discriminate.
  intros [= <-] t. rewrite merge_sort_Permutation.
  apply (select_rows_returns _ _ _ E).
Qed.

Lemma df_transactions_filter f db (keep : transaction -> bool) :
  (forall t, t ∈ transactions db ->
             where_holds
               (match f with Some f => where_clauses f | None => [] end) t
             = Returns (keep t)) ->
  df_transactions f db
  = Returns (merge_sort newest_first (List.filter keep (transactions db))).
Proof.
  intros H. rewrite df_transactions_select, (select_rows_filter _ keep _ H).
  reflexivity.
Qed.

Lemma elem_of_filter_rows (keep : transaction -> bool) rows t :
  t ∈ merge_sort newest_first (List.filter keep rows)
  <-> t ∈ rows /\ keep t = true.
Proof.
  rewrite merge_sort_Permutation, !list_elem_of_In. apply List.filter_In.
Qed.




Lemma copies_length n c : String.length (copies n c) = n.
Proof. induction n as [| n IH]; simpl; [reflexivity | rewrite IH; reflexivity]. Qed.

(** A search string of 49999 bytes or more is refused on the first row the
    scan tests it on. *)
Lemma q_clause_long s t :
  49998 < Z.of_nat (String.length s) -> q_clause s t = Raises.
Proof.
  intros H. unfold q_clause, like, SQLITE_MAX_LIKE_PATTERN_LENGTH.
  rewrite pattern_length.
  destruct (Z.ltb_spec 50000 (Z.of_nat (String.length s + 2))); [| lia].
  reflexivity.
Qed.



(** * Further properties *)

(** ** Month arithmetic *)

(** X1.  Adding zero months returns the date itself. *)
Theorem add_months_zero (d : date) :
  valid_date d -> add_months d 0 = Returns d.
Proof.
  intros Hd. rewrite add_months_eq by assumption. cbv zeta.
  destruct Hd as (Hy & Hm & Hday).
  assert (Hq : (month_index d + 0) / 12 = year d).
  { unfold month_index.
    replace (12 * year d + (month d - 1) + 0) with (month d - 1 + year d * 12)
      by lia.
    rewrite Z.div_add by lia. rewrite Z.div_small by lia. lia. }
  assert (Hr : (month_index d + 0) mod 12 + 1 = month d).
  { unfold month_index.
    replace (12 * year d + (month d - 1) + 0) with (month d - 1 + year d * 12)
      by lia.
    rewrite Z.mod_add by lia. rewrite Z.mod_small by lia. lia. }
  rewrite Hq, Hr, Z.min_l by lia.
  rewrite new_date_valid; [destruct d; reflexivity |].
  unfold valid_date; simpl. lia.
Qed.

Lemma add_months_zero_witness :
  add_months (mkDate 2024 2 29) 0 = Returns (mkDate 2024 2 29).
Proof. apply add_months_zero. valid_date_tac. Defined.

(** X2.  Two steps are one: when the first call keeps the day of month,
    adding [a] months and then [b] months is adding [a + b] months, with the
    same outcome even when that is an exception. *)
Theorem add_months_compose (d d1 : date) (a b : Z) :
  valid_date d ->
  add_months d a = Returns d1 ->
  day d1 = day d ->
  add_months d1 b = add_months d (a + b).
Proof.
  intros Hd H1 Hday.
  destruct (add_months_inv _ _ _ Hd H1) as (Hv1 & Hidx & _).
  rewrite !add_months_eq by assumption. cbv zeta.
  rewrite Hidx, Hday, Z.add_assoc. reflexivity.
Qed.

Lemma add_months_compose_witness :
  add_months (mkDate 2024 3 15) 11 = add_months (mkDate 2024 1 15) (2 + 11).
Proof.
  apply add_months_compose; [valid_date_tac | reflexivity | reflexivity].
Defined.

(** X3.  A positive number of months leads to a later date and a negative
    number to an earlier one, clamping or not. *)
Theorem add_months_direction (d d' : date) (n : Z) :
  valid_date d ->
  add_months d n = Returns d' ->
  (0 < n -> date_lt d d') /\ (n < 0 -> date_lt d' d).
Proof.
  intros Hd H.
  destruct (add_months_inv _ _ _ Hd H) as (Hv & Hidx & _).
  split; intros Hn; apply month_index_lt_date_lt; try assumption; lia.
Qed.

Lemma add_months_direction_witness :
  (0 < 1 -> date_lt (mkDate 2024 1 31) (mkDate 2024 2 29))
  /\ (1 < 0 -> date_lt (mkDate 2024 2 29) (mkDate 2024 1 31)).
Proof.
  apply (add_months_direction (mkDate 2024 1 31) (mkDate 2024 2 29) 1);
    [valid_date_tac | reflexivity].
Defined.

(** X4.  The day of month of a monthly rule's occurrences never grows: a
    later occurrence falls on the same day or an earlier one, and from an
    occurrence on the 28th or before the day no longer changes. *)
Theorem occurrence_day_drift (d a b : date) (k j : nat) :
  valid_date d ->
  occurrence d k = Returns a ->
  occurrence d (k + j) = Returns b ->
  day b <= day a /\ (day a <= 28 -> day b = day a).
Proof.
  intros Hd Ha. revert b. induction j as [| j IH]; intros b Hb.
  - rewrite Nat.add_0_r, Ha in Hb. injection Hb as <-. lia.
  - rewrite Nat.add_succ_r in Hb. simpl in Hb.
    destruct (occurrence d (k + j)) as [c | |] eqn:Hc; simpl in Hb;
      try discriminate.
    destruct (IH c eq_refl) as [Hle Hsame].
    destruct (occurrence_month_index _ _ _ Hd Hc) as [Hvc _].
    destruct (add_months_inv _ _ _ Hvc Hb) as ((_ & Hm & _) & _ & Hday).
    pose proof (days_in_month_pos (year b) (month b) Hm). lia.
Qed.

Lemma occurrence_day_drift_witness :
  day (mkDate 2023 3 28) <= day (mkDate 2023 1 31)
  /\ (day (mkDate 2023 1 31) <= 28 ->
      day (mkDate 2023 3 28) = day (mkDate 2023 1 31)).
Proof.
  apply (occurrence_day_drift (mkDate 2023 1 31) (mkDate 2023 1 31)
           (mkDate 2023 3 28) 0 2);
    [valid_date_tac | reflexivity | reflexivity].
Defined.

(** ** Categories *)

Lemma categories_size_0 (db : database) :
  size (categories db) = 0%nat <-> categories db = ∅.
Proof. rewrite size_empty_iff. apply leibniz_equiv_iff. Qed.

(** X5.  Starting the app on an existing file: the default categories come
    back when, and only when, every category was deleted; otherwise the file
    is untouched, whatever categories it holds.  Running [init_db] twice is
    running it once, and no table other than categories ever changes. *)
Theorem init_db_on_seeds (db : database) :
  (categories db = ∅ -> categories (init_db_on db) = categories init_db)
  /\ (categories db <> ∅ -> init_db_on db = db)
  /\ init_db_on (init_db_on db) = init_db_on db
  /\ categories db ⊆ categories (init_db_on db)
  /\ transactions (init_db_on db) = transactions db
  /\ budgets (init_db_on db) = budgets db
  /\ recurring (init_db_on db) = recurring db.
Proof.
  destruct (decide (categories db = ∅)) as [E | E].
  - assert (H0 : size (categories db) = 0%nat)
      by (apply categories_size_0; assumption).
    unfold init_db_on. rewrite (bool_decide_eq_true_2 _ H0). simpl.
    rewrite bool_decide_eq_false_2
      by (rewrite size_empty_iff; set_solver).
    rewrite E. repeat split; try reflexivity; try contradiction; set_solver.
  - assert (H0 : size (categories db) <> 0%nat)
      by (rewrite categories_size_0; assumption).
    unfold init_db_on. rewrite !(bool_decide_eq_false_2 _ H0).
    cbv iota. rewrite ?(bool_decide_eq_false_2 _ H0).
    repeat split; try reflexivity; try contradiction.
Qed.

Lemma init_db_on_seeds_witness :
  categories (init_db_on (delete_category "Food"
                            (upsert_category "Food" (store_with []))))
  = categories init_db.
Proof.
  apply init_db_on_seeds. simpl. set_solver.
Defined.

(** X6.  [list_categories] returns every category exactly once, in strictly
    ascending byte order of the names. *)
Theorem list_categories_sorted (db : database) :
  StronglySorted String.le (list_categories db)
  /\ NoDup (list_categories db)
  /\ forall c : string, (c ∈ list_categories db) <-> (c ∈ categories db).
Proof.
  unfold list_categories. split; [| split].
  - apply StronglySorted_merge_sort; apply _.
  - rewrite merge_sort_Permutation. apply NoDup_elements.
  - intros c. rewrite merge_sort_Permutation. apply elem_of_elements.
Qed.

Lemma database_eq (db1 db2 : database) :
  transactions db1 = transactions db2 ->
  transactions_seq db1 = transactions_seq db2 ->
  categories db1 = categories db2 ->
  budgets db1 = budgets db2 ->
  budgets_seq db1 = budgets_seq db2 ->
  recurring db1 = recurring db2 ->
  recurring_seq db1 = recurring_seq db2 ->
  db1 = db2.
Proof. destruct db1, db2; simpl; intros; subst; reflexivity. Qed.

(** X7.  [upsert_category] adds the one name and ignores a name that is
    there already; deleting a name just added, or adding back a name just
    deleted, gives the store back. *)
Theorem upsert_delete_category (c : string) (db : database) :
  (forall x : string,
      (x ∈ categories (upsert_category c db)) <-> x = c \/ (x ∈ categories db))
  /\ upsert_category c (upsert_category c db) = upsert_category c db
  /\ ((c ∈ categories db) -> upsert_category c db = db)
  /\ ((c ∉ categories db) -> delete_category c (upsert_category c db) = db)
  /\ ((c ∈ categories db) -> upsert_category c (delete_category c db) = db).
Proof.
  split; [intros x; simpl; set_solver |].
  split; [apply database_eq; simpl; try reflexivity; set_solver |].
  split; [intros H; apply database_eq; simpl; try reflexivity; set_solver |].
  split; [intros H; apply database_eq; simpl; try reflexivity; set_solver |].
  intros H. apply database_eq; simpl; try reflexivity.
  apply set_eq. intros x. rewrite elem_of_union, elem_of_difference,
    elem_of_singleton.
  destruct (decide (x = c)) as [-> | Hx]; tauto.
Qed.

Lemma upsert_delete_category_witness :
  upsert_category "Rent" (delete_category "Rent" init_db) = init_db.
Proof.
  apply upsert_delete_category. simpl. set_solver.
Defined.

(** ** Budgets by month *)

Lemma elem_of_get_budgets_df (month : string) (db : database) (b : budget) :
  b ∈ get_budgets_df month db <-> b ∈ budgets db /\ b_month b = month.
Proof.
  unfold get_budgets_df. rewrite merge_sort_Permutation.
  rewrite !list_elem_of_In, List.filter_In, String.eqb_eq. reflexivity.
Qed.

Lemma elem_of_budget_rows month category (l : list budget) (b : budget) :
  b ∈ budget_rows month category l
  <-> b ∈ l /\ b_month b = month /\ b_category b = category.
Proof.
  unfold budget_rows.
  rewrite !list_elem_of_In, List.filter_In, same_budget_key_eq. reflexivity.
Qed.

Lemma overwrite_other_month m c a m' (l : list budget) :
  m' <> m ->
  List.filter (fun b => String.eqb (b_month b) m') (overwrite m c a <$> l)
  = List.filter (fun b => String.eqb (b_month b) m') l.
Proof.
  intros Hm. induction l as [| b l IH]; [reflexivity |].
  rewrite fmap_cons. cbn [List.filter]. rewrite IH.
  unfold overwrite at 1 2.
  destruct (same_budget_key m c b) eqn:K; [| reflexivity].
  apply same_budget_key_eq in K as [Kb _]. simpl.
  destruct (String.eqb_spec (b_month b) m'); [congruence | reflexivity].
Qed.

(** X8.  What [get_budgets_df] shows after [set_budget month category
    amount], on a budgets table that meets its UNIQUE constraint: the month's
    rows hold exactly one row for the category, with the new amount; the
    month's rows for other categories are still there; and the rows of every
    other month are the same list as before. *)
Theorem get_budgets_df_after_set_budget (db : database)
    (month category : string) (amount : Q) :
  budgets_unique (budgets db) ->
  (exists b : budget,
      (b ∈ get_budgets_df month (set_budget month category amount db))
      /\ b_category b = category /\ b_amount b = amount
      /\ forall b' : budget,
          (b' ∈ get_budgets_df month (set_budget month category amount db)) ->
          b_category b' = category -> b' = b)
  /\ (forall b : budget,
         (b ∈ get_budgets_df month db) -> b_category b <> category ->
         b ∈ get_budgets_df month (set_budget month category amount db))
  /\ (forall month' : string,
         month' <> month ->
         get_budgets_df month' (set_budget month category amount db)
         = get_budgets_df month' db).
Proof.
  intros Hu. split; [| split].
  - pose proof (set_budget_unique month category amount db Hu month category)
      as Hone.
    pose proof (budget_rows_some _ _ _
                  (set_budget_present month category amount db)) as Hsome.
    destruct (budget_rows month category
                (budgets (set_budget month category amount db)))
      as [| b [| b2 l]] eqn:E; [contradiction | | simpl in Hone; lia].
    assert (Hb : b ∈ budget_rows month category
                   (budgets (set_budget month category amount db)))
      by (rewrite E; apply list_elem_of_here).
    apply elem_of_budget_rows in Hb as (Hin & Hm & Hc).
    exists b. split; [apply elem_of_get_budgets_df; auto |].
    split; [assumption |]. split.
    + rewrite set_budget_budgets in Hin.
      destruct (existsb (same_budget_key month category) (budgets db)) eqn:E0.
      * apply list_elem_of_fmap in Hin as (b0 & -> & _).
        unfold overwrite in *.
        destruct (same_budget_key month category b0) eqn:K; [reflexivity |].
        exfalso. apply not_true_iff_false in K. apply K.
        apply same_budget_key_eq. auto.
      * apply elem_of_app in Hin as [Hin | Hin].
        -- exfalso. apply not_true_iff_false in E0. apply E0.
           apply existsb_exists. exists b. split.
           ++ apply list_elem_of_In. assumption.
           ++ apply same_budget_key_eq. auto.
        -- apply list_elem_of_singleton in Hin. subst b. reflexivity.
    + intros b' Hb' Hc'. apply elem_of_get_budgets_df in Hb' as [Hin' Hm'].
      assert (Hrow : b' ∈ budget_rows month category
                       (budgets (set_budget month category amount db)))
        by (apply elem_of_budget_rows; auto).
      rewrite E in Hrow. apply list_elem_of_singleton in Hrow. assumption.
  - intros b Hb Hc. apply elem_of_get_budgets_df in Hb as [Hin Hm].
    apply elem_of_get_budgets_df. split; [| assumption].
    rewrite set_budget_budgets. destruct (existsb _ (budgets db)).
    + apply list_elem_of_fmap. exists b. split; [| assumption].
      unfold overwrite. destruct (same_budget_key month category b) eqn:K;
        [| reflexivity].
      apply same_budget_key_eq in K. tauto.
    + apply elem_of_app. left. assumption.
  - intros month' Hm. unfold get_budgets_df. f_equal.
    rewrite set_budget_budgets. destruct (existsb _ (budgets db)).
    + apply overwrite_other_month. assumption.
    + rewrite List.filter_app. simpl.
      destruct (String.eqb_spec month month'); [congruence |].
      apply app_nil_r.
Qed.

Lemma get_budgets_df_after_set_budget_witness :
  get_budgets_df "2024-04"
    (set_budget "2024-03" "Food" 1000 (set_budget "2024-04" "Rent" 500 init_db))
  = get_budgets_df "2024-04" (set_budget "2024-04" "Rent" 500 init_db).
Proof.
  apply (get_budgets_df_after_set_budget
           (set_budget "2024-04" "Rent" 500 init_db) "2024-03" "Food" 1000).
  - apply set_budget_unique. intros month category. simpl. lia.
  - intros H. discriminate H.
Defined.

(** ** Transaction ids *)

Lemma foldr_max_ge (s : Z) (l : list Z) :
  s <= foldr Z.max s l /\ forall x, x ∈ l -> x <= foldr Z.max s l.
Proof.
  induction l as [| y l [IHs IHl]]; simpl.
  - split; [lia |]. intros x Hx. inversion Hx.
  - split; [lia |]. intros x Hx. apply elem_of_cons in Hx as [-> | Hx].
    + lia.
    + specialize (IHl x Hx). lia.
Qed.

Lemma foldr_max_snoc (s x : Z) (l : list Z) :
  foldr Z.max s (l ++ [x]) = foldr Z.max (Z.max x s) l.
Proof. rewrite foldr_app. reflexivity. Qed.

Lemma foldr_max_above (s s' : Z) (l : list Z) :
  foldr Z.max s l <= s' -> foldr Z.max s' l = s'.
Proof.
  induction l as [| y l IH]; simpl; [reflexivity |].
  intros H. rewrite IH by lia. lia.
Qed.

Lemma top_id_bound (db : database) (t : transaction) :
  t ∈ transactions db -> t_id t <= top_id db.
Proof.
  intros Ht. unfold top_id.
  apply (proj2 (foldr_max_ge (transactions_seq db) (t_id <$> transactions db))).
  apply list_elem_of_fmap. eauto.
Qed.

Lemma insert_transaction_top d ty c desc a acc db :
  transactions (insert_transaction d ty c desc a acc db)
  = transactions db ++ [mkTransaction (top_id db + 1) d ty c desc a acc]
  /\ top_id (insert_transaction d ty c desc a acc db) = top_id db + 1.
Proof.
  split; [reflexivity |].
  unfold top_id, insert_transaction, next_rowid. simpl.
  rewrite fmap_app. simpl. rewrite foldr_max_snoc, Z.max_id.
  apply (foldr_max_above (transactions_seq db)). lia.
Qed.

Lemma post_all_ids r ds db :
  exists new,
    transactions (post_all r ds db) = transactions db ++ new
    /\ t_id <$> new = seqZ (top_id db + 1) (Z.of_nat (length new))
    /\ top_id (post_all r ds db) = top_id db + Z.of_nat (length new).
Proof.
  revert db. induction ds as [| d ds IH]; intros db.
  - exists []. simpl. rewrite app_nil_r, Z.add_0_r. auto.
  - destruct (IH (post r db d)) as (new & Ht & Hids & Htop).
    destruct (insert_transaction_top d (r_ttype r) (r_category r)
                (r_description r) (r_amount r) (Some "Recurring") db)
      as [Hrow Htop1].
    fold (post r db d) in Hrow, Htop1.
    change (post_all r (d :: ds) db) with (post_all r ds (post r db d)).
    eexists (_ :: new). split; [| split].
    + rewrite Ht, Hrow, <- app_assoc. reflexivity.
    + rewrite fmap_cons, Hids, Htop1. cbn [length t_id].
      rewrite (seqZ_cons (top_id db + 1)) by lia. do 2 f_equal; lia.
    + rewrite Htop, Htop1. cbn [length]. lia.
Qed.

Lemma settle_top r s db :
  transactions (settle r s db) = transactions (post_all r s.1 db)
  /\ top_id (settle r s db) = top_id (post_all r s.1 db).
Proof. unfold settle. destruct (negb _); auto. Qed.

Lemma replay_ids rows p db :
  exists new,
    transactions (replay rows p db) = transactions db ++ new
    /\ t_id <$> new = seqZ (top_id db + 1) (Z.of_nat (length new))
    /\ top_id (replay rows p db) = top_id db + Z.of_nat (length new).
Proof.
  revert p db. induction rows as [| r rows IH]; intros p db.
  - exists []. simpl. rewrite app_nil_r, Z.add_0_r. auto.
  - destruct p as [| s p].
    + exists []. simpl. rewrite app_nil_r, Z.add_0_r. auto.
    + simpl. destruct (IH p (settle r s db)) as (new2 & Ht2 & Hids2 & Htop2).
      destruct (post_all_ids r s.1 db) as (new1 & Ht1 & Hids1 & Htop1).
      destruct (settle_top r s db) as [Hst Hstop].
      exists (new1 ++ new2). split; [| split].
      * rewrite Ht2, Hst, Ht1, <- app_assoc. reflexivity.
      * rewrite fmap_app, Hids1, Hids2, Hstop, Htop1, length_app.
        rewrite Nat2Z.inj_add, seqZ_app by lia.
        do 2 f_equal. lia.
      * rewrite Htop2, Hstop, Htop1, length_app. lia.
Qed.

Lemma NoDup_ids_app (old new : list Z) (top : Z) (n : Z) :
  NoDup old -> (forall x, x ∈ old -> x <= top) -> new = seqZ (top + 1) n ->
  NoDup (old ++ new).
Proof.
  intros Hold Hle ->. apply NoDup_app. split; [assumption |].
  split; [| apply NoDup_seqZ].
  intros x Hx Hin. apply elem_of_seqZ in Hin. specialize (Hle x Hx). lia.
Qed.

Lemma pass_ids (fuel : nat) (now : date)
    (db db' : database) (made : Z) :
  apply_recurring fuel now db = Returns (db', made) ->
  exists new : list transaction,
    transactions db' = transactions db ++ new
    /\ Z.of_nat (length new) = made
    /\ t_id <$> new = seqZ (top_id db + 1) made
    /\ top_id db' = top_id db + made
    /\ (NoDup (t_id <$> transactions db) -> NoDup (t_id <$> transactions db')).
Proof.
  intros Hrun. rewrite apply_recurring_plan in Hrun.
  destruct (plan fuel now (recurring db)) as [p | |] eqn:Hp; simpl in Hrun;
    try discriminate.
  injection Hrun as <- <-.
  destruct (replay_ids (recurring db) p db) as (new & Ht & Hids & Htop).
  destruct (replay_transactions (recurring db) p db) as (blocks & Ht' & Hb).
  destruct (blocks_posted _ _ _ (plan_length _ _ _ _ Hp) Hb) as [Hposted _].
  assert (Hnew : new = concat blocks).
  { rewrite Ht in Ht'. apply app_inv_head in Ht'. assumption. }
  assert (Hlen : Z.of_nat (length new) = posted p) by (rewrite Hnew; assumption).
  exists new. rewrite <- Hlen.
  split; [assumption |]. split; [reflexivity |].
  split; [assumption |]. split; [assumption |].
  intros Hnodup. rewrite Ht, fmap_app.
  apply (NoDup_ids_app _ _ (top_id db) (Z.of_nat (length new)));
    [assumption | | assumption].
  intros x Hx. apply list_elem_of_fmap in Hx as (t & -> & Ht0).
  apply top_id_bound. assumption.
Qed.

(** X9.  A pass of [apply_recurring] that returns numbers the rows it adds
    consecutively, starting one above the largest id the transactions table
    ever held; so the ids of the table stay distinct, and no id of a deleted
    row comes back. *)
Theorem apply_recurring_fresh_ids (fuel : nat) (now : date)
    (db db' : database) (made : Z) :
  apply_recurring fuel now db = Returns (db', made) ->
  exists new : list transaction,
    transactions db' = transactions db ++ new
    /\ Z.of_nat (length new) = made
    /\ t_id <$> new = seqZ (top_id db + 1) made
    /\ top_id db' = top_id db + made
    /\ (NoDup (t_id <$> transactions db) -> NoDup (t_id <$> transactions db')).
Proof.
  apply pass_ids.
Qed.

Lemma apply_recurring_fresh_ids_witness :
  exists new : list transaction,
    t_id <$> new = seqZ (top_id (store_with [rent_rule; gym_rule]) + 1) 4.
Proof.
  destruct (apply_recurring_fresh_ids 5 (mkDate 2024 4 10)
              (store_with [rent_rule; gym_rule]) _ _ eq_refl)
    as (new & _ & _ & Hids & _).
  exists new. exact Hids.
Defined.

(** X10.  AUTOINCREMENT as the app uses it: an inserted transaction gets an
    id above every id in the table; deleting that row gives the table back;
    and the next insert gets a larger id still, never the deleted one. *)
Theorem transaction_id_not_reused (db : database)
    (d1 d2 : date) (ty1 ty2 : ttype) (c1 c2 : string)
    (desc1 desc2 : option string) (a1 a2 : Q) (acc1 acc2 : option string) :
  let db1 := insert_transaction d1 ty1 c1 desc1 a1 acc1 db in
  exists t1 t2 : transaction,
    transactions db1 = transactions db ++ [t1]
    /\ columns t1 = (d1, ty1, c1, desc1, a1, acc1)
    /\ (forall t : transaction, (t ∈ transactions db) -> t_id t < t_id t1)
    /\ transactions (delete_transaction (t_id t1) db1) = transactions db
    /\ transactions
         (insert_transaction d2 ty2 c2 desc2 a2 acc2
            (delete_transaction (t_id t1) db1))
       = transactions db ++ [t2]
    /\ t_id t1 < t_id t2.
Proof.
  intros db1.
  destruct (insert_transaction_top d1 ty1 c1 desc1 a1 acc1 db) as [Hrow Htop].
  fold db1 in Hrow, Htop.
  assert (Hdel : transactions (delete_transaction (top_id db + 1) db1)
                 = transactions db).
  { unfold delete_transaction. cbn [transactions]. rewrite Hrow.
    rewrite List.filter_app. simpl. rewrite Z.eqb_refl. simpl.
    rewrite app_nil_r. apply forallb_filter_id.
    apply forallb_forall. intros t Ht. apply list_elem_of_In in Ht.
    apply top_id_bound in Ht. apply negb_true_iff, Z.eqb_neq. lia. }
  destruct (insert_transaction_top d2 ty2 c2 desc2 a2 acc2
              (delete_transaction (top_id db + 1) db1)) as [Hrow2 _].
  eexists _, _. split; [exact Hrow |]. split; [reflexivity |].
  split; [| split; [cbn [t_id]; exact Hdel | split]].
  - intros t Ht. apply top_id_bound in Ht. cbn [t_id]. lia.
  - cbn [t_id]. rewrite Hrow2, Hdel. reflexivity.
  - cbn [t_id].
    assert (top_id db + 1 <= top_id (delete_transaction (top_id db + 1) db1)).
    { unfold top_id at 2. cbn [transactions_seq delete_transaction].
      etransitivity; [| apply (proj1 (foldr_max_ge _ _))].
      unfold db1, insert_transaction, next_rowid. simpl. fold (top_id db). lia. }
    lia.
Qed.

(** ** What a pass of the poster leaves alone *)

Lemma same_rule_refl (rows : list recurring_rule) : Forall2 same_rule rows rows.
Proof. induction rows; constructor; [repeat split | assumption]. Qed.

Lemma same_rule_move id e (rows : list recurring_rule) :
  Forall2 same_rule rows (move id e rows).
Proof.
  induction rows as [| r rows IH]; [constructor |].
  unfold move. rewrite fmap_cons. constructor; [| exact IH].
  destruct (r_id r =? id); repeat split.
Qed.

Lemma same_rule_trans (l1 l2 l3 : list recurring_rule) :
  Forall2 same_rule l1 l2 -> Forall2 same_rule l2 l3 -> Forall2 same_rule l1 l3.
Proof.
  intros H12. revert l3. induction H12 as [| r1 r2 l1 l2 H _ IH]; intros l3 H23.
  - inversion H23; constructor.
  - inversion H23 as [| ? r3 ? l3' H' Hrest]; subst. constructor; [| auto].
    unfold same_rule in *. intuition congruence.
Qed.

Lemma post_all_frame r ds db :
  categories (post_all r ds db) = categories db
  /\ budgets (post_all r ds db) = budgets db
  /\ budgets_seq (post_all r ds db) = budgets_seq db
  /\ recurring_seq (post_all r ds db) = recurring_seq db.
Proof.
  revert db. induction ds as [| d ds IH]; intros db; [auto |].
  change (post_all r (d :: ds) db) with (post_all r ds (post r db d)).
  destruct (IH (post r db d)) as (-> & -> & -> & ->). auto.
Qed.

Lemma settle_frame r s db :
  categories (settle r s db) = categories db
  /\ budgets (settle r s db) = budgets db
  /\ budgets_seq (settle r s db) = budgets_seq db
  /\ recurring_seq (settle r s db) = recurring_seq db
  /\ Forall2 same_rule (recurring db) (recurring (settle r s db)).
Proof.
  destruct (post_all_frame r s.1 db) as (Hc & Hb & Hbs & Hrs).
  unfold settle. destruct (negb _); cbn [update_next_date categories budgets
    budgets_seq recurring_seq recurring]; rewrite ?post_all_recurring.
  - repeat (split; [assumption |]). apply same_rule_move.
  - repeat (split; [assumption |]). apply same_rule_refl.
Qed.

Lemma replay_frame rows p db :
  categories (replay rows p db) = categories db
  /\ budgets (replay rows p db) = budgets db
  /\ budgets_seq (replay rows p db) = budgets_seq db
  /\ recurring_seq (replay rows p db) = recurring_seq db
  /\ Forall2 same_rule (recurring db) (recurring (replay rows p db)).
Proof.
  revert p db. induction rows as [| r rows IH]; intros p db.
  - simpl. repeat (split; [reflexivity |]). apply same_rule_refl.
  - destruct p as [| s p].
    + simpl. repeat (split; [reflexivity |]). apply same_rule_refl.
    + simpl. destruct (IH p (settle r s db)) as (-> & -> & -> & -> & Hr).
      destruct (settle_frame r s db) as (-> & -> & -> & -> & Hr0).
      repeat (split; [reflexivity |]).
      apply (same_rule_trans _ _ _ Hr0 Hr).
Qed.

(** X11.  A pass of [apply_recurring] that returns changes nothing but the
    transactions table and the next_date of rules: categories and budgets
    are as before, and the rule table holds the same rules in the same order
    with the same id, type, category, description, amount and interval. *)
Theorem apply_recurring_frame (fuel : nat) (now : date) (db db' : database)
    (made : Z) :
  apply_recurring fuel now db = Returns (db', made) ->
  categories db' = categories db
  /\ budgets db' = budgets db
  /\ budgets_seq db' = budgets_seq db
  /\ recurring_seq db' = recurring_seq db
  /\ Forall2 same_rule (recurring db) (recurring db').
Proof.
  intros Hrun. rewrite apply_recurring_plan in Hrun.
  destruct (plan fuel now (recurring db)) as [p | |]; simpl in Hrun;
    try discriminate.
  injection Hrun as <- _. apply replay_frame.
Qed.

Lemma apply_recurring_frame_witness :
  exists db' : database,
    apply_recurring 5 (mkDate 2024 4 10) (store_with [rent_rule; gym_rule])
    = Returns (db', 4)
    /\ Forall2 same_rule [rent_rule; gym_rule] (recurring db').
Proof.
  eexists. split; [reflexivity |].
  eapply (apply_recurring_frame 5 (mkDate 2024 4 10)
            (store_with [rent_rule; gym_rule])).
  reflexivity.
Defined.

Lemma due_dates_on_or_before fuel now is_monthly d ds e :
  due_dates fuel now is_monthly d = Returns (ds, e) ->
  Forall (fun x => date_le x now) ds.
Proof.
  revert d ds e. induction fuel as [| fuel IH]; intros d ds e; simpl.
  - destruct (date_leb d now); [discriminate |]. intros [= <- _]. constructor.
  - destruct (date_leb d now) eqn:E; [| intros [= <- _]; constructor].
    destruct is_monthly.
    + destruct (add_months d 1) as [d' | |]; simpl; try discriminate.
      destruct (due_dates fuel now true d') as [[ds' e'] | |] eqn:Hs; simpl;
        try discriminate.
      intros [= <- _]. constructor; [exact E | eapply IH; eassumption].
    + intros [= <- _]. repeat constructor. exact E.
Qed.

Lemma pass_rows (fuel : nat) (now : date) (db db' : database) (made : Z) :
  apply_recurring fuel now db = Returns (db', made) ->
  exists new : list transaction,
    transactions db' = transactions db ++ new
    /\ made = Z.of_nat (length new)
    /\ forall t : transaction,
        (t ∈ new) ->
        date_le (t_date t) now
        /\ exists r : recurring_rule,
            (r ∈ recurring db) /\ columns t = posting r (t_date t).
Proof.
  intros Hrun. rewrite apply_recurring_plan in Hrun.
  destruct (plan fuel now (recurring db)) as [p | |] eqn:Hp; simpl in Hrun;
    try discriminate.
  injection Hrun as <- <-.
  destruct (replay_transactions (recurring db) p db) as (blocks & Ht & Hb).
  destruct (blocks_posted _ _ _ (plan_length _ _ _ _ Hp) Hb) as [Hposted _].
  exists (concat blocks). split; [assumption |]. split; [auto |].
  intros t Ht0. apply list_elem_of_In, in_concat in Ht0 as (block & Hblock & Htb).
  apply list_elem_of_In in Hblock. apply list_elem_of_In in Htb.
  apply list_elem_of_lookup in Hblock as [i Hi].
  destruct (Forall2_lookup_r _ _ _ _ _ Hb Hi) as ([r s] & Hz & Hc).
  apply lookup_zip_with_Some in Hz as (r0 & s0 & [= <- <-] & Hr & Hs).
  destruct (plan_lookup _ _ _ _ _ _ Hp Hr) as (s' & Hs' & Hsched).
  assert (s' = s) as -> by congruence.
  apply list_elem_of_lookup in Htb as [k Hk].
  destruct (block_row _ _ _ _ _ Hc Hk) as (dk & Hdk & Hcols).
  assert (Hdate : t_date t = dk) by (injection Hcols; auto).
  destruct s as [ds e]. unfold schedule in Hsched.
  apply due_dates_on_or_before in Hsched.
  rewrite Forall_lookup in Hsched. specialize (Hsched k dk Hdk).
  rewrite Hdate. split; [exact Hsched |].
  exists r. split; [eapply list_elem_of_lookup_2; eassumption | assumption].
Qed.

(** X12.  Every row a pass of [apply_recurring] adds comes from a rule of
    the table: it carries that rule's type, category, description and amount
    with account "Recurring", and it is dated on or before [now], never in
    the future.  The rows already in the table are kept in place, and the
    count returned is the number of rows added. *)
Theorem apply_recurring_rows (fuel : nat) (now : date) (db db' : database)
    (made : Z) :
  apply_recurring fuel now db = Returns (db', made) ->
  exists new : list transaction,
    transactions db' = transactions db ++ new
    /\ made = Z.of_nat (length new)
    /\ forall t : transaction,
        (t ∈ new) ->
        date_le (t_date t) now
        /\ exists r : recurring_rule,
            (r ∈ recurring db) /\ columns t = posting r (t_date t).
Proof.
  apply pass_rows.
Qed.

Lemma apply_recurring_rows_witness :
  exists new : list transaction,
    length new = 4%nat
    /\ forall t : transaction, (t ∈ new) -> date_le (t_date t) (mkDate 2024 4 10).
Proof.
  destruct (apply_recurring_rows 5 (mkDate 2024 4 10)
              (store_with [rent_rule; gym_rule]) _ _ eq_refl)
    as (new & _ & Hmade & Hrows).
  exists new. split; [apply Nat2Z.inj; rewrite <- Hmade; reflexivity |].
  intros t Ht. apply Hrows. assumption.
Defined.

Lemma due_dates_due fuel now is_monthly d ds e :
  date_leb d now = true ->
  due_dates fuel now is_monthly d = Returns (ds, e) -> ds <> [].
Proof.
  intros Hdue. destruct fuel as [| fuel]; simpl; rewrite Hdue; [discriminate |].
  destruct is_monthly.
  - destruct (add_months d 1) as [d' | |]; simpl; try discriminate.
    destruct (due_dates fuel now true d') as [[ds' e'] | |]; simpl;
      try discriminate.
    intros [= <- _]. discriminate.
  - intros [= <- _]. discriminate.
Qed.

Lemma posted_nonneg p : 0 <= posted p.
Proof. unfold posted. lia. Qed.

Lemma posted_0 p (s : list date * date) : posted p = 0 -> s ∈ p -> s.1 = [].
Proof.
  induction p as [| s0 p IH]; intros H Hs; [inversion Hs |].
  rewrite posted_cons in H. pose proof (posted_nonneg p).
  apply elem_of_cons in Hs as [-> | Hs].
  - destruct (s0.1); [reflexivity | simpl in H; lia].
  - apply IH; [lia | assumption].
Qed.

(** X13.  When no rule is due (an empty rule table included) the pass
    returns 0 and the store as it was, whatever the step budget; and a pass
    that returns 0 had no rule due.  The count is never negative. *)
Theorem apply_recurring_nothing_due (now : date) (db : database) :
  (Forall (fun r => date_lt now (r_next_date r)) (recurring db) ->
   forall fuel : nat, apply_recurring fuel now db = Returns (db, 0))
  /\ (forall (fuel : nat) (db' : database) (made : Z),
         apply_recurring fuel now db = Returns (db', made) ->
         0 <= made
         /\ (made = 0 ->
             Forall (fun r => date_lt now (r_next_date r)) (recurring db))).
Proof.
  split.
  - intros Hidle fuel. unfold apply_recurring. apply for_rows_idle, Hidle.
  - intros fuel db' made Hrun. rewrite apply_recurring_plan in Hrun.
    destruct (plan fuel now (recurring db)) as [p | |] eqn:Hp; simpl in Hrun;
      try discriminate.
    injection Hrun as _ <-. split; [apply posted_nonneg |].
    intros H0. apply Forall_lookup. intros i r Hr.
    destruct (plan_lookup _ _ _ _ _ _ Hp Hr) as ([ds e] & Hs & Hsched).
    apply list_elem_of_lookup_2 in Hs. apply (posted_0 p _ H0) in Hs.
    simpl in Hs. subst ds. unfold date_lt.
    destruct (date_leb (r_next_date r) now) eqn:E; [| reflexivity].
    exfalso. apply (due_dates_due _ _ _ _ _ _ E Hsched). reflexivity.
Qed.

Lemma apply_recurring_nothing_due_witness :
  apply_recurring 0 (mkDate 2023 12 31) (store_with [rent_rule; gym_rule])
  = Returns (store_with [rent_rule; gym_rule], 0).
Proof.
  apply apply_recurring_nothing_due. repeat constructor.
Defined.

(** ** Search *)

Lemma search_only_holds s t :
  s <> "" -> Z.of_nat (String.length s) <= 49998 ->
  where_holds (where_clauses (search_only s)) t
  = Returns (like_null ("%" +:+ s +:+ "%") (t_description t)
             || like_null ("%" +:+ s +:+ "%") (t_account t)).
Proof.
  intros Hs Hlen. rewrite (where_clauses_q (search_only s) s eq_refl Hs).
  rewrite where_holds_app.
  change (where_holds (where_clauses (without_q (search_only s))) t)
    with (Returns (A:=bool) true).
  cbn [where_holds mbind outcome_bind]. rewrite (q_clause_short s t Hlen).
  simpl. destruct (_ || _); reflexivity.
Qed.

Lemma contains_found s x :
  Z.of_nat (String.length s) <= 49998 ->
  contains_ci s x -> like_null ("%" +:+ s +:+ "%") x = true.
Proof.
  intros Hlen Hc. apply (like_contains_complete s _ Hlen) in Hc.
  rewrite like_short in Hc by (rewrite pattern_length; lia).
  injection Hc as Hc. exact Hc.
Qed.




Lemma code_points_copies n :
  code_points (copies n "_") = Some (replicate n 95).
Proof.
  induction n as [| n IH]; [reflexivity |].
  change (copies (S n) "_") with (String "_" (copies n "_")).
  cbn [code_points]. cbv zeta.
  change (byte_value "_") with 95. change (95 <? 128) with true.
  cbv iota. rewrite IH. reflexivity.
Qed.

Lemma patternCompare_underscores (n : nat) (p text : list Z) :
  patternCompare (replicate n 95 ++ p) text = true
  <-> exists mid post,
        text = mid ++ post /\ length mid = n /\ patternCompare p post = true.
Proof.
  revert text. induction n as [| n IH]; intros text.
  - simpl. split.
    + intros H. exists [], text. auto.
    + intros (mid & post & -> & Hm & Hp).
      apply length_zero_iff_nil in Hm. subst mid. assumption.
  - cbn [replicate]. rewrite <- app_comm_cons, patternCompare_char by lia.
    destruct text as [| x text].
    + split; [discriminate |]. intros (mid & post & Ht & Hm & _).
      destruct mid; discriminate.
    + change (95 =? 95) with true. rewrite orb_true_r, andb_true_l, IH.
      split.
      * intros (mid & post & -> & Hm & Hp). exists (x :: mid), post.
        simpl. auto.
      * intros (mid & post & Ht & Hm & Hp).
        destruct mid as [| y mid]; [discriminate |].
        simpl in Ht, Hm. injection Ht as -> ->. exists mid, post. auto.
Qed.

Lemma underscores_found (n : nat) (x : option string) :
  Z.of_nat n <= 49998 -> utf8_text x ->
  like_null ("%" +:+ copies n "_" +:+ "%") x = true <-> has_characters n x.
Proof.
  intros Hn Hx. unfold like_null, has_characters.
  destruct x as [text |].
  - destruct Hx as [cs Hcs].
    rewrite (pattern_chars _ _ (code_points_copies n))
      by (apply Forall_replicate; lia).
    rewrite (utf8_chars_code_points _ _ Hcs), fmap_replicate.
    change (as_read 95) with 95.
    rewrite patternCompare_percent_iff. split.
    + intros (pre & rest & Ht & H).
      apply patternCompare_underscores in H as (mid & post & -> & Hm & _).
      exists text, cs. split; [reflexivity |]. split; [assumption |].
      apply (f_equal (@length Z)) in Ht.
      rewrite length_fmap, !length_app in Ht. lia.
    + intros (text' & cs' & [= <-] & Hcs' & Hlen).
      assert (cs' = cs) as -> by congruence.
      exists [], (as_read <$> before_nul cs). split; [reflexivity |].
      apply patternCompare_underscores.
      exists (take n (as_read <$> before_nul cs)),
        (drop n (as_read <$> before_nul cs)).
      split; [symmetry; apply take_drop |].
      split; [| apply patternCompare_any].
      rewrite length_take, length_fmap. lia.
  - split; [discriminate |]. intros (text & cs & H & _). discriminate H.
Qed.

(** X26.  In a search string an underscore stands for one character, not
    one byte: on a store of UTF-8 texts, a search for [n] underscores
    ([n] from 1 to 49998) returns exactly the transactions whose description
    or account has at least [n] characters before its first NUL. *)
Theorem df_transactions_search_underscores (n : nat) (db : database) :
  (0 < n)%nat ->
  Z.of_nat n <= 49998 ->
  utf8_store db ->
  exists rows : list transaction,
    df_transactions (Some (search_only (copies n "_"))) db = Returns rows
    /\ forall t : transaction,
        t ∈ rows
        <-> t ∈ transactions db
            /\ (has_characters n (t_description t)
                \/ has_characters n (t_account t)).
Proof.
  intros Hpos Hn Hdb.
  assert (Hs : copies n "_" <> "") by (destruct n; [lia | discriminate]).
  assert (Hlen : Z.of_nat (String.length (copies n "_")) <= 49998)
    by (rewrite copies_length; assumption).
  eexists. split.
  - apply df_transactions_filter. intros t _.
    apply (search_only_holds _ t Hs Hlen).
  - intros t. rewrite elem_of_filter_rows, orb_true_iff. split.
    + intros (Ht & Hf). split; [assumption |].
      unfold utf8_store in Hdb. rewrite Forall_forall in Hdb.
      destruct (Hdb t Ht) as [Hd Ha].
      destruct Hf as [Hf | Hf]; [left | right];
        apply (underscores_found n _ Hn); assumption.
    + intros (Ht & Hc). split; [assumption |].
      unfold utf8_store in Hdb. rewrite Forall_forall in Hdb.
      destruct (Hdb t Ht) as [Hd Ha].
      destruct Hc as [Hc | Hc]; [left | right];
        apply (underscores_found n _ Hn); assumption.
Qed.

Lemma df_transactions_search_underscores_witness :
  exists rows : list transaction,
    df_transactions (Some (search_only (copies 2 "_")))
      (ledger_with [fffd_row; lunch])
    = Returns rows
    /\ (lunch ∈ rows) /\ ~ (fffd_row ∈ rows).
Proof.
  destruct (df_transactions_search_underscores 2
              (ledger_with [fffd_row; lunch])) as (rows & Hrows & Hin).
  - lia.
  - lia.
  - repeat constructor; try (eexists; reflexivity).
  - exists rows. split; [assumption |]. split.
    + apply Hin. split; [apply list_elem_of_further, list_elem_of_here |].
      left. exists "lunch", [108; 117; 110; 99; 104].
      split; [reflexivity |]. split; [reflexivity | simpl; lia].
    + intros H. apply Hin in H as [_ [H | H]].
      * destruct H as (text & cs & [= <-] & Hcs & Hlen).
        injection Hcs as <-. simpl in Hlen. lia.
      * destruct H as (text & cs & H & _). discriminate H.
Defined.

(** X15.  The rows a pass of [apply_recurring] adds can be found afterwards
    by their account: a search for "recurring", in any case or for any
    non-empty part of it, returns, and every one of them is among its
    rows. *)
Theorem posted_rows_found_by_search (fuel : nat) (now : date)
    (db db' : database) (made : Z) (s : string) :
  apply_recurring fuel now db = Returns (db', made) ->
  s <> "" ->
  contains_ci s (Some "Recurring") ->
  exists new rows : list transaction,
    transactions db' = transactions db ++ new
    /\ made = Z.of_nat (length new)
    /\ df_transactions (Some (search_only s)) db' = Returns rows
    /\ forall t : transaction, (t ∈ new) -> t ∈ rows.
Proof.
  intros Hrun Hs Hc.
  assert (Hlen : Z.of_nat (String.length s) <= 49998).
  { destruct Hc as (text & cs & qs & pre & post & [= <-] & Hcs & Hqs & Hc).
    injection Hcs as <-. apply (f_equal (@length Z)) in Hc.
    rewrite !length_app, !length_fmap in Hc. simpl in Hc.
    pose proof (code_points_length s qs Hqs). lia. }
  destruct (pass_rows _ _ _ _ _ Hrun) as (new & Ht & Hmade & Hrows).
  exists new. eexists. split; [assumption |]. split; [assumption |].
  split.
  - apply df_transactions_filter. intros t _.
    apply (search_only_holds s t Hs Hlen).
  - intros t Hnew. apply elem_of_filter_rows. split.
    + rewrite Ht. apply elem_of_app. right. assumption.
    + destruct (Hrows t Hnew) as [_ (r & _ & Hcols)].
      assert (Hacc : t_account t = Some "Recurring") by (injection Hcols; auto).
      rewrite Hacc. apply orb_true_iff. right.
      apply contains_found; assumption.
Qed.

Lemma posted_rows_found_by_search_witness :
  exists (db' : database) (new rows : list transaction),
    apply_recurring 5 (mkDate 2024 4 10) (store_with [rent_rule])
    = Returns (db', 3)
    /\ length new = 3%nat
    /\ df_transactions (Some (search_only "RECUR")) db' = Returns rows
    /\ forall t : transaction, (t ∈ new) -> t ∈ rows.
Proof.
  destruct (posted_rows_found_by_search 5 (mkDate 2024 4 10)
              (store_with [rent_rule]) _ _ "RECUR" eq_refl)
    as (new & rows & _ & Hmade & Hdf & Hfound).
  - discriminate.
  - exists "Recurring", [82; 101; 99; 117; 114; 114; 105; 110; 103],
      [82; 69; 67; 85; 82], [], [114; 105; 110; 103].
    repeat split; reflexivity.
  - eexists _, new, rows. split; [reflexivity |].
    split; [apply Nat2Z.inj; rewrite <- Hmade; reflexivity |]. auto.
Defined.

Lemma select_rows_refused clauses (keep : transaction -> bool) rows :
  (forall t, where_holds clauses t
             = if keep t then Raises else Returns false) ->
  select_rows clauses rows
  = if existsb keep rows then Raises else Returns [].
Proof.
  intros H. induction rows as [| t rows IH]; [reflexivity |].
  cbn [select_rows existsb]. rewrite H.
  destruct (keep t); [reflexivity |].
  cbn [mbind outcome_bind orb]. rewrite IH.
  destruct (existsb keep rows); reflexivity.
Qed.

Lemma filter_nil_existsb {A : Type} (keep : A -> bool) (l : list A) :
  List.filter keep l = [] <-> existsb keep l = false.
Proof.
  induction l as [| x l IH]; simpl; [tauto |].
  destruct (keep x); simpl; [split; discriminate | exact IH].
Qed.

(** X17.  A search string of more than 49998 bytes.  The engine refuses the
    pattern on the first row that reaches the search clause: the query
    raises when some stored row passes the other filters, and returns no row
    when none does (an empty table included). *)
Theorem df_transactions_search_too_long (f : filters) (s : string)
    (db : database) :
  q f = Some s ->
  49998 < Z.of_nat (String.length s) ->
  exists kept : list transaction,
    df_transactions (Some (without_q f)) db = Returns kept
    /\ (kept <> [] -> df_transactions (Some f) db = Raises)
    /\ (kept = [] -> df_transactions (Some f) db = Returns []).
Proof.
  intros Hq Hlen.
  assert (Hs : s <> "") by (intros ->; simpl in Hlen; lia).
  destruct (where_holds_pure _ (without_q_pure f)) as (keep & Hkeep).
  exists (merge_sort newest_first (List.filter keep (transactions db))).
  split; [apply df_transactions_filter; intros t _; apply Hkeep |].
  assert (Hrow : forall t,
             where_holds (where_clauses f) t
             = if keep t then Raises else Returns false).
  { intros t. rewrite (where_clauses_q f s Hq Hs), where_holds_app, Hkeep.
    simpl. destruct (keep t); [| reflexivity].
    rewrite (q_clause_long s t Hlen). reflexivity. }
  rewrite df_transactions_select.
  rewrite (select_rows_refused _ keep _ Hrow).
  assert (Hnil : merge_sort newest_first
                   (List.filter keep (transactions db)) = []
                 <-> existsb keep (transactions db) = false).
  { rewrite <- filter_nil_existsb. split.
    - intros H. apply (f_equal (@length transaction)) in H.
      rewrite (Permutation_length (merge_sort_Permutation _ _)) in H.
      apply length_zero_iff_nil. exact H.
    - intros ->. reflexivity. }
  destruct (existsb keep (transactions db)).
  - split; [reflexivity |]. intros H. apply Hnil in H. discriminate H.
  - split; [| reflexivity]. intros H. contradiction H. apply Hnil.
    reflexivity.
Qed.

Lemma df_transactions_search_too_long_witness :
  df_transactions (Some (search_only (copies (Z.to_nat 50000) "a")))
    (ledger_with [lunch])
  = Raises.
Proof.
  destruct (df_transactions_search_too_long
              (search_only (copies (Z.to_nat 50000) "a"))
              (copies (Z.to_nat 50000) "a") (ledger_with [lunch]) eq_refl)
    as (kept & Hkept & Hraises & _).
  - rewrite copies_length. lia.
  - apply Hraises. intros ->. discriminate Hkept.
Defined.

(** ** The filtered query *)

Lemma StronglySorted_lookup {A : Type} (R : A -> A -> Prop) (l : list A)
    (i j : nat) (x y : A) :
  StronglySorted R l -> l !! i = Some x -> l !! j = Some y -> (i < j)%nat ->
  R x y.
Proof.
  intros Hl. revert i j. induction Hl as [| z l Hl IH Hz]; intros i j Hi Hj Hij.
  - discriminate Hi.
  - destruct j as [| j]; [lia |]. simpl in Hj.
    destruct i as [| i]; simpl in Hi.
    + injection Hi as <-. rewrite Forall_forall in Hz.
      apply Hz. eapply list_elem_of_lookup_2. eassumption.
    + apply (IH i j); [assumption | assumption | lia].
Qed.

Lemma date_leb_antisym d1 d2 :
  date_leb d1 d2 = true -> date_leb d2 d1 = true -> d1 = d2.
Proof.
  intros H1 H2. apply date_leb_spec in H1. apply date_leb_spec in H2.
  destruct d1, d2; simpl in *. f_equal; lia.
Qed.

Global Instance newest_first_total : Total newest_first.
Proof.
  intros t1 t2. unfold newest_first, date_lt.
  destruct (date_leb (t_date t1) (t_date t2)) eqn:E12; [| auto].
  destruct (date_leb (t_date t2) (t_date t1)) eqn:E21; [| auto].
  pose proof (date_leb_antisym _ _ E12 E21) as Heq.
  destruct (Z.le_ge_cases (t_id t1) (t_id t2)); [right | left]; right;
    split; (congruence || lia).
Qed.

Global Instance newest_first_trans : Transitive newest_first.
Proof.
  intros t1 t2 t3. unfold newest_first, date_lt.
  intros [H12 | [E12 I12]] [H23 | [E23 I23]].
  - left. apply date_leb_false in H12. apply date_leb_false in H23.
    apply date_leb_false. lia.
  - left. rewrite <- E23. assumption.
  - left. rewrite E12. assumption.
  - right. split; [congruence | lia].
Qed.

(** X16.  The rows of a query that returns come newest first: of two rows,
    the later one in the list is dated on or before the earlier one, and
    when both have the same date its id is the smaller or equal one.  The
    rows are rows of the table, none more often than it is stored.  Without
    filters the query always returns, and its rows are all the rows of the
    table. *)
Theorem df_transactions_newest_first (db : database) :
  (forall (f : option filters) (rows : list transaction),
      df_transactions f db = Returns rows ->
      (forall (i j : nat) (ti tj : transaction),
          rows !! i = Some ti -> rows !! j = Some tj -> (i < j)%nat ->
          date_le (t_date tj) (t_date ti)
          /\ (t_date tj = t_date ti -> t_id tj <= t_id ti))
      /\ rows ⊆+ transactions db)
  /\ exists rows : list transaction,
      df_transactions None db = Returns rows
      /\ rows ≡ₚ transactions db.
Proof.
  split.
  - intros f rows Hrows. rewrite df_transactions_select in Hrows.
    destruct (select_rows _ _) as [kept | |] eqn:E; simpl in Hrows;
      try discriminate.
    injection Hrows as <-. split.
    + intros i j ti tj Hi Hj Hij.
      assert (Hs : StronglySorted newest_first (merge_sort newest_first kept))
        by (apply StronglySorted_merge_sort; apply _).
      destruct (StronglySorted_lookup _ _ _ _ _ _ Hs Hi Hj Hij)
        as [Hlt | [Heq Hid]].
      * unfold date_lt in Hlt. apply date_leb_false in Hlt. split.
        -- apply date_leb_spec. lia.
        -- intros H. rewrite H in Hlt. lia.
      * split; [| auto]. rewrite Heq. apply date_leb_spec. lia.
    + rewrite merge_sort_Permutation.
      apply sublist_submseteq, (select_rows_returns _ _ _ E).
  - eexists. split.
    + apply (df_transactions_filter None db (fun _ => true)).
      intros t _. reflexivity.
    + rewrite merge_sort_Permutation.
      rewrite forallb_filter_id; [reflexivity |].
      apply forallb_forall. reflexivity.
Qed.

Lemma df_transactions_newest_first_witness :
  exists (rows : list transaction) (t : transaction),
    df_transactions None (ledger_with [lunch; nul_row; fffd_row])
    = Returns rows
    /\ rows !! 2%nat = Some t
    /\ date_le (t_date t) (mkDate 2024 3 3).
Proof.
  destruct (df_transactions_newest_first
              (ledger_with [lunch; nul_row; fffd_row])) as [Horder _].
  destruct (Horder None [fffd_row; nul_row; lunch] eq_refl) as [Hnewest _].
  exists [fffd_row; nul_row; lunch], lunch.
  split; [reflexivity |]. split; [reflexivity |].
  apply (Hnewest 0%nat 2%nat fffd_row lunch eq_refl eq_refl). lia.
Defined.

Lemma to_lower_byte a : byte_value (to_lower a) = sqlite3Tolower (byte_value a).
Proof. destruct a as [[] [] [] [] [] [] [] []]; reflexivity. Qed.

Lemma to_lower_high a : 128 <= byte_value a -> to_lower a = a.
Proof.
  destruct a as [[] [] [] [] [] [] [] []]; intros H;
    solve [reflexivity | vm_compute in H; contradiction H; reflexivity].
Qed.

Lemma sqlite3Tolower_idem c : sqlite3Tolower (sqlite3Tolower c) = sqlite3Tolower c.
Proof.
  unfold sqlite3Tolower.
  destruct ((65 <=? c) && (c <=? 90)) eqn:E1; [| rewrite E1; reflexivity].
  destruct ((65 <=? c + 32) && (c + 32 <=? 90)) eqn:E2; [lia | reflexivity].
Qed.

Lemma sqlite3Tolower_fix c : sqlite3Tolower (utf8_fix c) = utf8_fix c.
Proof.
  unfold utf8_fix, sqlite3Tolower.
  destruct (c <? 128) eqn:E; simpl; [reflexivity |].
  destruct (_ || _); [reflexivity |].
  destruct ((65 <=? c) && (c <=? 90)) eqn:E1; [lia | reflexivity].
Qed.

Lemma lower_length s : String.length (lower s) = String.length s.
Proof. induction s as [| c s IH]; simpl; [reflexivity | rewrite IH; reflexivity]. Qed.

Lemma lower_nil s : lower s = "" -> s = "".
Proof. destruct s; [reflexivity | discriminate]. Qed.

Lemma lower_app s1 s2 : lower (s1 +:+ s2) = lower s1 +:+ lower s2.
Proof.
  induction s1 as [| c s1 IH]; [reflexivity |].
  rewrite append_cons. simpl. rewrite IH. reflexivity.
Qed.

(** Lower-casing the bytes of a text lower-cases the characters read. *)
Lemma utf8_chars_lower s :
  forall pending,
    utf8_chars pending (lower s) = sqlite3Tolower <$> utf8_chars pending s.
Proof.
  induction s as [| a s IH]; intros pending.
  - destruct pending as [c |]; [| reflexivity].
    simpl. rewrite sqlite3Tolower_fix. reflexivity.
  - destruct (Z.le_gt_cases 128 (byte_value a)) as [Hhigh | Hlow].
    + cbn [lower]. rewrite (to_lower_high a Hhigh). cbn [utf8_chars].
      cbv zeta.
      destruct (Z.eqb_spec (byte_value a) 0); [lia |].
      destruct pending as [c |].
      * destruct (Z.land (byte_value a) 192 =? 128); [apply IH |].
        rewrite fmap_cons, sqlite3Tolower_fix. f_equal.
        destruct (byte_value a <? 192); [| apply IH].
        rewrite fmap_cons, IH. f_equal. unfold sqlite3Tolower.
        destruct ((65 <=? byte_value a) && (byte_value a <=? 90)) eqn:E;
          [lia | reflexivity].
      * destruct (byte_value a <? 192); [| apply IH].
        rewrite fmap_cons, IH. f_equal. unfold sqlite3Tolower.
        destruct ((65 <=? byte_value a) && (byte_value a <=? 90)) eqn:E;
          [lia | reflexivity].
    + assert (Hl : byte_value (to_lower a) < 128).
      { rewrite to_lower_byte. unfold sqlite3Tolower.
        destruct ((65 <=? byte_value a) && (byte_value a <=? 90)) eqn:E; lia. }
      assert (H0 : (byte_value (to_lower a) =? 0) = (byte_value a =? 0)).
      { rewrite to_lower_byte. unfold sqlite3Tolower.
        destruct ((65 <=? byte_value a) && (byte_value a <=? 90)) eqn:E; lia. }
      pose proof (byte_value_range a) as Hr.
      pose proof (byte_value_range (to_lower a)) as Hr'.
      cbn [lower utf8_chars]. cbv zeta.
      rewrite !continuation_bits, H0.
      replace (continuation (byte_value (to_lower a))) with false
        by (unfold continuation; lia).
      replace (continuation (byte_value a)) with false
        by (unfold continuation; lia).
      destruct (Z.ltb_spec (byte_value (to_lower a)) 192); [| lia].
      destruct (Z.ltb_spec (byte_value a) 192); [| lia].
      destruct pending as [c |].
      * rewrite fmap_cons, sqlite3Tolower_fix. f_equal.
        destruct (byte_value a =? 0); [reflexivity |].
        rewrite fmap_cons, IH, to_lower_byte. reflexivity.
      * destruct (byte_value a =? 0); [reflexivity |].
        rewrite fmap_cons, IH, to_lower_byte. reflexivity.
Qed.

Lemma same_char_lower_l c c2 : same_char (sqlite3Tolower c) c2 = same_char c c2.
Proof.
  apply eq_true_iff_eq. rewrite !same_char_spec, sqlite3Tolower_idem.
  reflexivity.
Qed.

Lemma same_char_lower_r c c2 : same_char c (sqlite3Tolower c2) = same_char c c2.
Proof.
  apply eq_true_iff_eq. rewrite !same_char_spec, sqlite3Tolower_idem.
  reflexivity.
Qed.

Lemma sqlite3Tolower_wildcard c :
  (sqlite3Tolower c =? 37) = (c =? 37) /\ (sqlite3Tolower c =? 95) = (c =? 95).
Proof.
  unfold sqlite3Tolower.
  destruct ((65 <=? c) && (c <=? 90)) eqn:E; split; lia.
Qed.

(** The matcher does not see the case of the text. *)
Lemma patternCompare_lower_text p text :
  patternCompare p (sqlite3Tolower <$> text) = patternCompare p text.
Proof.
  revert text. induction p as [| c p IH]; intros text.
  - destruct text; reflexivity.
  - destruct (Z.eqb_spec c 37) as [-> | H37].
    + induction text as [| x text IHt].
      * reflexivity.
      * rewrite (patternCompare_percent p (sqlite3Tolower <$> (x :: text))).
        rewrite IH, fmap_cons, IHt.
        rewrite (patternCompare_percent p (x :: text)). reflexivity.
    + rewrite !patternCompare_char by assumption.
      destruct text as [| x text]; [reflexivity |].
      rewrite fmap_cons, same_char_lower_r, IH. reflexivity.
Qed.

(** Nor the case of the pattern. *)
Lemma patternCompare_lower_pattern p text :
  patternCompare (sqlite3Tolower <$> p) text = patternCompare p text.
Proof.
  revert text. induction p as [| c p IH]; intros text; [reflexivity |].
  rewrite fmap_cons.
  destruct (sqlite3Tolower_wildcard c) as [E37 E95].
  destruct (Z.eqb_spec c 37) as [-> | H37].
  - change (sqlite3Tolower 37) with 37.
    induction text as [| x text IHt].
    + rewrite !patternCompare_percent, IH. reflexivity.
    + rewrite (patternCompare_percent (_ <$> p)), (patternCompare_percent p).
      rewrite IHt, IH. reflexivity.
  - rewrite (patternCompare_char (sqlite3Tolower c)) by lia.
    rewrite (patternCompare_char c) by assumption.
    destruct text as [| x text]; [reflexivity |].
    rewrite same_char_lower_l, E95, IH. reflexivity.
Qed.

Lemma like_lower s (x : option string) :
  like ("%" +:+ lower s +:+ "%") x = like ("%" +:+ s +:+ "%") x
  /\ like ("%" +:+ s +:+ "%") (lower <$> x) = like ("%" +:+ s +:+ "%") x.
Proof.
  unfold like. rewrite !pattern_length, lower_length.
  destruct (_ <? _); [auto |]. split; f_equal.
  - destruct x as [text |]; [| reflexivity]. unfold like_null.
    replace ("%" +:+ lower s +:+ "%") with (lower ("%" +:+ s +:+ "%"))
      by (rewrite !lower_app; reflexivity).
    rewrite utf8_chars_lower. apply patternCompare_lower_pattern.
  - destruct x as [text |]; [| reflexivity].
    change (lower <$> Some text) with (Some (lower text)). unfold like_null.
    rewrite utf8_chars_lower. apply patternCompare_lower_text.
Qed.

Lemma select_rows_ext clauses1 clauses2 rows :
  (forall t, where_holds clauses1 t = where_holds clauses2 t) ->
  select_rows clauses1 rows = select_rows clauses2 rows.
Proof.
  intros H. induction rows as [| t rows IH]; [reflexivity |].
  simpl. rewrite H, IH. reflexivity.
Qed.

Lemma search_only_clauses s :
  where_clauses (search_only s)
  = if String.eqb s "" then [] else [q_clause s].
Proof.
  unfold where_clauses. cbn [search_only date_from date_to f_ttype
    f_category min_amt max_amt q truthy].
  destruct (String.eqb s ""); reflexivity.
Qed.

(** X18.  The search is blind to the case of ASCII letters on both sides:
    a search string and its lower-case form have the same outcome, and of
    two stored rows whose descriptions and accounts differ only in case a
    search that returns has both or neither among its rows. *)
Theorem df_transactions_search_ignores_case (s : string) (db : database) :
  df_transactions (Some (search_only (lower s))) db
  = df_transactions (Some (search_only s)) db
  /\ forall (rows : list transaction) (t t' : transaction),
      df_transactions (Some (search_only s)) db = Returns rows ->
      (t ∈ transactions db) -> (t' ∈ transactions db) ->
      lower <$> t_description t = lower <$> t_description t' ->
      lower <$> t_account t = lower <$> t_account t' ->
      ((t ∈ rows) <-> (t' ∈ rows)).
Proof.
  split.
  - rewrite !df_transactions_select. f_equal. apply select_rows_ext.
    intros t. rewrite !search_only_clauses.
    destruct (String.eqb_spec s "") as [-> | Hs]; [reflexivity |].
    destruct (String.eqb_spec (lower s) "") as [Hl | Hl];
      [apply lower_nil in Hl; contradiction |].
    cbn [where_holds]. unfold q_clause.
    rewrite !(proj1 (like_lower s _)). reflexivity.
  - intros rows t t' Hrows Ht Ht' Hd Ha.
    rewrite !(elem_of_df_transactions _ _ _ Hrows).
    assert (Hsame : where_holds (where_clauses (search_only s)) t
                    = where_holds (where_clauses (search_only s)) t').
    { rewrite search_only_clauses.
      destruct (String.eqb s ""); [reflexivity |].
      cbn [where_holds]. unfold q_clause.
      rewrite <- (proj2 (like_lower s (t_description t))).
      rewrite <- (proj2 (like_lower s (t_account t))).
      rewrite Hd, Ha, !(proj2 (like_lower s _)). reflexivity. }
    rewrite Hsame. tauto.
Qed.

Lemma df_transactions_search_ignores_case_witness :
  exists rows : list transaction,
    df_transactions (Some (search_only "LUNCH"))
      (ledger_with
         [lunch;
          mkTransaction 2 (mkDate 2024 3 2) Expense "Food" (Some "Lunch") 20
            (Some "CASH")])
    = Returns rows
    /\ ((lunch ∈ rows)
        <-> (mkTransaction 2 (mkDate 2024 3 2) Expense "Food" (Some "Lunch")
               20 (Some "CASH") ∈ rows)).
Proof.
  eexists. split; [reflexivity |].
  eapply (proj2 (df_transactions_search_ignores_case "LUNCH"
                   (ledger_with
                      [lunch;
                       mkTransaction 2 (mkDate 2024 3 2) Expense "Food"
                         (Some "Lunch") 20 (Some "CASH")]))).
  - reflexivity.
  - apply list_elem_of_here.
  - apply list_elem_of_further, list_elem_of_here.
  - reflexivity.
  - reflexivity.
Defined.

(** ** Stores built by the app *)

Lemma same_rule_ids (l l' : list recurring_rule) :
  Forall2 same_rule l l' -> r_id <$> l' = r_id <$> l.
Proof.
  induction 1 as [| r r' l l' H _ IH]; [reflexivity |].
  rewrite !fmap_cons, IH. f_equal. apply H.
Qed.

Lemma filter_sublist {A : Type} (keep : A -> bool) (l : list A) :
  List.filter keep l `sublist_of` l.
Proof.
  induction l as [| x l IH]; simpl; [constructor |].
  destruct (keep x); [apply sublist_skip | apply sublist_cons]; exact IH.
Qed.

Lemma same_rule_monthly (l l' : list recurring_rule) :
  Forall2 same_rule l l' ->
  Forall (fun r => r_interval r = "monthly") l ->
  Forall (fun r => r_interval r = "monthly") l'.
Proof.
  induction 1 as [| r r' l l' H _ IH]; intros Hl; [constructor |].
  inversion Hl as [| ? ? Hi Hrest]; subst.
  destruct H as (_ & _ & _ & _ & _ & Hinterval).
  constructor; [| auto]. rewrite Hinterval. exact Hi.
Qed.

Lemma filter_rule_sublist (keep : recurring_rule -> bool)
    (l : list recurring_rule) :
  unique_ids l -> unique_ids (List.filter keep l).
Proof.
  unfold unique_ids. intros H. eapply sublist_NoDup; [exact H |].
  apply fmap_sublist, filter_sublist.
Qed.

Lemma update_keeps_ids {A : Type} (key : A -> Z) (f : A -> A) (id : Z)
    (l : list A) :
  (forall x, key (f x) = key x) ->
  key <$> ((fun x => if key x =? id then f x else x) <$> l) = key <$> l.
Proof.
  intros Hf. rewrite <- list_fmap_compose. apply list_fmap_ext.
  intros i x _. simpl. destruct (key x =? id); [apply Hf | reflexivity].
Qed.

Lemma set_budget_frame m c a db :
  transactions (set_budget m c a db) = transactions db
  /\ recurring (set_budget m c a db) = recurring db.
Proof. unfold set_budget. destruct (existsb _ _); auto. Qed.

Lemma NoDup_filter_ids (keep : transaction -> bool) (l : list transaction) :
  NoDup (t_id <$> l) -> NoDup (t_id <$> List.filter keep l).
Proof.
  intros H. eapply sublist_NoDup; [exact H |].
  apply fmap_sublist, filter_sublist.
Qed.

Lemma init_db_on_cases db :
  init_db_on db = db
  \/ (transactions (init_db_on db) = transactions db
      /\ budgets (init_db_on db) = budgets db
      /\ recurring (init_db_on db) = recurring db).
Proof. unfold init_db_on. destruct (bool_decide _); auto. Qed.

Lemma store_ok_pass fuel now db db' made :
  store_ok db -> apply_recurring fuel now db = Returns (db', made) ->
  store_ok db'.
Proof.
  intros (Hrules & Hids & Htids & Hbudgets) Hrun.
  pose proof Hrun as Hplan. rewrite apply_recurring_plan in Hplan.
  destruct (plan fuel now (recurring db)) as [p | |]; simpl in Hplan;
    try discriminate.
  injection Hplan as <- _.
  destruct (replay_frame (recurring db) p db) as (_ & Hb & _ & _ & Hsame).
  destruct (pass_ids _ _ _ _ _ Hrun) as (_ & _ & _ & _ & _ & Hnodup).
  split; [apply (same_rule_monthly _ _ Hsame Hrules) |].
  split; [unfold unique_ids; rewrite (same_rule_ids _ _ Hsame); exact Hids |].
  split; [auto |].
  rewrite Hb; assumption.
Qed.

Lemma store_ok_insert d ty category desc amount account db :
  store_ok db ->
  store_ok (insert_transaction d ty category desc amount account db).
Proof.
  intros (Hrules & Hids & Htids & Hbudgets).
  destruct (insert_transaction_top d ty category desc amount account db)
    as [Hrow _].
  split; [assumption |]. split; [assumption |]. split; [| assumption].
  rewrite Hrow, fmap_app. simpl.
  apply (NoDup_ids_app _ _ (top_id db) 1); [assumption | | reflexivity].
  intros x Hx. apply list_elem_of_fmap in Hx as (t & -> & Ht).
  apply top_id_bound, Ht.
Qed.

Lemma store_ok_built db : built db -> store_ok db.
Proof.
  induction 1 as [| strip ty d category new_cat desc amount account db _ IH
                    | ty category desc amount next_date db db' _ IH Hadd
                    | fuel now db db' made _ IH Hrun
                    | month category amount db _ IH
                    | name db _ IH | name db _ IH | id db _ IH
                    | id d ty category desc amount account db _ IH
                    | id ty category desc amount next_date db _ IH
                    | id db _ IH | db _ IH].
  - split; [constructor |]. split; [constructor |]. split; [constructor |].
    intros m c. simpl. lia.
  - unfold add_txn.
    destruct (String.eqb category ADD_NEW);
      [destruct (negb (String.eqb new_cat "")) |];
      cbv zeta; cbv beta iota; destruct (_ && _); cbn [fst];
      try apply store_ok_insert; exact IH.
  - destruct IH as (Hrules & Hids & Htids & Hbudgets).
    unfold add_recurring in Hadd.
    destruct (negb (Qle_bool amount 0)); [| discriminate].
    injection Hadd as <-.
    split; [| split; [| split; assumption]].
    + simpl. apply Forall_app. split; [assumption |]. repeat constructor.
    + unfold unique_ids in *. simpl. rewrite fmap_app. simpl.
      apply NoDup_app. split; [assumption |]. split; [| apply NoDup_singleton].
      intros x Hx Hnew. apply list_elem_of_singleton in Hnew.
      pose proof (proj2 (foldr_max_ge (recurring_seq db) (r_id <$> recurring db))
                    x Hx).
      unfold next_rowid in Hnew. lia.
  - apply (store_ok_pass _ _ _ _ _ IH Hrun).
  - destruct IH as (Hrules & Hids & Htids & Hbudgets).
    destruct (set_budget_frame month category amount db) as [Ht Hr].
    unfold store_ok. rewrite Ht, Hr.
    split; [assumption |]. split; [assumption |]. split; [assumption |].
    apply set_budget_unique. assumption.
  - exact IH.
  - exact IH.
  - destruct IH as (Hrules & Hids & Htids & Hbudgets).
    split; [assumption |]. split; [assumption |]. split; [| assumption].
    simpl. apply NoDup_filter_ids. assumption.
  - destruct IH as (Hrules & Hids & Htids & Hbudgets).
    split; [assumption |]. split; [assumption |]. split; [| assumption].
    simpl. rewrite (update_keeps_ids t_id); [assumption | reflexivity].
  - destruct IH as (Hrules & Hids & Htids & Hbudgets).
    split; [| split; [| split; assumption]].
    + simpl. apply Forall_fmap. eapply Forall_impl; [exact Hrules |].
      intros r Hr. simpl. destruct (r_id r =? id); exact Hr.
    + unfold unique_ids. simpl.
      rewrite (update_keeps_ids r_id); [assumption | reflexivity].
  - destruct IH as (Hrules & Hids & Htids & Hbudgets).
    split; [| split; [| split; assumption]].
    + simpl. apply Forall_forall. intros r Hr.
      apply list_elem_of_In, List.filter_In in Hr as [Hr _].
      rewrite Forall_forall in Hrules. apply Hrules, list_elem_of_In, Hr.
    + apply filter_rule_sublist. assumption.
  - destruct (init_db_on_cases db) as [-> | (Ht & Hb & Hr)]; [exact IH |].
    unfold store_ok. rewrite Ht, Hb, Hr. exact IH.
Qed.

(** X19.  In every store reached from a fresh file through the forms, the
    Save and Delete buttons, the poster, the budget and category managers
    and restarts (CSV import and the upload of a database file apart): every
    rule has interval "monthly", rule ids and transaction ids are distinct,
    and there is at most one budget row per (month, category). *)
Theorem built_store_invariants (db : database) :
  built db ->
  Forall (fun r => r_interval r = "monthly") (recurring db)
  /\ unique_ids (recurring db)
  /\ NoDup (t_id <$> transactions db)
  /\ budgets_unique (budgets db).
Proof. apply store_ok_built. Qed.

Lemma built_store_invariants_witness :
  exists (db1 db2 : database) (made : Z),
    add_recurring Expense "Rent" "Flat" 12000 (mkDate 2024 1 15) init_db
    = Some db1
    /\ apply_recurring 5 (mkDate 2024 4 10) db1 = Returns (db2, made)
    /\ NoDup (t_id <$> transactions db2).
Proof.
  exists (insert_recurring Expense "Rent" (Some "Flat") 12000 "monthly"
            (mkDate 2024 1 15) init_db).
  eexists _, _. split; [reflexivity |]. split; [reflexivity |].
  eapply built_store_invariants.
  eapply (built_apply_recurring 5 (mkDate 2024 4 10)
            (insert_recurring Expense "Rent" (Some "Flat") 12000 "monthly"
               (mkDate 2024 1 15) init_db)); [| reflexivity].
  apply (built_add_recurring Expense "Rent" "Flat" 12000 (mkDate 2024 1 15)
           init_db); [apply built_fresh | reflexivity].
Defined.

Lemma pass_then_idle fuel fuel' now db db1 made :
  unique_ids (recurring db) ->
  Forall (fun r => r_interval r = "monthly") (recurring db) ->
  apply_recurring fuel now db = Returns (db1, made) ->
  apply_recurring fuel' now db1 = Returns (db1, 0).
Proof.
  intros Hu Hrules Hrun.
  destruct (apply_recurring_returns _ _ _ _ _ Hu Hrun)
    as (p & blocks & Hp & _ & _ & _ & _ & Hrec).
  unfold apply_recurring. apply for_rows_idle.
  rewrite Hrec. apply Forall_lookup. intros i r' Hi.
  apply lookup_zip_with_Some in Hi as (r & s & -> & Hr & Hs).
  destruct (plan_lookup _ _ _ _ _ _ Hp Hr) as (s' & Hs' & Hsched).
  assert (s' = s) as -> by congruence.
  unfold advance, set_next_date. cbn [r_next_date].
  apply (schedule_stops fuel now r s Hsched). left.
  rewrite Forall_lookup in Hrules. apply (Hrules i r Hr).
Qed.

(** X20.  On such a store the poster is idempotent: after a pass that
    returned, a second pass with the same [now] returns 0 and changes
    nothing.  (The Add Recurring form stores every rule with interval
    "monthly", and the Save button of a rule does not set the interval.) *)
Theorem built_store_second_run (fuel fuel' : nat) (now : date)
    (db db1 : database) (made : Z) :
  built db ->
  apply_recurring fuel now db = Returns (db1, made) ->
  apply_recurring fuel' now db1 = Returns (db1, 0).
Proof.
  intros Hbuilt Hrun.
  destruct (store_ok_built db Hbuilt) as (Hrules & Hids & _).
  apply (pass_then_idle fuel fuel' now db db1 made Hids); assumption.
Qed.

Lemma built_store_second_run_witness :
  exists (db1 db2 : database) (made : Z),
    add_recurring Expense "Rent" "Flat" 12000 (mkDate 2024 1 15) init_db
    = Some db1
    /\ apply_recurring 5 (mkDate 2024 4 10) db1 = Returns (db2, made)
    /\ apply_recurring 0 (mkDate 2024 4 10) db2 = Returns (db2, 0).
Proof.
  exists (insert_recurring Expense "Rent" (Some "Flat") 12000 "monthly"
            (mkDate 2024 1 15) init_db).
  eexists _, _. split; [reflexivity |]. split; [reflexivity |].
  eapply (built_store_second_run 5 0 (mkDate 2024 4 10)
            (insert_recurring Expense "Rent" (Some "Flat") 12000 "monthly"
               (mkDate 2024 1 15) init_db)); [| reflexivity].
  apply (built_add_recurring Expense "Rent" "Flat" 12000 (mkDate 2024 1 15)
           init_db); [apply built_fresh | reflexivity].
Defined.

(** ** The month list of the budgets tab *)

Lemma mapM_returns {A B : Type} (f : A -> outcome B) (g : A -> B)
    (l : list A) :
  (forall x, x ∈ l -> f x = Returns (g x)) -> mapM f l = Returns (g <$> l).
Proof.
  induction l as [| x l IH]; intros H; [reflexivity |].
  change (mapM f (x :: l)) with (y ← f x; k ← mapM f l; mret (y :: k)).
  rewrite (H x) by apply list_elem_of_here.
  rewrite IH by (intros y Hy; apply H, list_elem_of_further, Hy).
  reflexivity.
Qed.

Lemma mapM_raises {A B : Type} (f : A -> outcome B) (l : list A) :
  (forall x, x ∈ l -> f x <> OutOfFuel) ->
  (exists x, x ∈ l /\ f x = Raises) ->
  mapM f l = Raises.
Proof.
  induction l as [| x l IH]; intros Hfuel (x0 & Hin & Hx0); [inversion Hin |].
  change (mapM f (x :: l)) with (y ← f x; k ← mapM f l; mret (y :: k)).
  destruct (f x) as [y | |] eqn:E; simpl.
  - rewrite IH; [reflexivity | |].
    + intros z Hz. apply Hfuel, list_elem_of_further, Hz.
    + apply elem_of_cons in Hin as [-> | Hin]; [congruence | eauto].
  - reflexivity.
  - exfalso. apply (Hfuel x); [apply list_elem_of_here | assumption].
Qed.

Lemma month_key_inj d1 d2 :
  0 <= year d1 -> 0 <= month d1 -> 0 <= year d2 -> 0 <= month d2 ->
  month_key d1 = month_key d2 -> year d1 = year d2 /\ month d1 = month d2.
Proof.
  intros Hy1 Hm1 Hy2 Hm2 E. unfold month_key in E.
  apply split_at_dash in E as [Ey Em];
    [| apply format_0d_digits; lia | apply format_0d_digits; lia].
  split; eapply format_0d_inj; try eassumption; lia.
Qed.

Lemma add_months_from_first (first : date) (i : Z) :
  valid_date first -> day first = 1 ->
  add_months first i
  = if decide (MINYEAR <= (month_index first + i) / 12 <= MAXYEAR)
    then Returns (month_of_index (month_index first + i))
    else Raises.
Proof.
  intros Hv Hday. case_decide as Hrange.
  - rewrite add_months_returns by assumption. unfold month_of_index.
    rewrite Hday.
    assert (Hm : 1 <= (month_index first + i) mod 12 + 1 <= 12).
    { pose proof (Z.mod_pos_bound (month_index first + i) 12). lia. }
    pose proof (days_in_month_pos ((month_index first + i) / 12) _ Hm).
    rewrite Z.min_l by lia. reflexivity.
  - rewrite add_months_eq by assumption. apply new_date_year_range, Hrange.
Qed.

(** X21.  The month list of the budgets tab.  When the six months before
    and the six months after today's month all lie in the years 1..9999, the
    list holds thirteen month keys, those of the thirteen consecutive months
    from six months back to six months ahead, all different, with today's
    month in the middle (index 6, the entry the select box starts on).
    Otherwise building the list raises. *)
Theorem budget_months_window (today : date) :
  valid_date today ->
  (12 * MINYEAR <= month_index today - 6 /\ month_index today + 6 <= last_month ->
   exists keys : list string,
     budget_months today = Returns keys
     /\ length keys = 13%nat
     /\ NoDup keys
     /\ keys !! 6%nat = Some (month_key today)
     /\ forall i : nat,
         (i < 13)%nat ->
         keys !! i
         = Some (month_key (month_of_index (month_index today - 6 + Z.of_nat i))))
  /\ (~ (12 * MINYEAR <= month_index today - 6
         /\ month_index today + 6 <= last_month) ->
      budget_months today = Raises).
Proof.
  intros Hv. destruct Hv as (Hy & Hm & Hd).
  pose proof (days_in_month_pos (year today) (month today) Hm) as Hdim.
  set (first := mkDate (year today) (month today) 1).
  assert (Hfirst : replace_day today 1 = Returns first).
  { unfold replace_day. apply new_date_valid. unfold valid_date; simpl. lia. }
  assert (Hvf : valid_date first) by (unfold valid_date; simpl; lia).
  assert (Hidx : month_index first = month_index today) by reflexivity.
  unfold budget_months. rewrite Hfirst. cbn [mbind outcome_bind].
  unfold last_month, MINYEAR, MAXYEAR in *.
  split.
  - intros [Hlo Hhi].
    set (key := fun i : Z => month_key (month_of_index (month_index today + i))).
    assert (Hrun : mapM (fun i => d ← add_months first i; Returns (month_key d))
                     (seqZ (-6) 13)
                   = Returns (key <$> seqZ (-6) 13)).
    { apply mapM_returns. intros i Hi. apply elem_of_seqZ in Hi.
      rewrite (add_months_from_first first i Hvf eq_refl), Hidx.
      rewrite decide_True; [reflexivity |].
      unfold MINYEAR, MAXYEAR.
      pose proof (Z.div_mod (month_index today + i) 12).
      pose proof (Z.mod_pos_bound (month_index today + i) 12). lia. }
    exists (key <$> seqZ (-6) 13). split; [exact Hrun |].
    split; [rewrite length_fmap, length_seqZ; reflexivity |].
    split; [| split].
    + apply NoDup_fmap_2_strong; [| apply NoDup_seqZ].
      intros i j Hi Hj E. apply elem_of_seqZ in Hi. apply elem_of_seqZ in Hj.
      unfold key in E.
      pose proof (Z.div_mod (month_index today + i) 12).
      pose proof (Z.mod_pos_bound (month_index today + i) 12).
      pose proof (Z.div_mod (month_index today + j) 12).
      pose proof (Z.mod_pos_bound (month_index today + j) 12).
      assert (0 <= (month_index today + i) / 12) by (apply Z.div_pos; lia).
      assert (0 <= (month_index today + j) / 12) by (apply Z.div_pos; lia).
      apply month_key_inj in E; unfold month_of_index in *; simpl in *; lia.
    + rewrite list_lookup_fmap, lookup_seqZ_lt by lia.
      cbn [fmap option_fmap option_map]. f_equal. unfold key.
      replace (month_index today + (-6 + Z.of_nat 6)) with (month_index today)
        by lia.
      assert (Hq : month_index today / 12 = year today).
      { unfold month_index.
        replace (12 * year today + (month today - 1))
          with (month today - 1 + year today * 12) by lia.
        rewrite Z.div_add, Z.div_small by lia. lia. }
      assert (Hr : month_index today mod 12 + 1 = month today).
      { unfold month_index.
        replace (12 * year today + (month today - 1))
          with (month today - 1 + year today * 12) by lia.
        rewrite Z.mod_add, Z.mod_small by lia. lia. }
      unfold month_key, month_of_index. cbn [year month].
      rewrite Hq, Hr. reflexivity.
    + intros i Hi. rewrite list_lookup_fmap, lookup_seqZ_lt by lia.
      cbn [fmap option_fmap option_map]. unfold key. do 3 f_equal. lia.
  - intros Hout. apply mapM_raises.
    + intros i _.
      rewrite (add_months_from_first first i Hvf eq_refl).
      case_decide; discriminate.
    + destruct (decide (12 <= month_index today - 6)) as [Hlo | Hlo].
      * exists 6. split; [apply elem_of_seqZ; lia |].
        rewrite (add_months_from_first first 6 Hvf eq_refl), Hidx.
        rewrite decide_False; [reflexivity |].
        unfold MINYEAR, MAXYEAR.
        pose proof (Z.div_mod (month_index today + 6) 12).
        pose proof (Z.mod_pos_bound (month_index today + 6) 12). lia.
      * exists (-6). split; [apply elem_of_seqZ; lia |].
        rewrite (add_months_from_first first (-6) Hvf eq_refl), Hidx.
        rewrite decide_False; [reflexivity |].
        unfold MINYEAR, MAXYEAR.
        pose proof (Z.div_mod (month_index today + -6) 12).
        pose proof (Z.mod_pos_bound (month_index today + -6) 12). lia.
Qed.

Lemma budget_months_window_witness :
  exists keys : list string,
    budget_months (mkDate 2024 3 9) = Returns keys
    /\ length keys = 13%nat
    /\ keys !! 6%nat = Some "2024-03".
Proof.
  destruct (budget_months_window (mkDate 2024 3 9)) as [Hin _];
    [valid_date_tac |].
  destruct Hin as (keys & Hrun & Hlen & _ & Hmid & _).
  - vm_compute. split; congruence.
  - exists keys. auto.
Defined.

(** ** ISO text of dates *)

Lemma string_length_zeros k : String.length (zeros k) = k.
Proof. induction k; simpl; auto. Qed.

Lemma length_pretty_N_go (k : nat) (x : N) (s : string) :
  (x < 10 ^ N.of_nat k)%N ->
  (String.length (pretty_N_go x s) <= String.length s + k)%nat.
Proof.
  revert x s. induction k as [| k IH]; intros x s Hx.
  - assert (x = 0%N) as -> by (simpl in Hx; lia).
    rewrite pretty_N_go_0. lia.
  - destruct (decide (x = 0)%N) as [-> | Hx0].
    + rewrite pretty_N_go_0. lia.
    + rewrite pretty_N_go_step by lia.
      etransitivity; [apply IH |].
      * rewrite Nat2N.inj_succ, N.pow_succ_r' in Hx.
        apply N.Div0.div_lt_upper_bound. lia.
      * simpl. lia.
Qed.

Lemma length_pretty_N (k : nat) (x : N) :
  (x < 10 ^ N.of_nat k)%N -> (1 <= k)%nat ->
  (String.length (pretty x) <= k)%nat.
Proof.
  intros Hx Hk. unfold pretty, pretty_N. case_decide; [simpl; lia |].
  apply (length_pretty_N_go k x "" Hx).
Qed.

(** A number that fits is written on exactly [width] characters. *)
Lemma format_0d_length (width : nat) (n : Z) :
  0 <= n < 10 ^ Z.of_nat width -> (1 <= width)%nat ->
  String.length (format_0d width n) = width.
Proof.
  intros Hn Hw. unfold format_0d.
  destruct (Z.ltb_spec n 0); [lia |].
  change ("" +:+ ?s) with s.
  rewrite string_length_app, string_length_zeros. simpl String.length.
  assert (String.length (pretty (Z.abs_N n)) <= width)%nat; [| lia].
  apply length_pretty_N; [| assumption].
  assert (H10 : (10 ^ N.of_nat width)%N = Z.to_N (10 ^ Z.of_nat width)).
  { rewrite Z2N.inj_pow by lia. f_equal. lia. }
  rewrite H10. lia.
Qed.

Lemma decimal_value_acc (acc : N) (s : string) :
  decimal_value acc s
  = (acc * 10 ^ N.of_nat (String.length s) + decimal_value 0 s)%N.
Proof.
  revert acc. induction s as [| c s IH]; intros acc.
  - simpl. lia.
  - simpl decimal_value. rewrite (IH (10 * acc + digit_of c)%N).
    rewrite (IH (10 * 0 + digit_of c)%N).
    simpl String.length. rewrite Nat2N.inj_succ, N.pow_succ_r'. lia.
Qed.

Lemma digit_of_bound c : is_digit c = true -> (digit_of c < 10)%N.
Proof.
  unfold is_digit, digit_of. rewrite andb_true_iff, !N.leb_le. lia.
Qed.

Lemma decimal_value_bound (s : string) :
  all_digits s = true ->
  (decimal_value 0 s < 10 ^ N.of_nat (String.length s))%N.
Proof.
  induction s as [| c s IH]; intros Hs.
  - simpl. lia.
  - simpl in Hs. apply andb_true_iff in Hs as [Hc Hs].
    simpl decimal_value. rewrite decimal_value_acc.
    simpl String.length. rewrite Nat2N.inj_succ, N.pow_succ_r'.
    specialize (IH Hs). apply digit_of_bound in Hc. nia.
Qed.

Lemma digit_compare c1 c2 :
  is_digit c1 = true -> is_digit c2 = true ->
  Ascii.compare c1 c2 = (digit_of c1 ?= digit_of c2)%N.
Proof.
  unfold is_digit, digit_of, Ascii.compare.
  rewrite !andb_true_iff, !N.leb_le. intros [H1 _] [H2 _].
  destruct (N.compare_spec (N_of_ascii c1) (N_of_ascii c2));
    symmetry; [apply N.compare_eq_iff | apply N.compare_lt_iff
               | apply N.compare_gt_iff]; lia.
Qed.

(** Numerals of the same length compare as the numbers they denote. *)
Lemma numeral_compare (s1 s2 : string) :
  all_digits s1 = true -> all_digits s2 = true ->
  String.length s1 = String.length s2 ->
  String.compare s1 s2 = (decimal_value 0 s1 ?= decimal_value 0 s2)%N.
Proof.
  revert s2. induction s1 as [| c1 s1 IH]; intros [| c2 s2] H1 H2 Hlen;
    try discriminate Hlen; [reflexivity |].
  simpl in H1, H2, Hlen.
  apply andb_true_iff in H1 as [Hc1 H1]. apply andb_true_iff in H2 as [Hc2 H2].
  injection Hlen as Hlen.
  simpl String.compare. rewrite (digit_compare c1 c2 Hc1 Hc2).
  simpl decimal_value.
  rewrite (decimal_value_acc _ s1), (decimal_value_acc _ s2), <- Hlen.
  pose proof (decimal_value_bound s1 H1) as B1.
  pose proof (decimal_value_bound s2 H2) as B2. rewrite <- Hlen in B2.
  rewrite (IH s2 H1 H2 Hlen).
  set (p := (10 ^ N.of_nat (String.length s1))%N) in *.
  set (v1 := decimal_value 0 s1) in *. set (v2 := decimal_value 0 s2) in *.
  set (a1 := digit_of c1). set (a2 := digit_of c2).
  destruct (N.compare_spec a1 a2) as [E | L | G].
  - rewrite E. destruct (N.compare_spec v1 v2); symmetry;
      [apply N.compare_eq_iff | apply N.compare_lt_iff
       | apply N.compare_gt_iff]; nia.
  - symmetry. apply N.compare_lt_iff. nia.
  - symmetry. apply N.compare_gt_iff. nia.
Qed.

Lemma format_0d_compare (width : nat) (a b : Z) :
  0 <= a < 10 ^ Z.of_nat width -> 0 <= b < 10 ^ Z.of_nat width ->
  (1 <= width)%nat ->
  String.compare (format_0d width a) (format_0d width b) = (a ?= b).
Proof.
  intros Ha Hb Hw.
  rewrite numeral_compare;
    [| apply format_0d_digits; lia | apply format_0d_digits; lia
     | rewrite !format_0d_length by assumption; reflexivity].
  rewrite !format_0d_value by lia. rewrite <- Z2N.inj_compare by lia.
  reflexivity.
Qed.

(** Texts that start with parts of the same length compare by these parts
    first. *)
Lemma compare_app (a1 a2 r1 r2 : string) :
  String.length a1 = String.length a2 ->
  String.compare (a1 +:+ r1) (a2 +:+ r2)
  = match String.compare a1 a2 with
    | Eq => String.compare r1 r2
    | c => c
    end.
Proof.
  revert a2. induction a1 as [| c1 a1 IH]; intros [| c2 a2] Hlen;
    try discriminate Hlen; [reflexivity |].
  injection Hlen as Hlen. rewrite !append_cons. simpl.
  destruct (Ascii.compare c1 c2); [apply IH, Hlen | reflexivity | reflexivity].
Qed.

Lemma isoformat_compare (d1 d2 : date) :
  valid_date d1 -> valid_date d2 ->
  String.compare (isoformat d1) (isoformat d2)
  = match year d1 ?= year d2 with
    | Eq => match month d1 ?= month d2 with
            | Eq => day d1 ?= day d2
            | c => c
            end
    | c => c
    end.
Proof.
  intros (Hy1 & Hm1 & Hd1) (Hy2 & Hm2 & Hd2).
  pose proof (days_in_month_pos (year d1) (month d1) Hm1).
  pose proof (days_in_month_pos (year d2) (month d2) Hm2).
  unfold MINYEAR, MAXYEAR in *. unfold isoformat.
  rewrite compare_app
    by (rewrite !format_0d_length by (simpl; lia); reflexivity).
  rewrite format_0d_compare by (simpl; lia).
  destruct (year d1 ?= year d2); try reflexivity.
  rewrite (compare_app "-" "-") by reflexivity. simpl (String.compare "-" "-").
  rewrite compare_app
    by (rewrite !format_0d_length by (simpl; lia); reflexivity).
  rewrite format_0d_compare by (simpl; lia).
  destruct (month d1 ?= month d2); try reflexivity.
  rewrite (compare_app "-" "-") by reflexivity. simpl (String.compare "-" "-").
  apply format_0d_compare; simpl; lia.
Qed.

(** X22.  The ISO text of a date has ten characters, and comparing two such
    texts byte by byte, as the store does for its date columns, is comparing
    the dates: the text order is the date order, and equal texts mean equal
    dates. *)
Theorem isoformat_order (d1 d2 : date) :
  valid_date d1 -> valid_date d2 ->
  String.length (isoformat d1) = 10%nat
  /\ (String.le (isoformat d1) (isoformat d2) <-> date_le d1 d2)
  /\ (isoformat d1 = isoformat d2 <-> d1 = d2).
Proof.
  intros Hv1 Hv2. pose proof (isoformat_compare d1 d2 Hv1 Hv2) as Hcmp.
  destruct Hv1 as (Hy1 & Hm1 & Hd1). destruct Hv2 as (Hy2 & Hm2 & Hd2).
  pose proof (days_in_month_pos (year d1) (month d1) Hm1).
  pose proof (days_in_month_pos (year d2) (month d2) Hm2).
  unfold MINYEAR, MAXYEAR in *.
  split; [| split].
  - unfold isoformat. rewrite !string_length_app.
    rewrite !format_0d_length by (simpl; lia). reflexivity.
  - unfold String.le, String.leb, date_le. rewrite Hcmp, date_leb_spec.
    destruct (Z.compare_spec (year d1) (year d2));
      [| simpl; intuition lia | simpl; intuition lia].
    destruct (Z.compare_spec (month d1) (month d2));
      [| simpl; intuition lia | simpl; intuition lia].
    destruct (Z.compare_spec (day d1) (day d2)); simpl; intuition lia.
  - split; [| intros ->; reflexivity].
    intros E. rewrite E in Hcmp.
    assert (Hrefl : String.compare (isoformat d2) (isoformat d2) = Eq).
    { destruct (String.compare (isoformat d2) (isoformat d2)) eqn:C;
        [reflexivity | |];
        pose proof (String.compare_antisym (isoformat d2) (isoformat d2)) as A;
        rewrite C in A; discriminate A. }
    rewrite Hrefl in Hcmp.
    destruct (Z.compare_spec (year d1) (year d2)); try discriminate.
    destruct (Z.compare_spec (month d1) (month d2)); try discriminate.
    destruct (Z.compare_spec (day d1) (day d2)); try discriminate.
    destruct d1, d2; simpl in *; congruence.
Qed.

Lemma isoformat_order_witness :
  String.le (isoformat (mkDate 999 12 31)) (isoformat (mkDate 2024 1 5))
  <-> date_le (mkDate 999 12 31) (mkDate 2024 1 5).
Proof.
  apply isoformat_order; valid_date_tac.
Defined.

Lemma string_app_assoc (s1 s2 s3 : string) :
  s1 +:+ (s2 +:+ s3) = (s1 +:+ s2) +:+ s3.
Proof.
  induction s1 as [| c s1 IH]; [reflexivity |].
  rewrite !append_cons, IH. reflexivity.
Qed.

Lemma month_key_compare (d1 d2 : date) :
  valid_date d1 -> valid_date d2 ->
  String.compare (month_key d1) (month_key d2)
  = match year d1 ?= year d2 with
    | Eq => month d1 ?= month d2
    | c => c
    end.
Proof.
  intros (Hy1 & Hm1 & _) (Hy2 & Hm2 & _).
  unfold MINYEAR, MAXYEAR in *. unfold month_key.
  rewrite compare_app
    by (rewrite !format_0d_length by (simpl; lia); reflexivity).
  rewrite format_0d_compare by (simpl; lia).
  destruct (year d1 ?= year d2); try reflexivity.
  rewrite (compare_app "-" "-") by reflexivity. simpl (String.compare "-" "-").
  apply format_0d_compare; simpl; lia.
Qed.

(** X23.  A month key has seven characters, month keys sort like the months
    they name, and a key followed by "-01" is the ISO text of the first day
    of its month (the text the budgets tab parses to get the month's first
    day). *)
Theorem month_key_order (d1 d2 : date) :
  valid_date d1 -> valid_date d2 ->
  String.length (month_key d1) = 7%nat
  /\ (String.le (month_key d1) (month_key d2)
      <-> month_index d1 <= month_index d2)
  /\ month_key d1 +:+ "-01" = isoformat (mkDate (year d1) (month d1) 1).
Proof.
  intros Hv1 Hv2. pose proof (month_key_compare d1 d2 Hv1 Hv2) as Hcmp.
  destruct Hv1 as (Hy1 & Hm1 & _). destruct Hv2 as (Hy2 & Hm2 & _).
  unfold MINYEAR, MAXYEAR in *.
  split; [| split].
  - unfold month_key. rewrite !string_length_app.
    rewrite !format_0d_length by (simpl; lia). reflexivity.
  - unfold String.le, String.leb, month_index. rewrite Hcmp.
    destruct (Z.compare_spec (year d1) (year d2));
      [| simpl; intuition lia | simpl; intuition lia].
    destruct (Z.compare_spec (month d1) (month d2)); simpl; intuition lia.
  - unfold month_key, isoformat. cbn [year month day].
    rewrite <- !string_app_assoc. do 3 f_equal.
Qed.

Lemma month_key_order_witness :
  String.le (month_key (mkDate 2023 12 31)) (month_key (mkDate 2024 1 1))
  <-> month_index (mkDate 2023 12 31) <= month_index (mkDate 2024 1 1).
Proof.
  apply month_key_order; valid_date_tac.
Defined.

(** ** The forms *)

(** X24.  The Quick Add form on submit.  The category that reaches the
    check is the stripped typed name when "+ Add new …" is selected and a name
    is typed, and the selected entry otherwise (the placeholder itself when no
    name is typed).  In the first case the name is added to the category
    list whether or not the check then refuses the row; in the second the
    category list is as before.  The row is refused exactly when that
    category is empty or the amount is not positive, and then the
    transactions table is as before; otherwise exactly one row is appended,
    with the fields of the form and an id above every id of the table.
    Budgets and rules are never touched. *)
Theorem add_txn_validation (strip : string -> string) (ty : ttype) (d : date)
    (category new_cat desc : string) (amount : Q) (account : string)
    (db : database) :
  let out := add_txn strip ty d category new_cat desc amount account db in
  exists chosen : string,
    ((category = ADD_NEW /\ new_cat <> "" /\ chosen = strip new_cat
      /\ categories out.1 = {[chosen]} ∪ categories db)
     \/ ((category <> ADD_NEW \/ new_cat = "") /\ chosen = category
         /\ categories out.1 = categories db))
    /\ (out.2 = false <-> chosen = "" \/ (amount <= 0)%Q)
    /\ (out.2 = false -> transactions out.1 = transactions db)
    /\ (out.2 = true ->
        exists t : transaction,
          transactions out.1 = transactions db ++ [t]
          /\ columns t = (d, ty, chosen, Some desc, amount, Some account)
          /\ forall t0 : transaction,
              (t0 ∈ transactions db) -> t_id t0 < t_id t)
    /\ budgets out.1 = budgets db
    /\ recurring out.1 = recurring db.
Proof.
  intros out.
  assert (Hcheck : forall (chosen : string) (db0 : database),
             transactions db0 = transactions db ->
             transactions_seq db0 = transactions_seq db ->
             budgets db0 = budgets db -> recurring db0 = recurring db ->
             let res :=
               if negb (String.eqb chosen "") && negb (Qle_bool amount 0)
               then (insert_transaction d ty chosen (Some desc) amount
                       (Some account) db0, true)
               else (db0, false) in
             categories res.1 = categories db0
             /\ (res.2 = false <-> chosen = "" \/ (amount <= 0)%Q)
             /\ (res.2 = false -> transactions res.1 = transactions db)
             /\ (res.2 = true ->
                 exists t : transaction,
                   transactions res.1 = transactions db ++ [t]
                   /\ columns t
                      = (d, ty, chosen, Some desc, amount, Some account)
                   /\ forall t0 : transaction,
                       (t0 ∈ transactions db) -> t_id t0 < t_id t)
             /\ budgets res.1 = budgets db
             /\ recurring res.1 = recurring db).
  { intros chosen db0 Ht Hseq Hb Hr res. subst res.
    destruct (String.eqb_spec chosen "") as [-> | Hc]; cbn [negb andb fst snd].
    - split; [reflexivity |]. split; [split; auto |].
      split; [auto |]. split; [discriminate | auto].
    - destruct (Qle_bool amount 0) eqn:E; cbn [negb fst snd].
      + apply Qle_bool_iff in E. split; [reflexivity |].
        split; [split; auto |]. split; [auto |]. split; [discriminate | auto].
      + split; [reflexivity |]. split.
        { split; [discriminate |]. intros [H | H]; [contradiction |].
          apply Qle_bool_iff in H. congruence. }
        split; [discriminate |]. split; [| auto].
        intros _.
        destruct (insert_transaction_top d ty chosen (Some desc) amount
                    (Some account) db0) as [Hrow _].
        eexists. split; [rewrite Hrow, Ht; reflexivity |].
        split; [reflexivity |].
        intros t0 Ht0. rewrite <- Ht in Ht0. apply top_id_bound in Ht0.
        cbn [t_id]. lia. }
  subst out. unfold add_txn.
  destruct (String.eqb_spec category ADD_NEW) as [Hsel | Hsel].
  - destruct (String.eqb_spec new_cat "") as [Hnew | Hnew]; cbn [negb].
    + destruct (Hcheck category db eq_refl eq_refl eq_refl eq_refl)
        as (Hc & Hrest).
      exists category. split; [right; auto | exact Hrest].
    + destruct (Hcheck (strip new_cat) (upsert_category (strip new_cat) db)
                  eq_refl eq_refl eq_refl eq_refl) as (Hc & Hrest).
      exists (strip new_cat). split; [left | exact Hrest].
      split; [assumption |]. split; [assumption |]. split; [reflexivity |].
      exact Hc.
  - destruct (Hcheck category db eq_refl eq_refl eq_refl eq_refl)
      as (Hc & Hrest).
    exists category. split; [right; auto | exact Hrest].
Qed.

Lemma add_txn_validation_witness :
  (add_txn (fun s => s) Expense (mkDate 2024 3 2) ADD_NEW "Books" "novel" 0
     "Cash" (ledger_with [lunch])).2 = false
  /\ "Books" ∈ categories
                 (add_txn (fun s => s) Expense (mkDate 2024 3 2) ADD_NEW
                    "Books" "novel" 0 "Cash" (ledger_with [lunch])).1.
Proof.
  destruct (add_txn_validation (fun s => s) Expense (mkDate 2024 3 2) ADD_NEW
              "Books" "novel" 0 "Cash" (ledger_with [lunch]))
    as (chosen & Hcat & Hrefused & _).
  split.
  - apply Hrefused. right. apply Qle_refl.
  - destruct Hcat as [(_ & _ & -> & Hcats) | ([H | H] & _)].
    + rewrite Hcats. apply elem_of_union_l, elem_of_singleton. reflexivity.
    + exfalso. apply H. reflexivity.
    + discriminate H.
Defined.

Lemma due_dates_head fuel now is_monthly d ds e :
  date_leb d now = true ->
  due_dates fuel now is_monthly d = Returns (ds, e) ->
  exists rest, ds = d :: rest.
Proof.
  intros Hdue. destruct fuel as [| fuel]; simpl; rewrite Hdue; [discriminate |].
  destruct is_monthly.
  - destruct (add_months d 1) as [d' | |]; simpl; try discriminate.
    destruct (due_dates fuel now true d') as [[ds' e'] | |]; simpl;
      try discriminate.
    intros [= <- _]. eauto.
  - intros [= <- _]. eauto.
Qed.

(** X25.  Add Recurring refuses an amount that is not positive.  A rule it
    stores is monthly, and when its next date is today or earlier the next
    pass of the poster that returns posts it: the transactions table then
    holds a row dated that next date with the rule's fields and account
    "Recurring". *)
Theorem add_recurring_then_posted (ty : ttype) (category desc : string)
    (amount : Q) (next_date : date) (db : database) :
  (add_recurring ty category desc amount next_date db = None
   <-> (amount <= 0)%Q)
  /\ forall (db1 db2 : database) (fuel : nat) (now : date) (made : Z),
      add_recurring ty category desc amount next_date db = Some db1 ->
      date_le next_date now ->
      apply_recurring fuel now db1 = Returns (db2, made) ->
      1 <= made
      /\ exists t : transaction,
          (t ∈ transactions db2)
          /\ columns t
             = (next_date, ty, category, Some desc, amount, Some "Recurring").
Proof.
  unfold add_recurring. split.
  - destruct (Qle_bool amount 0) eqn:E; simpl.
    + apply Qle_bool_iff in E. split; auto.
    + split; [discriminate |]. intros H. apply Qle_bool_iff in H. congruence.
  - intros db1 db2 fuel now made Hadd Hdue Hrun.
    destruct (negb (Qle_bool amount 0)); [| discriminate].
    injection Hadd as <-.
    set (r := mkRecurring
                (next_rowid (recurring_seq db) (r_id <$> recurring db))
                ty category (Some desc) amount "monthly" next_date).
    set (db1 := insert_recurring ty category (Some desc) amount "monthly"
                  next_date db) in *.
    assert (Hr : recurring db1 !! length (recurring db) = Some r).
    { unfold db1, insert_recurring. cbn [recurring].
      apply list_lookup_middle. reflexivity. }
    rewrite apply_recurring_plan in Hrun.
    destruct (plan fuel now (recurring db1)) as [p | |] eqn:Hp; simpl in Hrun;
      try discriminate.
    injection Hrun as <- <-.
    destruct (plan_lookup _ _ _ _ _ _ Hp Hr) as ([ds e] & Hs & Hsched).
    destruct (due_dates_head _ _ _ _ _ _ Hdue Hsched) as [rest ->].
    destruct (replay_transactions (recurring db1) p db1) as (blocks & Ht & Hb).
    destruct (block_lookup _ _ _ _ _ _ Hb Hr Hs) as (block & Hblock & Hc).
    destruct (blocks_posted _ _ _ (plan_length _ _ _ _ Hp) Hb) as [Hposted _].
    destruct block as [| t block]; [discriminate Hc |].
    apply (f_equal (fun l => l !! 0%nat)) in Hc. simpl in Hc.
    apply (inj Some) in Hc.
    assert (Hin : t ∈ concat blocks).
    { apply list_elem_of_In, in_concat. exists (t :: block).
      split; [| left; reflexivity].
      apply list_elem_of_In. eapply list_elem_of_lookup_2. eassumption. }
    split.
    + rewrite <- Hposted. destruct (concat blocks); [inversion Hin |].
      simpl length. lia.
    + assert (Hnew : t ∈ transactions (replay (recurring db1) p db1))
        by (rewrite Ht; apply elem_of_app; auto).
      exists t. split; [exact Hnew | exact Hc].
Qed.

Lemma add_recurring_then_posted_witness :
  exists t : transaction,
    columns t
    = (mkDate 2024 4 10, Expense, "Rent", Some "Flat", 12000%Q,
       Some "Recurring").
Proof.
  destruct (add_recurring_then_posted Expense "Rent" "Flat" 12000
              (mkDate 2024 4 10) (store_with [gym_rule])) as [_ Hposted].
  destruct (Hposted _ _ 5%nat (mkDate 2024 4 10) _ eq_refl eq_refl eq_refl)
    as [_ (t & _ & Hcols)].
  exists t. exact Hcols.
Defined.
